(** * FractalDreams: the native Mandelbrot block renderer

    A shallow embedding of [app/src/main/cpp/native-lib.cpp] and the
    properties of it that the specification states.

    - [int] is a 32-bit two's complement integer, carried as a [Z] with the
      wrap-around written out ([wrap32]).
    - [double] and [float] are IEEE 754 binary64 and binary32 numbers, carried
      as [spec_float] with the correctly rounded operations of the standard
      library's [SpecFloat] at precision 53 and 24. Every operation of the
      source rounds on its own: no pair of them is contracted into a fused
      multiply-add.
    - The two global lookup tables, the palette, the skip mask and the output
      buffer are lists read and written by index; a read or write outside the
      array has no defined result and is [None]. The arrays pinned through
      JNI are passed in and the output buffer is returned.
    - [std::log2] belongs to the C library, not to this repository: every
      definition that calls it takes it as the parameter [log2].
    - The conversion of a floating-point number to [int] is the truncation
      when the truncated value fits an [int]; otherwise C++ leaves the result
      open and the hardware decides, which is the parameter [cvt_invalid].

    The file has four parts: the program ([Colors], [initNative],
    [calculate_pixel_color], [mandelbrotRenderBlock]); the vocabulary of the
    statements (values of floating-point numbers, rounding); the proofs of
    the specification's statements, ending with those on the floating-point
    arithmetic of the smooth colour, which are derived from the definitions
    of [SpecFloat]; and further properties of the same functions: special
    values, bounds, symmetry and repeated calls. *)

From Stdlib Require Import ZArith Lia Bool List.
From Stdlib Require Import QArith Qabs Qround Qpower Lqa.
From Stdlib Require Import Floats.SpecFloat.
From stdpp Require Import base option list.

Local Open Scope Z_scope.

(** ** 32-bit integers *)

Definition INT_MIN : Z := - 2 ^ 31.
Definition INT_MAX : Z := 2 ^ 31 - 1.

Definition wrap32 (z : Z) : Z := (z + 2 ^ 31) mod 2 ^ 32 - 2 ^ 31.

Definition in_int (z : Z) : Prop := INT_MIN <= z <= INT_MAX.

Definition add32 (a b : Z) : Z := wrap32 (a + b).
Definition mul32 (a b : Z) : Z := wrap32 (a * b).
Definition shl32 (a n : Z) : Z := wrap32 (Z.shiftl a n).

(** [a % b] truncates towards zero, like [Z.rem]; C++ leaves [b = 0] and
    [INT_MIN % -1] undefined, and the renderer only divides by
    [maxIterations]. *)
Definition rem32 (a b : Z) : Z := Z.rem a b.

(** ** Floating point *)

Module F64.
Definition prec : Z := 53.
Definition emax : Z := 1024.
Definition add := SFadd prec emax.
Definition sub := SFsub prec emax.
Definition mul := SFmul prec emax.
Definition div := SFdiv prec emax.
Definition of_Z (n : Z) : spec_float := binary_normalize prec emax n 0 false.
Definition valid (x : spec_float) : Prop := valid_binary prec emax x = true.
End F64.

Module F32.
Definition prec : Z := 24.
Definition emax : Z := 128.
Definition add := SFadd prec emax.
Definition sub := SFsub prec emax.
Definition mul := SFmul prec emax.
Definition of_Z (n : Z) : spec_float := binary_normalize prec emax n 0 false.
Definition valid (x : spec_float) : Prop := valid_binary prec emax x = true.
(** [static_cast<float>(d)] of a double: rounding to nearest even. *)
Definition of_double (d : spec_float) : spec_float :=
  match d with
  | S754_finite s m e => binary_round prec emax s m e
  | _ => d
  end.
End F32.

(** [a > b] on floating-point numbers: false as soon as one side is NaN. *)
Definition fgt (a b : spec_float) : bool := SFltb b a.
Definition flt (a b : spec_float) : bool := SFltb a b.

Declare Scope f64_scope.
Delimit Scope f64_scope with f64.
Notation "a + b" := (F64.add a b) : f64_scope.
Notation "a - b" := (F64.sub a b) : f64_scope.
Notation "a * b" := (F64.mul a b) : f64_scope.
Notation "a / b" := (F64.div a b) : f64_scope.

Declare Scope f32_scope.
Delimit Scope f32_scope with f32.
Notation "a + b" := (F32.add a b) : f32_scope.
Notation "a - b" := (F32.sub a b) : f32_scope.
Notation "a * b" := (F32.mul a b) : f32_scope.

(** The integer part of a finite number, rounded towards zero. *)
Definition ftrunc (x : spec_float) : option Z :=
  match x with
  | S754_zero _ => Some 0
  | S754_finite s m e =>
      let n := match e with
               | Zneg p => Z.shiftr (Zpos m) (Zpos p)
               | _ => Z.shiftl (Zpos m) e
               end in
      Some (if s then - n else n)
  | _ => None
  end.

(** [std::floor] on doubles. The result is an integer of magnitude at most
    that of the argument, so [of_Z] does not round. *)
Definition ffloor (x : spec_float) : spec_float :=
  match x with
  | S754_finite s m (Zneg p) =>
      let n := Z.shiftr (if s then Zneg m else Zpos m) (Zpos p) in
      binary_normalize F64.prec F64.emax n 0 s
  | _ => x
  end.

(** [std::max(a, b)] is [(a < b) ? b : a] and [std::min(a, b)] is
    [(b < a) ? b : a]. *)
Definition fmax (a b : spec_float) : spec_float := if flt a b then b else a.
Definition imax (a b : Z) : Z := if a <? b then b else a.
Definition imin (a b : Z) : Z := if b <? a then b else a.

(** ** Colors *)

Module Colors.
Definition r (color : Z) : Z := Z.land (Z.shiftr color 16) 255.
Definition g (color : Z) : Z := Z.land (Z.shiftr color 8) 255.
Definition b (color : Z) : Z := Z.land color 255.
Definition rgb (r g b : Z) : Z :=
  Z.lor (Z.lor (Z.lor (shl32 255 24) (shl32 r 16)) (shl32 g 8)) b.
End Colors.

Record AffineTransform := {
  zx_x : spec_float; zx_y : spec_float; zx_c : spec_float;
  zy_x : spec_float; zy_y : spec_float; zy_c : spec_float
}.

(** ** Arrays *)

(** [a[i]] for an [int] index: defined inside the array only. *)
Definition read {A} (a : list A) (i : Z) : option A :=
  if i <? 0 then None else a !! Z.to_nat i.

Definition write {A} (a : list A) (i : Z) (v : A) : option (list A) :=
  if (0 <=? i) && (i <? Z.of_nat (length a))
  then Some (<[Z.to_nat i := v]> a) else None.

(** The two global tables, [std::vector<double>(65536)] each. *)
Record Tables := {
  logMagnitudeLookupTable : list spec_float;
  logLogLookupTable : list spec_float
}.

Definition TABLE_SIZE : Z := 65536.

Definition tables_zero : Tables :=
  {| logMagnitudeLookupTable := replicate (Z.to_nat TABLE_SIZE) (S754_zero false);
     logLogLookupTable := replicate (Z.to_nat TABLE_SIZE) (S754_zero false) |}.

(** The literal [1.585]: the double nearest to 1585/1000. *)
Definition lit_1_585 : spec_float := (F64.of_Z 1585 / F64.of_Z 1000)%f64.

Section Renderer.

(** [std::log2] of the C library. *)
Variable log2 : spec_float -> spec_float.

(** What the conversion to [int] gives on NaN, on an infinity and on a value
    whose integer part does not fit an [int]. *)
Variable cvt_invalid : spec_float -> Z.

Definition static_cast_int (x : spec_float) : Z :=
  match ftrunc x with
  | Some n => if (INT_MIN <=? n) && (n <=? INT_MAX) then n
              else wrap32 (cvt_invalid x)
  | None => wrap32 (cvt_invalid x)
  end.

(** *** initNative *)

Definition magnitude_input (i : Z) : spec_float :=
  (F64.of_Z 4 + (F64.of_Z i / F64.of_Z 65535) * F64.of_Z 32)%f64.

Definition loglog_input (i : Z) : spec_float :=
  (F64.of_Z 1 + (F64.of_Z i / F64.of_Z 65535) * lit_1_585)%f64.

(** [for (int i = i0; i < 65536; i++) table[i] = std::log2(input(i));]
    with [fuel] bounding the number of iterations still to run. *)
Fixpoint fill_loop (input : Z -> spec_float) (fuel : nat) (i : Z)
    (table : list spec_float) : option (list spec_float) :=
  if i <? 65536 then
    match fuel with
    | O => None
    | S fuel' =>
        table' ← write table i (log2 (input i));
        fill_loop input fuel' (i + 1) table'
    end
  else Some table.

Definition initNative (t : Tables) : option Tables :=
  m ← fill_loop magnitude_input (Z.to_nat TABLE_SIZE) 0 (logMagnitudeLookupTable t);
  l ← fill_loop loglog_input (Z.to_nat TABLE_SIZE) 0 (logLogLookupTable t);
  Some {| logMagnitudeLookupTable := m; logLogLookupTable := l |}.

(** *** calculate_pixel_color *)

Definition pixel_c (t : AffineTransform) (x y : Z) : spec_float * spec_float :=
  (zx_x t * F64.of_Z x + zx_y t * F64.of_Z y + zx_c t,
   zy_x t * F64.of_Z x + zy_y t * F64.of_Z y + zy_c t)%f64.

(** The [while (i < maxIterations)] loop on the state [(z_re, z_im, i)];
    every pass increments [i], so [fuel = maxIterations - i] passes are
    enough ([escape_loop_spec] below). *)
Fixpoint escape_loop (fuel : nat) (maxIterations : Z) (escapeRadiusSquared : spec_float)
    (c_re c_im : spec_float) (z_re z_im : spec_float) (i : Z)
    : spec_float * spec_float * Z :=
  if i <? maxIterations then
    let z_re_sq := (z_re * z_re)%f64 in
    let z_im_sq := (z_im * z_im)%f64 in
    if fgt (z_re_sq + z_im_sq)%f64 escapeRadiusSquared then (z_re, z_im, i)
    else
      match fuel with
      | O => (z_re, z_im, i)
      | S fuel' =>
          let next_z_im := (F64.of_Z 2 * z_re * z_im + c_im)%f64 in
          escape_loop fuel' maxIterations escapeRadiusSquared c_re c_im
            (z_re_sq - z_im_sq + c_re)%f64 next_z_im (i + 1)
      end
  else (z_re, z_im, i).

Definition evaluate_pixel (x y : Z) (transform : AffineTransform)
    (maxIterations : Z) (escapeRadiusSquared : spec_float)
    : spec_float * spec_float * Z :=
  let '(c_re, c_im) := pixel_c transform x y in
  escape_loop (Z.to_nat maxIterations) maxIterations escapeRadiusSquared
    c_re c_im (S754_zero false) (S754_zero false) 0.

(** [((k + colorOffset) % n + n) % n] *)
Definition palette_index (k colorOffset n : Z) : Z :=
  rem32 (add32 (rem32 (add32 k colorOffset) n) n) n.

Definition clamp_index (index : Z) : Z := imax 0 (imin index 65535).

Definition magnitude_index (magSq logMagnitudeScaleFactor : spec_float) : Z :=
  clamp_index (static_cast_int ((magSq - F64.of_Z 4) * logMagnitudeScaleFactor)%f64).

Definition nu_index (logZn logLogScaleFactor : spec_float) : Z :=
  clamp_index (static_cast_int ((logZn - F64.of_Z 1) * logLogScaleFactor)%f64).

Definition smooth_nu (tables : Tables) (useLog2Lookup : bool) (magSq : spec_float)
    (logMagnitudeScaleFactor logLogScaleFactor log2_2 : spec_float) : option spec_float :=
  if useLog2Lookup then
    v ← read (logMagnitudeLookupTable tables) (magnitude_index magSq logMagnitudeScaleFactor);
    let logZn := (v / F64.of_Z 2)%f64 in
    w ← read (logLogLookupTable tables) (nu_index logZn logLogScaleFactor);
    Some (w / log2_2)%f64
  else
    let logZn := (log2 magSq / F64.of_Z 2)%f64 in
    Some (log2 logZn / log2_2)%f64.

Definition continuous_index (i : Z) (nu : spec_float) : spec_float :=
  fmax (F64.of_Z 0) (F64.of_Z (add32 i 1) - nu)%f64.

Definition smooth_fraction (continuousIndex : spec_float) : spec_float :=
  F32.of_double (continuousIndex - ffloor continuousIndex)%f64.

(** [static_cast<int>(c1 * (1 - fraction) + c2 * fraction)], in [float]
    arithmetic: the channels and the literal 1 are converted to [float]. *)
Definition lerp_float (c1 c2 : Z) (fraction : spec_float) : spec_float :=
  (F32.of_Z c1 * (F32.of_Z 1 - fraction) + F32.of_Z c2 * fraction)%f32.

Definition lerp_channel (c1 c2 : Z) (fraction : spec_float) : Z :=
  static_cast_int (lerp_float c1 c2 fraction).

Definition smooth_color (colorPalette : list Z) (maxIterations colorOffset i : Z)
    (nu : spec_float) : option Z :=
  let continuousIndex := continuous_index i nu in
  let index1 := static_cast_int continuousIndex in
  let index2 := add32 index1 1 in
  color1 ← read colorPalette (palette_index index1 colorOffset maxIterations);
  color2 ← read colorPalette (palette_index index2 colorOffset maxIterations);
  let fraction := smooth_fraction continuousIndex in
  let r := lerp_channel (Colors.r color1) (Colors.r color2) fraction in
  let g := lerp_channel (Colors.g color1) (Colors.g color2) fraction in
  let b := lerp_channel (Colors.b color1) (Colors.b color2) fraction in
  Some (Colors.rgb r g b).

Definition resolve_color (tables : Tables) (z_re z_im : spec_float) (i : Z)
    (maxIterations : Z) (colorPalette : list Z) (colorOffset : Z)
    (smoothColors useLog2Lookup : bool)
    (logMagnitudeScaleFactor logLogScaleFactor log2_2 : spec_float) : option Z :=
  if i =? maxIterations then read colorPalette maxIterations
  else if smoothColors then
    let magSq := (z_re * z_re + z_im * z_im)%f64 in
    nu ← smooth_nu tables useLog2Lookup magSq logMagnitudeScaleFactor logLogScaleFactor log2_2;
    smooth_color colorPalette maxIterations colorOffset i nu
  else read colorPalette (palette_index i colorOffset maxIterations).

Definition calculate_pixel_color (tables : Tables) (x y : Z) (transform : AffineTransform)
    (maxIterations : Z) (escapeRadiusSquared : spec_float)
    (colorPalette : list Z) (colorOffset : Z) (smoothColors useLog2Lookup : bool)
    (logMagnitudeScaleFactor logLogScaleFactor log2_2 : spec_float) : option Z :=
  let '(z_re, z_im, i) := evaluate_pixel x y transform maxIterations escapeRadiusSquared in
  resolve_color tables z_re z_im i maxIterations colorPalette colorOffset smoothColors
    useLog2Lookup logMagnitudeScaleFactor logLogScaleFactor log2_2.


(** *** mandelbrotRenderBlock *)

Section Block.

Variable tables : Tables.
Variables currentBlockHeight currentBlockWidth blockX blockY : Z.
Variable transform : AffineTransform.
Variable maxIterations : Z.
Variable escapeRadiusSquared : spec_float.
Variable colorPalette : list Z.
Variable colorOffset : Z.
Variables smoothColors useLog2Lookup : bool.
Variables logMagnitudeScaleFactor logLogScaleFactor log2_2 : spec_float.
(** [isPixelSet_] may be a null reference. *)
Variable isPixelSet : option (list bool).

(** The body of the inner loop. *)
Definition render_pixel (x y : Z) (colorArray : list Z) : option (list Z) :=
  let index := add32 (mul32 y currentBlockWidth) x in
  set ← match isPixelSet with
         | None => Some false
         | Some mask => read mask index
         end;
  if set : bool then Some colorArray
  else
    color ← calculate_pixel_color tables (add32 blockX x) (add32 blockY y) transform
              maxIterations escapeRadiusSquared colorPalette colorOffset
              smoothColors useLog2Lookup
              logMagnitudeScaleFactor logLogScaleFactor log2_2;
    write colorArray index color.

(** [for (int x = x0; x < currentBlockWidth; x++)] *)
Fixpoint row_loop (fuel : nat) (y x : Z) (colorArray : list Z) : option (list Z) :=
  if x <? currentBlockWidth then
    match fuel with
    | O => None
    | S fuel' =>
        colorArray' ← render_pixel x y colorArray;
        row_loop fuel' y (x + 1) colorArray'
    end
  else Some colorArray.

(** [for (int y = y0; y < currentBlockHeight; y++)] *)
Fixpoint block_loop (fuel : nat) (y : Z) (colorArray : list Z) : option (list Z) :=
  if y <? currentBlockHeight then
    match fuel with
    | O => None
    | S fuel' =>
        colorArray' ← row_loop (Z.to_nat currentBlockWidth) y 0 colorArray;
        block_loop fuel' (y + 1) colorArray'
    end
  else Some colorArray.

Definition mandelbrotRenderBlock (colorArray : list Z) : option (list Z) :=
  block_loop (Z.to_nat currentBlockHeight) 0 colorArray.

End Block.


(** *** The recurrence, as the specification words it

    [z ← z² + c], expanded as [z_re' = z_re² − z_im² + c_re] and
    [z_im' = 2·z_re·z_im + c_im]; [orbit c k] is the [k]-th iterate from
    [z = 0], and [exceeds] is the escape test [|z|² > escapeRadiusSquared]. *)

Definition mandel_step (c z : spec_float * spec_float) : spec_float * spec_float :=
  (fst z * fst z - snd z * snd z + fst c,
   F64.of_Z 2 * fst z * snd z + snd c)%f64.

Fixpoint iterate_from (c : spec_float * spec_float) (k : nat)
    (z : spec_float * spec_float) : spec_float * spec_float :=
  match k with
  | O => z
  | S k' => iterate_from c k' (mandel_step c z)
  end.

Definition orbit (c : spec_float * spec_float) (k : nat) : spec_float * spec_float :=
  iterate_from c k (S754_zero false, S754_zero false).

Definition exceeds (escapeRadiusSquared : spec_float) (z : spec_float * spec_float) : bool :=
  fgt (fst z * fst z + snd z * snd z)%f64 escapeRadiusSquared.

End Renderer.

(** ** A reference [log2] and two conversion behaviours

    The theorems below hold for every [log2] and every [cvt_invalid]. To run
    the model on a concrete pixel one needs an instance of each.

    [log2_ref] computes the binary logarithm by the digit recurrence (square,
    compare with 2, halve) on a 200-bit fixed-point number, keeps 80 fractional
    bits and rounds to binary64. It returns the special values C prescribes
    ([log2(±0) = -inf], [log2(x < 0) = NaN], [log2(+inf) = +inf]) and is exact
    on the powers of two. *)

Definition LOG2_P : Z := 200.
Definition LOG2_N : nat := 80.

Fixpoint log2_frac_bits (n : nat) (y acc : Z) : Z :=
  match n with
  | O => acc
  | S n' =>
      let y2 := Z.shiftr (y * y) LOG2_P in
      if Z.shiftl 2 LOG2_P <=? y2
      then log2_frac_bits n' (Z.shiftr y2 1) (2 * acc + 1)
      else log2_frac_bits n' y2 (2 * acc)
  end.

Definition log2_ref (x : spec_float) : spec_float :=
  match x with
  | S754_nan => S754_nan
  | S754_zero _ => S754_infinity true
  | S754_infinity false => x
  | S754_infinity true => S754_nan
  | S754_finite true _ _ => S754_nan
  | S754_finite false m e =>
      let d := Zpos (digits2_pos m) in
      let y := Z.shiftl (Zpos m) (LOG2_P - (d - 1)) in
      let frac := log2_frac_bits LOG2_N y 0 in
      binary_normalize F64.prec F64.emax
        (Z.shiftl (e + d - 1) (Z.of_nat LOG2_N) + frac) (- Z.of_nat LOG2_N) false
  end.

(** x86 SSE ([cvttsd2si], [cvttss2si]) answers every invalid conversion with
    the "integer indefinite" value [INT_MIN]. *)
Definition cvt_invalid_x86 (x : spec_float) : Z := INT_MIN.

(** AArch64 ([fcvtzs]) saturates and converts NaN to 0. *)
Definition cvt_invalid_arm (x : spec_float) : Z :=
  match x with
  | S754_nan | S754_zero _ => 0
  | S754_infinity s | S754_finite s _ _ => if s then INT_MIN else INT_MAX
  end.

(** ** Concrete inputs for the examples *)

(** The transform that maps every pixel to the same point [c_re + c_im·i]. *)
Definition constant_transform (c_re c_im : spec_float) : AffineTransform :=
  {| zx_x := S754_zero false; zx_y := S754_zero false; zx_c := c_re;
     zy_x := S754_zero false; zy_y := S754_zero false; zy_c := c_im |}.

(** A palette of [n + 1] opaque greys, entry [k] being the grey of level [k]. *)
Definition grey_palette (n : nat) : list Z :=
  map (fun k => Colors.rgb (Z.of_nat k) (Z.of_nat k) (Z.of_nat k)) (seq 0 (S n)).

(** ** Checking a property on every channel value *)

Definition all_bytes (P : Z -> bool) : bool := forallb P (map Z.of_nat (seq 0 256)).

Definition is_zero (x : spec_float) : bool :=
  match x with
  | S754_zero _ => true
  | _ => false
  end.

Definition truncates_to (x : spec_float) (n : Z) : bool :=
  match ftrunc x with
  | Some k => k =? n
  | None => false
  end.

(** ** The value of a floating-point number

    The rational number a finite [spec_float] stands for; 0 for the others. *)

Definition bpow (e : Z) : Q := ((2 # 1) ^ e)%Q.

Definition F2Q (m e : Z) : Q := (inject_Z m * bpow e)%Q.

Definition SF2Q (x : spec_float) : Q :=
  match x with
  | S754_finite s m e => F2Q (cond_Zopp s (Zpos m)) e
  | _ => 0%Q
  end.

Definition is_finite (x : spec_float) : bool :=
  match x with
  | S754_finite _ _ _ | S754_zero _ => true
  | _ => false
  end.

(** [a] is within relative error [tol] of [b]. *)
Definition within_relative (tol : Q) (a b : spec_float) : Prop :=
  is_finite a = true /\ is_finite b = true
  /\ (Qabs (SF2Q a - SF2Q b) <= tol * Qabs (SF2Q b))%Q.

(** The scale factors that go with the tables of [initNative]. *)
Definition magnitude_scale : spec_float := F64.div (F64.of_Z 65535) (F64.of_Z 32).
Definition loglog_scale : spec_float := F64.div (F64.of_Z 65535) lit_1_585.

(** ** Vocabulary for the rounding lemmas *)

(** Nothing has been shifted out of the record. *)
Definition shr_exact (mrs : shr_record) : Prop :=
  shr_r mrs = false /\ shr_s mrs = false.

(** The last step of [binary_round_aux]: zero, a finite number, or an
    infinity when the exponent is out of range. *)
Definition SFpack (prec emax : Z) (s : bool) (m e : Z) : spec_float :=
  match m with
  | Z0 => S754_zero s
  | Zpos p => if e <=? emax - prec then S754_finite s p e else S754_infinity s
  | Zneg _ => S754_nan
  end.

(** The numbers of the format [(prec, emax)] that are not negative. *)
Definition in_format (prec emax : Z) (y : Q) : Prop :=
  exists m e, 0 <= m < 2 ^ prec /\ emin prec emax <= e <= emax - prec
              /\ (y == F2Q m e)%Q.

Definition nonneg_finite (x : spec_float) : Prop :=
  x = S754_zero false \/ exists m e, x = S754_finite false m e.

(** [r] is what a correctly rounded operation returns for the exact result
    [x >= 0]: a valid number that is zero, positive or [+inf], and that no
    number of the format separates from [x]. *)
Definition rounded (prec emax : Z) (x : Q) (r : spec_float) : Prop :=
  valid_binary prec emax r = true
  /\ (nonneg_finite r \/ r = S754_infinity false)
  /\ (forall y, in_format prec emax y -> (x <= y)%Q ->
        nonneg_finite r /\ (SF2Q r <= y)%Q)
  /\ (forall y, in_format prec emax y -> (y <= x)%Q -> nonneg_finite r ->
        (y <= SF2Q r)%Q).

(** ** The sign of a zero *)

(** [x] with the sign of a zero forgotten: [-0] becomes [+0]. *)
Definition drop_zero_sign (x : spec_float) : spec_float :=
  match x with
  | S754_zero _ => S754_zero false
  | _ => x
  end.

(** ** What the comparison of the two paths asks of [std::log2]

    [log2 x] and [log2 y] are valid numbers, zero or positive, and their
    distance is at most [slope] times the distance of [x] and [y], up to
    [2^-40]. The binary logarithm has slope [1/(x ln 2)]: less than [3/8]
    from 4 on and less than [3/2] from 1 on. *)
Definition slope_at (log2 : spec_float -> spec_float) (slope : Q)
    (x y : spec_float) : Prop :=
  F64.valid (log2 x) /\ nonneg_finite (log2 x)
  /\ F64.valid (log2 y) /\ nonneg_finite (log2 y)
  /\ (Qabs (SF2Q (log2 x) - SF2Q (log2 y))
      <= slope * Qabs (SF2Q x - SF2Q y) + (1 # 1099511627776))%Q.

(** ** The escape-time loop *)

Section EscapeLoop.

Variables (maxIterations : Z) (escapeRadiusSquared : spec_float).
Variable c : spec_float * spec_float.

Lemma iterate_from_succ k z :
  iterate_from c (S k) z = mandel_step c (iterate_from c k z).
Proof.
  revert z. induction k as [|k IH]; intros z; [reflexivity|].
  change (iterate_from c (S (S k)) z) with (iterate_from c (S k) (mandel_step c z)).
  rewrite IH. reflexivity.
Qed.

(** What the loop returns when started in state [(z, i)] with enough fuel:
    it has made [n] passes, each one after a failed escape test on the
    iterate it started from, and it stopped either on a successful test or
    at [i = maxIterations]. *)
Lemma escape_loop_spec fuel : forall z i,
  maxIterations - i <= Z.of_nat fuel ->
  exists n : nat,
    escape_loop fuel maxIterations escapeRadiusSquared (fst c) (snd c) (fst z) (snd z) i
      = (iterate_from c n z, i + Z.of_nat n)
    /\ (forall k, (k < n)%nat -> exceeds escapeRadiusSquared (iterate_from c k z) = false)
    /\ (forall k, (k < n)%nat -> i + Z.of_nat k < maxIterations)
    /\ (i + Z.of_nat n < maxIterations ->
          exceeds escapeRadiusSquared (iterate_from c n z) = true).
Proof.
  induction fuel as [|fuel IH]; intros [z_re z_im] i Hfuel.
  - exists O. cbn [escape_loop fst snd iterate_from].
    destruct (Z.ltb_spec i maxIterations) as [Hlt|Hge]; [lia|].
    rewrite Z.add_0_r. repeat split; intros; lia.
  - cbn [escape_loop fst snd].
    destruct (Z.ltb_spec i maxIterations) as [Hlt|Hge].
    + destruct (fgt _ escapeRadiusSquared) eqn:Hesc.
      * exists O. cbn [iterate_from]. rewrite Z.add_0_r.
        repeat split; intros; try lia. exact Hesc.
      * destruct (IH (mandel_step c (z_re, z_im)) (i + 1)) as (n & Hrun & Hno & Hin & Hstop);
          [lia|].
        exists (S n). cbn [mandel_step fst snd] in Hrun. rewrite Hrun.
        cbn [iterate_from]. repeat split.
        -- f_equal. lia.
        -- intros [|k] Hk; [exact Hesc|]. apply Hno. lia.
        -- intros [|k] Hk; [lia|]. specialize (Hin k). lia.
        -- intros H. apply Hstop. lia.
    + exists O. cbn [iterate_from]. rewrite Z.add_0_r.
      repeat split; intros; lia.
Qed.

End EscapeLoop.

Section EvaluatePixel.

Variables (x y : Z) (transform : AffineTransform).
Variables (maxIterations : Z) (escapeRadiusSquared : spec_float).

(** The loop run from [z = 0], [i = 0] with the fuel [evaluate_pixel] gives
    it: the count [n] is the first index whose iterate passes the escape
    test, or [maxIterations] when none below it does. *)
Lemma evaluate_pixel_spec :
  0 <= maxIterations ->
  exists n : nat,
    evaluate_pixel x y transform maxIterations escapeRadiusSquared
      = (orbit (pixel_c transform x y) n, Z.of_nat n)
    /\ Z.of_nat n <= maxIterations
    /\ (forall k, (k < n)%nat ->
          exceeds escapeRadiusSquared (orbit (pixel_c transform x y) k) = false)
    /\ (Z.of_nat n < maxIterations ->
          exceeds escapeRadiusSquared (orbit (pixel_c transform x y) n) = true).
Proof.
  intros Hmax. unfold evaluate_pixel.
  destruct (pixel_c transform x y) as [c_re c_im] eqn:Hc.
  destruct (escape_loop_spec maxIterations escapeRadiusSquared (c_re, c_im)
              (Z.to_nat maxIterations) (S754_zero false, S754_zero false) 0)
    as (n & Hrun & Hno & Hin & Hstop); [lia|].
  cbn [fst snd] in Hrun. exists n. rewrite Hrun. repeat split.
  - destruct n as [|n]; [lia|]. specialize (Hin n). lia.
  - intros k Hk. apply Hno, Hk.
  - intros Hlt. apply Hstop. lia.
Qed.

(** The count is decided by the tests alone. *)
Lemma evaluate_pixel_count (n : nat) :
  Z.of_nat n <= maxIterations ->
  (forall k, (k < n)%nat ->
     exceeds escapeRadiusSquared (orbit (pixel_c transform x y) k) = false) ->
  (Z.of_nat n < maxIterations ->
     exceeds escapeRadiusSquared (orbit (pixel_c transform x y) n) = true) ->
  evaluate_pixel x y transform maxIterations escapeRadiusSquared
    = (orbit (pixel_c transform x y) n, Z.of_nat n).
Proof.
  intros Hn Hno Hstop.
  destruct evaluate_pixel_spec as (n' & Hrun & Hn' & Hno' & Hstop'); [lia|].
  rewrite Hrun.
  destruct (Nat.lt_trichotomy n n') as [Hlt|[Heq|Hgt]].
  - rewrite Hno' in Hstop by exact Hlt. discriminate Hstop. lia.
  - subst n'. reflexivity.
  - rewrite Hno in Hstop' by exact Hgt. discriminate Hstop'. lia.
Qed.

End EvaluatePixel.

Section Interior.

Variable log2 : spec_float -> spec_float.
Variable cvt_invalid : spec_float -> Z.
Variable tables : Tables.
Variables (x y : Z) (transform : AffineTransform).
Variables (maxIterations : Z) (escapeRadiusSquared : spec_float).
Variables (colorPalette : list Z) (colorOffset : Z).
Variables smoothColors useLog2Lookup : bool.
Variables logMagnitudeScaleFactor logLogScaleFactor log2_2 : spec_float.

Lemma interior_color :
  snd (evaluate_pixel x y transform maxIterations escapeRadiusSquared) = maxIterations ->
  calculate_pixel_color log2 cvt_invalid tables x y transform maxIterations
    escapeRadiusSquared colorPalette colorOffset smoothColors useLog2Lookup
    logMagnitudeScaleFactor logLogScaleFactor log2_2
  = read colorPalette maxIterations.
Proof.
  unfold calculate_pixel_color.
  destruct evaluate_pixel as [[z_re z_im] i]. cbn [snd]. intros ->.
  unfold resolve_color. rewrite Z.eqb_refl. reflexivity.
Qed.

(** C1: the loop tests [|z|² > escapeRadiusSquared] before each step, on the
    iterate the step starts from; it makes at most [maxIterations] steps of
    [z ← z² + c]; and a pixel whose iterates never pass the test runs exactly
    [maxIterations] steps and gets the interior colour. *)
Theorem escape_loop_tests_before_each_step :
  0 <= maxIterations ->
  exists n : nat,
    evaluate_pixel x y transform maxIterations escapeRadiusSquared
      = (orbit (pixel_c transform x y) n, Z.of_nat n)
    /\ Z.of_nat n <= maxIterations
    /\ (forall k, (k < n)%nat ->
          exceeds escapeRadiusSquared (orbit (pixel_c transform x y) k) = false)
    /\ (Z.of_nat n < maxIterations ->
          exceeds escapeRadiusSquared (orbit (pixel_c transform x y) n) = true)
    /\ ((forall k, Z.of_nat k < maxIterations ->
           exceeds escapeRadiusSquared (orbit (pixel_c transform x y) k) = false) ->
        Z.of_nat n = maxIterations
        /\ calculate_pixel_color log2 cvt_invalid tables x y transform maxIterations
             escapeRadiusSquared colorPalette colorOffset smoothColors useLog2Lookup
             logMagnitudeScaleFactor logLogScaleFactor log2_2
           = read colorPalette maxIterations).
Proof.
  intros Hmax.
  destruct (evaluate_pixel_spec x y transform maxIterations escapeRadiusSquared Hmax)
    as (n & Hrun & Hn & Hno & Hstop).
  exists n. repeat split; try assumption.
  - destruct (Z.eq_dec (Z.of_nat n) maxIterations) as [Heq|Hne]; [exact Heq|].
    rewrite H in Hstop by lia. discriminate Hstop. lia.
  - apply interior_color. rewrite Hrun. cbn [snd].
    destruct (Z.eq_dec (Z.of_nat n) maxIterations) as [Heq|Hne]; [exact Heq|].
    rewrite H in Hstop by lia. discriminate Hstop. lia.
Qed.

End Interior.

Lemma escape_loop_tests_before_each_step_witness :
  exists n : nat,
    evaluate_pixel 0 0 (constant_transform (F64.of_Z 2) (F64.of_Z 0)) 50 (F64.of_Z 4)
      = (orbit (pixel_c (constant_transform (F64.of_Z 2) (F64.of_Z 0)) 0 0) n, Z.of_nat n)
    /\ Z.of_nat n <= 50.
Proof.
  destruct (escape_loop_tests_before_each_step log2_ref cvt_invalid_arm tables_zero 0 0
              (constant_transform (F64.of_Z 2) (F64.of_Z 0)) 50 (F64.of_Z 4)
              (grey_palette 50) 0 false false (F64.of_Z 1) (F64.of_Z 1) (F64.of_Z 1))
    as (n & Hrun & Hn & _); [lia|].
  exists n. split; [exact Hrun | exact Hn].
Defined.

(** ** The two scenario points: [c = 0] and [c = 2] *)

Lemma positive_not_below_zero (e : spec_float) :
  flt (F64.of_Z 0) e = true -> fgt (S754_zero false) e = false.
Proof. destruct e as [s|s| |s m ex]; try destruct s; cbn; congruence. Qed.

Lemma orbit_succ c k : orbit c (S k) = mandel_step c (orbit c k).
Proof. apply iterate_from_succ. Qed.

(** From [c = ±0 ± 0i] the iterate stays at [+0 + 0i]. *)
Lemma orbit_zero (s_re s_im : bool) (k : nat) :
  orbit (S754_zero s_re, S754_zero s_im) k = (S754_zero false, S754_zero false).
Proof.
  induction k as [|k IH]; [reflexivity|].
  rewrite orbit_succ, IH. destruct s_re, s_im; reflexivity.
Qed.

Lemma count_at_zero x y transform maxIterations escapeRadiusSquared s_re s_im :
  pixel_c transform x y = (S754_zero s_re, S754_zero s_im) ->
  flt (F64.of_Z 0) escapeRadiusSquared = true ->
  0 <= maxIterations ->
  evaluate_pixel x y transform maxIterations escapeRadiusSquared
    = (S754_zero false, S754_zero false, maxIterations).
Proof.
  intros Hc Hesc Hmax.
  rewrite (evaluate_pixel_count x y transform maxIterations escapeRadiusSquared
             (Z.to_nat maxIterations)).
  - rewrite Hc, orbit_zero. f_equal. lia.
  - lia.
  - intros k _. rewrite Hc, orbit_zero. apply positive_not_below_zero, Hesc.
  - lia.
Qed.

(** C2: a pixel whose count equals [maxIterations] gets
    [palette[maxIterations]] whatever [smoothColors], [useLog2Lookup] and
    [colorOffset] are; with [maxIterations = 50] and a transform that maps the
    pixel to [c = 0 + 0i], the count is 50 and the colour is [palette[50]]. *)
Theorem interior_pixel_gets_palette_max
    log2 cvt_invalid tables x y transform maxIterations escapeRadiusSquared
    colorPalette colorOffset smoothColors useLog2Lookup
    logMagnitudeScaleFactor logLogScaleFactor log2_2 s_re s_im :
  (snd (evaluate_pixel x y transform maxIterations escapeRadiusSquared) = maxIterations ->
   calculate_pixel_color log2 cvt_invalid tables x y transform maxIterations
     escapeRadiusSquared colorPalette colorOffset smoothColors useLog2Lookup
     logMagnitudeScaleFactor logLogScaleFactor log2_2
   = read colorPalette maxIterations)
  /\ (pixel_c transform x y = (S754_zero s_re, S754_zero s_im) ->
      flt (F64.of_Z 0) escapeRadiusSquared = true ->
      snd (evaluate_pixel x y transform 50 escapeRadiusSquared) = 50
      /\ calculate_pixel_color log2 cvt_invalid tables x y transform 50
           escapeRadiusSquared colorPalette colorOffset smoothColors useLog2Lookup
           logMagnitudeScaleFactor logLogScaleFactor log2_2
         = read colorPalette 50).
Proof.
  split; [apply interior_color|].
  intros Hc Hesc.
  assert (Hcount : snd (evaluate_pixel x y transform 50 escapeRadiusSquared) = 50).
  { rewrite (count_at_zero x y transform 50 escapeRadiusSquared s_re s_im Hc Hesc);
      [reflexivity | lia]. }
  split; [exact Hcount | apply interior_color, Hcount].
Qed.

(** The orbit of [c = 2 ± 0i]: 0, 2, 6. *)
Lemma orbit_two (s : bool) :
  orbit (F64.of_Z 2, S754_zero s) 1 = (F64.of_Z 2, S754_zero false)
  /\ orbit (F64.of_Z 2, S754_zero s) 2 = (F64.of_Z 6, S754_zero false).
Proof. destruct s; split; vm_compute; reflexivity. Qed.

Lemma count_at_two x y transform maxIterations s :
  pixel_c transform x y = (F64.of_Z 2, S754_zero s) ->
  3 <= maxIterations ->
  evaluate_pixel x y transform maxIterations (F64.of_Z 4)
    = (F64.of_Z 6, S754_zero false, 2).
Proof.
  intros Hc Hmax.
  rewrite (evaluate_pixel_count x y transform maxIterations (F64.of_Z 4) 2).
  - rewrite Hc. destruct (orbit_two s) as [_ ->]. reflexivity.
  - lia.
  - intros k Hk. rewrite Hc.
    destruct k as [|[|k]]; [destruct s; reflexivity | | lia].
    destruct (orbit_two s) as [-> _]. reflexivity.
  - intros _. rewrite Hc. destruct (orbit_two s) as [_ ->]. reflexivity.
Qed.

Lemma interior_pixel_gets_palette_max_witness :
  snd (evaluate_pixel 3 7 (constant_transform (F64.of_Z 0) (F64.of_Z 0)) 50 (F64.of_Z 4)) = 50
  /\ calculate_pixel_color log2_ref cvt_invalid_arm tables_zero 3 7
       (constant_transform (F64.of_Z 0) (F64.of_Z 0)) 50 (F64.of_Z 4)
       (grey_palette 50) 5 true true (F64.of_Z 1) (F64.of_Z 1) (F64.of_Z 1)
     = read (grey_palette 50) 50.
Proof.
  destruct (interior_pixel_gets_palette_max log2_ref cvt_invalid_arm tables_zero 3 7
              (constant_transform (F64.of_Z 0) (F64.of_Z 0)) 50 (F64.of_Z 4)
              (grey_palette 50) 5 true true (F64.of_Z 1) (F64.of_Z 1) (F64.of_Z 1)
              false false) as [_ Hzero].
  apply Hzero; vm_compute; reflexivity.
Defined.

(** ** Integer wrap-around and the palette index *)

Lemma wrap32_range z : INT_MIN <= wrap32 z <= INT_MAX.
Proof.
  unfold wrap32, INT_MIN, INT_MAX.
  pose proof (Z.mod_pos_bound (z + 2 ^ 31) (2 ^ 32) ltac:(lia)). lia.
Qed.

Lemma wrap32_id z : INT_MIN <= z <= INT_MAX -> wrap32 z = z.
Proof.
  unfold wrap32, INT_MIN, INT_MAX. intros Hz.
  rewrite Z.mod_small; lia.
Qed.

(** With [n] at most [2^30] the inner sum [r + n] cannot overflow, whatever
    the first sum wrapped to. *)
Lemma palette_index_range k colorOffset n :
  1 <= n <= 2 ^ 30 -> 0 <= palette_index k colorOffset n < n.
Proof.
  intros Hn. unfold palette_index, rem32, add32.
  pose proof (wrap32_range (k + colorOffset)) as Hs.
  set (s := wrap32 (k + colorOffset)) in *.
  assert (Hr : - n < Z.rem s n < n).
  { pose proof (Z.rem_bound_abs s n ltac:(lia)) as Hb.
    rewrite (Z.abs_eq n) in Hb by lia. lia. }
  rewrite wrap32_id by (unfold INT_MIN, INT_MAX; lia).
  apply Z.rem_bound_pos; lia.
Qed.

(** When the first sum does not overflow either, the index is the
    mathematical modulo. *)
Lemma palette_index_mod k colorOffset n :
  1 <= n <= 2 ^ 30 -> INT_MIN <= k + colorOffset <= INT_MAX ->
  palette_index k colorOffset n = (k + colorOffset) mod n.
Proof.
  intros Hn Hs. unfold palette_index, rem32, add32.
  rewrite (wrap32_id (k + colorOffset)) by exact Hs.
  set (s := k + colorOffset) in *.
  assert (Hr : - n < Z.rem s n < n).
  { pose proof (Z.rem_bound_abs s n ltac:(lia)) as Hb.
    rewrite (Z.abs_eq n) in Hb by lia. lia. }
  rewrite wrap32_id by (unfold INT_MIN, INT_MAX; lia).
  rewrite Z.rem_mod_nonneg by lia.
  rewrite <- (Z.mod_add s 1 n) by lia.
  pose proof (Z.quot_rem' s n) as Hq.
  replace (s + 1 * n) with (Z.rem s n + n + (Z.quot s n) * n) by lia.
  rewrite Z.mod_add by lia. reflexivity.
Qed.

(** C3, as the code has it: [int] arithmetic wraps, and for
    [1 <= maxIterations <= 2^30] the double-modulo index of any
    [iterationCount] and any [colorOffset] lies in [[0, maxIterations)]; it is
    the mathematical modulo of the sum whenever the sum fits an [int]. *)
Theorem discrete_index_in_range iterationCount colorOffset maxIterations :
  1 <= maxIterations <= 2 ^ 30 ->
  0 <= palette_index iterationCount colorOffset maxIterations < maxIterations
  /\ (INT_MIN <= iterationCount + colorOffset <= INT_MAX ->
      palette_index iterationCount colorOffset maxIterations
        = (iterationCount + colorOffset) mod maxIterations).
Proof.
  intros Hn. split; [apply palette_index_range, Hn|].
  intros Hs. apply palette_index_mod; assumption.
Qed.

Lemma discrete_index_in_range_witness :
  1 <= 50 <= 2 ^ 30
  /\ 0 <= palette_index 7 (-100) 50 < 50
  /\ palette_index 7 (-100) 50 = (7 + -100) mod 50.
Proof.
  split; [lia|].
  destruct (discrete_index_in_range 7 (-100) 50 ltac:(lia)) as [Hr Hm].
  split; [exact Hr|]. apply Hm. unfold INT_MIN, INT_MAX. lia.
Defined.

(** Above [2^30] the inner sum overflows: with [maxIterations = 2^30 + 1],
    [iterationCount = 1] and [colorOffset = 2^30 - 1] the index is negative. *)
Lemma discrete_index_overflow :
  1 <= 1073741825
  /\ ~ (0 <= palette_index 1 1073741823 1073741825 < 1073741825).
Proof. split; [lia|]. vm_compute. intros [H _]. apply H. reflexivity. Qed.

(** ** Table indices *)

Lemma clamp_index_range index : 0 <= clamp_index index <= 65535.
Proof.
  unfold clamp_index, imax, imin.
  destruct (Z.ltb_spec 65535 index) as [Hhi|Hhi];
    [destruct (Z.ltb_spec 0 65535) | destruct (Z.ltb_spec 0 index)]; lia.
Qed.

Lemma read_is_Some {A} (a : list A) (i : Z) :
  0 <= i < Z.of_nat (length a) -> is_Some (read a i).
Proof.
  intros Hi. unfold read.
  destruct (Z.ltb_spec i 0); [lia|].
  apply lookup_lt_is_Some. lia.
Qed.

Lemma read_Some_bound {A} (a : list A) (i : Z) (v : A) :
  read a i = Some v -> 0 <= i < Z.of_nat (length a).
Proof.
  unfold read. destruct (Z.ltb_spec i 0) as [Hneg|Hpos]; [discriminate|].
  intros Hlook. apply lookup_lt_Some in Hlook. lia.
Qed.

Section Lookup.

Variable log2 : spec_float -> spec_float.
Variable cvt_invalid : spec_float -> Z.
Variable tables : Tables.
Hypothesis magnitude_size : Z.of_nat (length (logMagnitudeLookupTable tables)) = TABLE_SIZE.
Hypothesis loglog_size : Z.of_nat (length (logLogLookupTable tables)) = TABLE_SIZE.

Lemma smooth_nu_lookup magSq logMagnitudeScaleFactor logLogScaleFactor log2_2 :
  exists v w,
    read (logMagnitudeLookupTable tables)
      (magnitude_index cvt_invalid magSq logMagnitudeScaleFactor) = Some v
    /\ read (logLogLookupTable tables)
         (nu_index cvt_invalid (F64.div v (F64.of_Z 2)) logLogScaleFactor) = Some w
    /\ smooth_nu log2 cvt_invalid tables true magSq
         logMagnitudeScaleFactor logLogScaleFactor log2_2
       = Some (F64.div w log2_2).
Proof.
  unfold smooth_nu, magnitude_index, TABLE_SIZE in *.
  destruct (read_is_Some (logMagnitudeLookupTable tables)
              (clamp_index (static_cast_int cvt_invalid
                 (F64.mul (F64.sub magSq (F64.of_Z 4)) logMagnitudeScaleFactor))))
    as [v Hv].
  { pose proof (clamp_index_range (static_cast_int cvt_invalid
      (F64.mul (F64.sub magSq (F64.of_Z 4)) logMagnitudeScaleFactor))). lia. }
  destruct (read_is_Some (logLogLookupTable tables)
              (nu_index cvt_invalid (F64.div v (F64.of_Z 2)) logLogScaleFactor))
    as [w Hw].
  { unfold nu_index.
    pose proof (clamp_index_range (static_cast_int cvt_invalid
      (F64.mul (F64.sub (F64.div v (F64.of_Z 2)) (F64.of_Z 1)) logLogScaleFactor))). lia. }
  exists v, w. rewrite Hv. cbn [mbind option_bind]. rewrite Hw. auto.
Qed.

Lemma smooth_nu_total useLog2Lookup magSq logMagnitudeScaleFactor logLogScaleFactor log2_2 :
  is_Some (smooth_nu log2 cvt_invalid tables useLog2Lookup magSq
             logMagnitudeScaleFactor logLogScaleFactor log2_2).
Proof.
  destruct useLog2Lookup.
  - destruct (smooth_nu_lookup magSq logMagnitudeScaleFactor logLogScaleFactor log2_2)
      as (v & w & _ & _ & ->). eauto.
  - cbn. eauto.
Qed.

End Lookup.

(** C5: with [useLog2Lookup] both indices are clamped into [[0, 65535]]
    whatever [magSq], the scale factors and the conversion to [int] give, so
    both table reads are inside the tables. *)
Theorem lookup_indices_clamped
    log2 cvt_invalid tables magSq logZn logMagnitudeScaleFactor logLogScaleFactor log2_2 :
  Z.of_nat (length (logMagnitudeLookupTable tables)) = TABLE_SIZE ->
  Z.of_nat (length (logLogLookupTable tables)) = TABLE_SIZE ->
  0 <= magnitude_index cvt_invalid magSq logMagnitudeScaleFactor <= 65535
  /\ 0 <= nu_index cvt_invalid logZn logLogScaleFactor <= 65535
  /\ exists v w,
       read (logMagnitudeLookupTable tables)
         (magnitude_index cvt_invalid magSq logMagnitudeScaleFactor) = Some v
       /\ read (logLogLookupTable tables)
            (nu_index cvt_invalid (F64.div v (F64.of_Z 2)) logLogScaleFactor) = Some w
       /\ smooth_nu log2 cvt_invalid tables true magSq
            logMagnitudeScaleFactor logLogScaleFactor log2_2
          = Some (F64.div w log2_2).
Proof.
  intros Hm Hl. split; [apply clamp_index_range|].
  split; [apply clamp_index_range|].
  apply smooth_nu_lookup; assumption.
Qed.

(** At [magSq = 65536] the unclamped index is 134207488 and is clamped to
    65535; at [magSq = 1] it is -6143 and is clamped to 0. *)
Lemma lookup_indices_clamped_witness :
  Z.of_nat (length (logMagnitudeLookupTable tables_zero)) = TABLE_SIZE
  /\ Z.of_nat (length (logLogLookupTable tables_zero)) = TABLE_SIZE
  /\ static_cast_int cvt_invalid_arm
       (F64.mul (F64.sub (F64.of_Z 65536) (F64.of_Z 4))
          (F64.div (F64.of_Z 65535) (F64.of_Z 32))) = 134207488
  /\ magnitude_index cvt_invalid_arm (F64.of_Z 65536)
       (F64.div (F64.of_Z 65535) (F64.of_Z 32)) = 65535
  /\ magnitude_index cvt_invalid_arm (F64.of_Z 1)
       (F64.div (F64.of_Z 65535) (F64.of_Z 32)) = 0
  /\ 0 <= nu_index cvt_invalid_arm (F64.of_Z 3)
            (F64.div (F64.of_Z 65535) lit_1_585) <= 65535
  /\ is_Some (smooth_nu log2_ref cvt_invalid_arm tables_zero true (F64.of_Z 65536)
                (F64.div (F64.of_Z 65535) (F64.of_Z 32))
                (F64.div (F64.of_Z 65535) lit_1_585) (F64.of_Z 1)).
Proof.
  assert (Hm : Z.of_nat (length (logMagnitudeLookupTable tables_zero)) = TABLE_SIZE)
    by (vm_compute; reflexivity).
  assert (Hl : Z.of_nat (length (logLogLookupTable tables_zero)) = TABLE_SIZE)
    by (vm_compute; reflexivity).
  destruct (lookup_indices_clamped log2_ref cvt_invalid_arm tables_zero
              (F64.of_Z 65536) (F64.of_Z 3)
              (F64.div (F64.of_Z 65535) (F64.of_Z 32))
              (F64.div (F64.of_Z 65535) lit_1_585) (F64.of_Z 1) Hm Hl)
    as (_ & Hnu & v & w & _ & _ & Hs).
  split; [exact Hm|]. split; [exact Hl|].
  split; [vm_compute; reflexivity|].
  split; [vm_compute; reflexivity|].
  split; [vm_compute; reflexivity|].
  split; [exact Hnu|].
  rewrite Hs. eexists. reflexivity.
Defined.

(** ** initNative *)

Lemma read_write_eq {A} (a a' : list A) (i : Z) (v : A) :
  write a i v = Some a' -> read a' i = Some v.
Proof.
  unfold write, read.
  destruct (Z.leb_spec 0 i) as [Hi|Hi]; [|discriminate].
  destruct (Z.ltb_spec i (Z.of_nat (length a))) as [Hlt|Hge]; [|discriminate].
  cbn [andb]. intros [= <-].
  destruct (Z.ltb_spec i 0); [lia|].
  apply list_lookup_insert_eq. lia.
Qed.

Lemma read_write_ne {A} (a a' : list A) (i j : Z) (v : A) :
  write a i v = Some a' -> i <> j -> read a' j = read a j.
Proof.
  unfold write, read.
  destruct (Z.leb_spec 0 i) as [Hi|Hi]; [|discriminate].
  destruct (Z.ltb_spec i (Z.of_nat (length a))) as [Hlt|Hge]; [|discriminate].
  cbn [andb]. intros [= <-] Hne.
  destruct (Z.ltb_spec j 0); [reflexivity|].
  apply list_lookup_insert_ne. lia.
Qed.

Lemma write_length {A} (a a' : list A) (i : Z) (v : A) :
  write a i v = Some a' -> length a' = length a.
Proof.
  unfold write. destruct (_ && _); [|discriminate].
  intros [= <-]. apply length_insert.
Qed.

Lemma write_is_Some {A} (a : list A) (i : Z) (v : A) :
  0 <= i < Z.of_nat (length a) -> is_Some (write a i v).
Proof.
  intros Hi. unfold write.
  destruct (Z.leb_spec 0 i); [|lia].
  destruct (Z.ltb_spec i (Z.of_nat (length a))); [|lia].
  cbn [andb]. eauto.
Qed.

Section Fill.

Variable log2 : spec_float -> spec_float.
Variable input : Z -> spec_float.

(** The loop invariant of a fill loop: entries below [i] are final, and the
    pass at [i] writes [log2 (input i)] inside the table. *)
Lemma fill_loop_spec (fuel : nat) : forall i table,
  0 <= i -> 65536 - i <= Z.of_nat fuel ->
  Z.of_nat (length table) = TABLE_SIZE ->
  exists table',
    fill_loop log2 input fuel i table = Some table'
    /\ Z.of_nat (length table') = TABLE_SIZE
    /\ (forall j, i <= j < 65536 -> read table' j = Some (log2 (input j)))
    /\ (forall j, j < i -> read table' j = read table j).
Proof.
  unfold TABLE_SIZE.
  induction fuel as [|fuel IH]; intros i table Hi Hfuel Hlen.
  - cbn [fill_loop]. destruct (Z.ltb_spec i 65536); [lia|].
    exists table. repeat split; [exact Hlen | intros; lia].
  - cbn [fill_loop]. destruct (Z.ltb_spec i 65536) as [Hlt|Hge].
    + destruct (write_is_Some table i (log2 (input i))) as [table1 Hw]; [lia|].
      rewrite Hw. cbn [mbind option_bind].
      destruct (IH (i + 1) table1) as (table' & Hrun & Hlen' & Hnew & Hold);
        [lia | lia | rewrite (write_length _ _ _ _ Hw); exact Hlen |].
      exists table'. repeat split; [exact Hrun | exact Hlen' | |].
      * intros j Hj. destruct (Z.eq_dec i j) as [<-|Hne].
        -- rewrite Hold by lia. apply (read_write_eq _ _ _ _ Hw).
        -- apply Hnew. lia.
      * intros j Hj. rewrite Hold by lia.
        apply (read_write_ne _ _ _ _ _ Hw). lia.
    + exists table. repeat split; [exact Hlen | intros; lia].
Qed.

End Fill.

Lemma initNative_spec log2 (t : Tables) :
  Z.of_nat (length (logMagnitudeLookupTable t)) = TABLE_SIZE ->
  Z.of_nat (length (logLogLookupTable t)) = TABLE_SIZE ->
  exists t',
    initNative log2 t = Some t'
    /\ Z.of_nat (length (logMagnitudeLookupTable t')) = TABLE_SIZE
    /\ Z.of_nat (length (logLogLookupTable t')) = TABLE_SIZE
    /\ (forall i, 0 <= i <= 65535 ->
          read (logMagnitudeLookupTable t') i = Some (log2 (magnitude_input i))
          /\ read (logLogLookupTable t') i = Some (log2 (loglog_input i))).
Proof.
  intros Hm Hl. unfold initNative.
  assert (Hfuel : 65536 - 0 <= Z.of_nat (Z.to_nat TABLE_SIZE))
    by (rewrite Z2Nat.id; unfold TABLE_SIZE; lia).
  revert Hfuel. generalize (Z.to_nat TABLE_SIZE). intros fuel Hfuel.
  destruct (fill_loop_spec log2 magnitude_input fuel 0
              (logMagnitudeLookupTable t)) as (m & Hrunm & Hlenm & Hnewm & _);
    [lia | exact Hfuel | exact Hm |].
  destruct (fill_loop_spec log2 loglog_input fuel 0
              (logLogLookupTable t)) as (l & Hrunl & Hlenl & Hnewl & _);
    [lia | exact Hfuel | exact Hl |].
  rewrite Hrunm. cbn [mbind option_bind]. rewrite Hrunl. cbn [mbind option_bind].
  eexists. split; [reflexivity|]. cbn [logMagnitudeLookupTable logLogLookupTable].
  repeat split; try assumption; [apply Hnewm | apply Hnewl]; lia.
Qed.

Lemma magnitude_input_bounds :
  magnitude_input 0 = F64.of_Z 4 /\ magnitude_input 65535 = F64.of_Z 36.
Proof. split; vm_compute; reflexivity. Qed.

(** C4: after [initNative], entry [i] of the magnitude table is
    [log2(4.0 + (i/65535.0)·32.0)] and entry [i] of the log-log table is
    [log2(1.0 + (i/65535.0)·1.585)] for every [i] in [[0, 65535]]; entry 0 of
    the magnitude table is [log2(4.0)] and entry 65535 is [log2(36.0)]. *)
Theorem tables_after_initNative log2 (t : Tables) :
  Z.of_nat (length (logMagnitudeLookupTable t)) = TABLE_SIZE ->
  Z.of_nat (length (logLogLookupTable t)) = TABLE_SIZE ->
  exists t',
    initNative log2 t = Some t'
    /\ (forall i, 0 <= i <= 65535 ->
          read (logMagnitudeLookupTable t') i
            = Some (log2 (F64.add (F64.of_Z 4)
                            (F64.mul (F64.div (F64.of_Z i) (F64.of_Z 65535)) (F64.of_Z 32))))
          /\ read (logLogLookupTable t') i
               = Some (log2 (F64.add (F64.of_Z 1)
                               (F64.mul (F64.div (F64.of_Z i) (F64.of_Z 65535)) lit_1_585))))
    /\ read (logMagnitudeLookupTable t') 0 = Some (log2 (F64.of_Z 4))
    /\ read (logMagnitudeLookupTable t') 65535 = Some (log2 (F64.of_Z 36)).
Proof.
  intros Hm Hl.
  destruct (initNative_spec log2 t Hm Hl) as (t' & Hinit & _ & _ & Hentries).
  exists t'. split; [exact Hinit|]. split; [exact Hentries|].
  destruct magnitude_input_bounds as [H0 H1].
  split.
  - rewrite <- H0. apply Hentries. lia.
  - rewrite <- H1. apply Hentries. lia.
Qed.

Lemma tables_after_initNative_witness :
  Z.of_nat (length (logMagnitudeLookupTable tables_zero)) = TABLE_SIZE
  /\ Z.of_nat (length (logLogLookupTable tables_zero)) = TABLE_SIZE
  /\ exists t',
       initNative log2_ref tables_zero = Some t'
       /\ read (logMagnitudeLookupTable t') 0 = Some (F64.of_Z 2)
       /\ read (logLogLookupTable t') 0 = Some (F64.of_Z 0).
Proof.
  assert (Hm : Z.of_nat (length (logMagnitudeLookupTable tables_zero)) = TABLE_SIZE)
    by (vm_compute; reflexivity).
  assert (Hl : Z.of_nat (length (logLogLookupTable tables_zero)) = TABLE_SIZE)
    by (vm_compute; reflexivity).
  split; [exact Hm|]. split; [exact Hl|].
  destruct (tables_after_initNative log2_ref tables_zero Hm Hl)
    as (t' & Hinit & Hentries & H0 & _).
  exists t'. split; [exact Hinit|]. split.
  - rewrite H0. vm_compute. reflexivity.
  - destruct (Hentries 0 ltac:(lia)) as [_ ->]. vm_compute. reflexivity.
Defined.

(** ** mandelbrotRenderBlock *)

Section Palette.

Variable cvt_invalid : spec_float -> Z.
Variable maxIterations : Z.
Variable colorPalette : list Z.
Hypothesis iterations_range : 1 <= maxIterations <= 2 ^ 30.
Hypothesis palette_size : Z.of_nat (length colorPalette) = maxIterations + 1.

Lemma palette_read_wrapped k colorOffset :
  is_Some (read colorPalette (palette_index k colorOffset maxIterations)).
Proof.
  apply read_is_Some.
  pose proof (palette_index_range k colorOffset maxIterations iterations_range). lia.
Qed.

Lemma smooth_color_total colorOffset i nu :
  is_Some (smooth_color cvt_invalid colorPalette maxIterations colorOffset i nu).
Proof.
  unfold smooth_color.
  destruct (palette_read_wrapped
              (static_cast_int cvt_invalid (continuous_index i nu)) colorOffset)
    as [color1 ->].
  destruct (palette_read_wrapped
              (add32 (static_cast_int cvt_invalid (continuous_index i nu)) 1) colorOffset)
    as [color2 ->].
  cbn [mbind option_bind]. eauto.
Qed.

End Palette.

Section Total.

Variable log2 : spec_float -> spec_float.
Variable cvt_invalid : spec_float -> Z.
Variable tables : Tables.
Variable maxIterations : Z.
Variable colorPalette : list Z.
Hypothesis magnitude_size : Z.of_nat (length (logMagnitudeLookupTable tables)) = TABLE_SIZE.
Hypothesis loglog_size : Z.of_nat (length (logLogLookupTable tables)) = TABLE_SIZE.
Hypothesis iterations_range : 1 <= maxIterations <= 2 ^ 30.
Hypothesis palette_size : Z.of_nat (length colorPalette) = maxIterations + 1.

(** Under the size contracts of the render entry point, no read made for a
    pixel leaves its array. *)
Lemma calculate_pixel_color_total x y transform escapeRadiusSquared colorOffset
    smoothColors useLog2Lookup logMagnitudeScaleFactor logLogScaleFactor log2_2 :
  is_Some (calculate_pixel_color log2 cvt_invalid tables x y transform maxIterations
             escapeRadiusSquared colorPalette colorOffset smoothColors useLog2Lookup
             logMagnitudeScaleFactor logLogScaleFactor log2_2).
Proof.
  unfold calculate_pixel_color.
  destruct evaluate_pixel as [[z_re z_im] i]. unfold resolve_color.
  destruct (Z.eqb_spec i maxIterations) as [->|Hne].
  - apply read_is_Some. lia.
  - destruct smoothColors.
    + destruct (smooth_nu_total log2 cvt_invalid tables magnitude_size loglog_size
                  useLog2Lookup
                  (F64.add (F64.mul z_re z_re) (F64.mul z_im z_im))
                  logMagnitudeScaleFactor logLogScaleFactor log2_2) as [nu ->].
      cbn [mbind option_bind]. apply smooth_color_total; assumption.
    + apply palette_read_wrapped; assumption.
Qed.

End Total.

Section BlockLoops.

Variable log2 : spec_float -> spec_float.
Variable cvt_invalid : spec_float -> Z.
Variable tables : Tables.
Variables currentBlockHeight currentBlockWidth blockX blockY : Z.
Variable transform : AffineTransform.
Variable maxIterations : Z.
Variable escapeRadiusSquared : spec_float.
Variable colorPalette : list Z.
Variable colorOffset : Z.
Variables smoothColors useLog2Lookup : bool.
Variables logMagnitudeScaleFactor logLogScaleFactor log2_2 : spec_float.
Variable isPixelSet : option (list bool).

Hypothesis width_nonneg : 0 <= currentBlockWidth.
Hypothesis block_fits : currentBlockWidth * currentBlockHeight <= INT_MAX.

(** The colour the call computes for the pixel [(x, y)] of the block. *)
Let color_at (x y : Z) : option Z :=
  calculate_pixel_color log2 cvt_invalid tables (add32 blockX x) (add32 blockY y)
    transform maxIterations escapeRadiusSquared colorPalette colorOffset
    smoothColors useLog2Lookup logMagnitudeScaleFactor logLogScaleFactor log2_2.

(** Whether the mask marks the entry [index] as already set. *)
Let is_set (index : Z) : option bool :=
  match isPixelSet with
  | None => Some false
  | Some mask => read mask index
  end.

(** What one call leaves at [(x, y)], given the buffer [before] it. *)
Let pixel_done (before after : list Z) (x y : Z) : Prop :=
  (is_set (y * currentBlockWidth + x) = Some true ->
     read after (y * currentBlockWidth + x) = read before (y * currentBlockWidth + x))
  /\ (is_set (y * currentBlockWidth + x) = Some false ->
        read after (y * currentBlockWidth + x) = color_at x y).

Let render_pixel' := render_pixel log2 cvt_invalid tables currentBlockWidth blockX blockY
  transform maxIterations escapeRadiusSquared colorPalette colorOffset
  smoothColors useLog2Lookup logMagnitudeScaleFactor logLogScaleFactor log2_2 isPixelSet.

Let row_loop' := row_loop log2 cvt_invalid tables currentBlockWidth blockX blockY
  transform maxIterations escapeRadiusSquared colorPalette colorOffset
  smoothColors useLog2Lookup logMagnitudeScaleFactor logLogScaleFactor log2_2 isPixelSet.

Let block_loop' := block_loop log2 cvt_invalid tables currentBlockHeight currentBlockWidth
  blockX blockY transform maxIterations escapeRadiusSquared colorPalette colorOffset
  smoothColors useLog2Lookup logMagnitudeScaleFactor logLogScaleFactor log2_2 isPixelSet.

Lemma pixel_index_fits x y :
  0 <= x < currentBlockWidth -> 0 <= y < currentBlockHeight ->
  add32 (mul32 y currentBlockWidth) x = y * currentBlockWidth + x
  /\ 0 <= y * currentBlockWidth + x < currentBlockWidth * currentBlockHeight.
Proof.
  intros Hx Hy.
  assert (Hrow : 0 <= y * currentBlockWidth <= (currentBlockHeight - 1) * currentBlockWidth)
    by nia.
  assert (Hidx : 0 <= y * currentBlockWidth + x < currentBlockWidth * currentBlockHeight)
    by nia.
  assert (Hmax : INT_MAX = 2147483647) by reflexivity.
  assert (Hmin : INT_MIN = -2147483648) by reflexivity.
  split; [|exact Hidx].
  unfold add32, mul32. rewrite (wrap32_id (y * currentBlockWidth)) by lia.
  apply wrap32_id. lia.
Qed.

(** One pass of the inner loop body, when it stays inside its arrays. *)
Lemma render_pixel_post x y (colorArray colorArray' : list Z) :
  0 <= x < currentBlockWidth -> 0 <= y < currentBlockHeight ->
  render_pixel' x y colorArray = Some colorArray' ->
  length colorArray' = length colorArray
  /\ (forall j, j <> y * currentBlockWidth + x -> read colorArray' j = read colorArray j)
  /\ pixel_done colorArray colorArray' x y.
Proof.
  intros Hx Hy.
  destruct (pixel_index_fits x y Hx Hy) as [Hindex _].
  unfold render_pixel', render_pixel, pixel_done. rewrite Hindex.
  fold (is_set (y * currentBlockWidth + x)). fold (color_at x y).
  destruct (is_set (y * currentBlockWidth + x)) as [[|]|]; cbn [mbind option_bind];
    [| |discriminate].
  - intros [= <-]. repeat split; try reflexivity. intros [=].
  - destruct (color_at x y) as [color|]; cbn [mbind option_bind]; [|discriminate].
    intros Hw. split; [apply (write_length _ _ _ _ Hw)|].
    split; [intros j Hj; apply (read_write_ne _ _ _ _ _ Hw); lia|].
    split; [intros [=]|]. intros _. apply (read_write_eq _ _ _ _ Hw).
Qed.

(** The inner loop from column [x] on: it finishes the columns [x ..] of row
    [y] and touches no other entry. *)
Lemma row_loop_post y (fuel : nat) : forall x (colorArray colorArray' : list Z),
  0 <= y < currentBlockHeight -> 0 <= x ->
  row_loop' fuel y x colorArray = Some colorArray' ->
  length colorArray' = length colorArray
  /\ (forall j, ~ (y * currentBlockWidth + x <= j < y * currentBlockWidth + currentBlockWidth) ->
        read colorArray' j = read colorArray j)
  /\ (forall x', x <= x' < currentBlockWidth -> pixel_done colorArray colorArray' x' y).
Proof.
  induction fuel as [|fuel IH]; intros x colorArray colorArray' Hy Hx;
    unfold row_loop'; cbn [row_loop];
    (destruct (Z.ltb_spec x currentBlockWidth) as [Hlt|Hge];
      [|intros [= <-]; repeat split; intros; lia]).
  - discriminate.
  - fold render_pixel'.
    destruct (render_pixel' x y colorArray) as [a1|] eqn:Hpix;
      cbn [mbind option_bind]; [|discriminate].
    destruct (render_pixel_post x y colorArray a1 ltac:(lia) Hy Hpix)
      as (Hlen1 & Hother1 & Hdone1).
    fold row_loop'. intros Hrun.
    destruct (IH (x + 1) a1 colorArray' Hy ltac:(lia) Hrun) as (Hlen2 & Hother2 & Hdone2).
    split; [congruence|]. split.
    + intros j Hj. rewrite Hother2 by lia. apply Hother1. lia.
    + intros x' Hx'. destruct (Z.eq_dec x' x) as [->|Hne].
      * destruct Hdone1 as [Hs Hc]. unfold pixel_done.
        rewrite Hother2 by lia. split; assumption.
      * destruct (Hdone2 x' ltac:(lia)) as [Hs Hc]. unfold pixel_done.
        split; [|exact Hc]. intros Hset. rewrite (Hs Hset). apply Hother1. lia.
Qed.

(** The outer loop from row [y] on. *)
Lemma block_loop_post (fuel : nat) : forall y (colorArray colorArray' : list Z),
  0 <= y ->
  block_loop' fuel y colorArray = Some colorArray' ->
  length colorArray' = length colorArray
  /\ (forall j, j < y * currentBlockWidth -> read colorArray' j = read colorArray j)
  /\ (forall x' y', 0 <= x' < currentBlockWidth -> y <= y' < currentBlockHeight ->
        pixel_done colorArray colorArray' x' y').
Proof.
  induction fuel as [|fuel IH]; intros y colorArray colorArray' Hy;
    unfold block_loop'; cbn [block_loop];
    (destruct (Z.ltb_spec y currentBlockHeight) as [Hlt|Hge];
      [|intros [= <-]; repeat split; intros; lia]).
  - discriminate.
  - fold row_loop'.
    destruct (row_loop' (Z.to_nat currentBlockWidth) y 0 colorArray) as [a1|] eqn:Hrow;
      cbn [mbind option_bind]; [|discriminate].
    destruct (row_loop_post y _ 0 colorArray a1 ltac:(lia) ltac:(lia) Hrow)
      as (Hlen1 & Hother1 & Hdone1).
    fold block_loop'. intros Hrun.
    destruct (IH (y + 1) a1 colorArray' ltac:(lia) Hrun) as (Hlen2 & Hother2 & Hdone2).
    split; [congruence|]. split.
    + intros j Hj. rewrite Hother2 by lia. apply Hother1. lia.
    + intros x' y' Hx' Hy'. destruct (Z.eq_dec y' y) as [->|Hne].
      * destruct (Hdone1 x' ltac:(lia)) as [Hs Hc]. unfold pixel_done.
        rewrite Hother2 by nia. split; assumption.
      * destruct (Hdone2 x' y' Hx' ltac:(lia)) as [Hs Hc]. unfold pixel_done.
        split; [|exact Hc]. intros Hset. rewrite (Hs Hset). apply Hother1. nia.
Qed.

(** Whenever the render call completes, every masked entry of the result is
    the old one and every other entry is the colour computed for that pixel. *)
Lemma mandelbrotRenderBlock_post (colorArray colorArray' : list Z) :
  mandelbrotRenderBlock log2 cvt_invalid tables currentBlockHeight currentBlockWidth
    blockX blockY transform maxIterations escapeRadiusSquared colorPalette colorOffset
    smoothColors useLog2Lookup logMagnitudeScaleFactor logLogScaleFactor log2_2
    isPixelSet colorArray = Some colorArray' ->
  length colorArray' = length colorArray
  /\ forall x y, 0 <= x < currentBlockWidth -> 0 <= y < currentBlockHeight ->
       (is_set (y * currentBlockWidth + x) = Some true ->
          read colorArray' (y * currentBlockWidth + x)
            = read colorArray (y * currentBlockWidth + x))
       /\ (is_set (y * currentBlockWidth + x) = Some false ->
             read colorArray' (y * currentBlockWidth + x) = color_at x y).
Proof.
  unfold mandelbrotRenderBlock. intros Hrun.
  destruct (block_loop_post _ 0 colorArray colorArray' ltac:(lia) Hrun)
    as (Hlen & _ & Hdone).
  split; [exact Hlen|]. intros x y Hx Hy. apply (Hdone x y Hx). lia.
Qed.

Section Defined.

Hypothesis magnitude_size : Z.of_nat (length (logMagnitudeLookupTable tables)) = TABLE_SIZE.
Hypothesis loglog_size : Z.of_nat (length (logLogLookupTable tables)) = TABLE_SIZE.
Hypothesis iterations_range : 1 <= maxIterations <= 2 ^ 30.
Hypothesis palette_size : Z.of_nat (length colorPalette) = maxIterations + 1.
Hypothesis mask_size : forall mask, isPixelSet = Some mask ->
  Z.of_nat (length mask) = currentBlockWidth * currentBlockHeight.

Lemma render_pixel_defined x y (colorArray : list Z) :
  0 <= x < currentBlockWidth -> 0 <= y < currentBlockHeight ->
  Z.of_nat (length colorArray) = currentBlockWidth * currentBlockHeight ->
  is_Some (render_pixel' x y colorArray).
Proof.
  intros Hx Hy Hlen.
  destruct (pixel_index_fits x y Hx Hy) as [Hindex Hrange].
  unfold render_pixel', render_pixel. rewrite Hindex.
  assert (Hset : is_Some (is_set (y * currentBlockWidth + x))).
  { unfold is_set. destruct isPixelSet as [mask|] eqn:Hmask; [|eauto].
    apply read_is_Some. rewrite (mask_size mask eq_refl). exact Hrange. }
  destruct Hset as [set Hset]. fold (is_set (y * currentBlockWidth + x)).
  rewrite Hset. cbn [mbind option_bind]. destruct set; [eauto|].
  destruct (calculate_pixel_color_total log2 cvt_invalid tables maxIterations
              colorPalette magnitude_size loglog_size iterations_range palette_size
              (add32 blockX x) (add32 blockY y) transform escapeRadiusSquared
              colorOffset smoothColors useLog2Lookup
              logMagnitudeScaleFactor logLogScaleFactor log2_2) as [color ->].
  cbn [mbind option_bind]. apply write_is_Some. lia.
Qed.

Lemma row_loop_defined y (fuel : nat) : forall x (colorArray : list Z),
  0 <= y < currentBlockHeight -> 0 <= x ->
  currentBlockWidth - x <= Z.of_nat fuel ->
  Z.of_nat (length colorArray) = currentBlockWidth * currentBlockHeight ->
  is_Some (row_loop' fuel y x colorArray).
Proof.
  induction fuel as [|fuel IH]; intros x colorArray Hy Hx Hfuel Hlen;
    unfold row_loop'; cbn [row_loop];
    (destruct (Z.ltb_spec x currentBlockWidth) as [Hlt|Hge]; [|eauto]).
  - lia.
  - fold render_pixel'.
    destruct (render_pixel_defined x y colorArray ltac:(lia) Hy Hlen) as [a1 Hpix].
    rewrite Hpix. cbn [mbind option_bind]. fold row_loop'.
    apply IH; [exact Hy | lia | lia |].
    destruct (render_pixel_post x y colorArray a1 ltac:(lia) Hy Hpix) as (-> & _).
    exact Hlen.
Qed.

Lemma block_loop_defined (fuel : nat) : forall y (colorArray : list Z),
  0 <= y -> currentBlockHeight - y <= Z.of_nat fuel ->
  Z.of_nat (length colorArray) = currentBlockWidth * currentBlockHeight ->
  is_Some (block_loop' fuel y colorArray).
Proof.
  induction fuel as [|fuel IH]; intros y colorArray Hy Hfuel Hlen;
    unfold block_loop'; cbn [block_loop];
    (destruct (Z.ltb_spec y currentBlockHeight) as [Hlt|Hge]; [|eauto]).
  - lia.
  - fold row_loop'.
    destruct (row_loop_defined y (Z.to_nat currentBlockWidth) 0 colorArray)
      as [a1 Hrow]; [lia | lia | lia | exact Hlen |].
    rewrite Hrow. cbn [mbind option_bind]. fold block_loop'.
    apply IH; [lia | lia |].
    destruct (row_loop_post y _ 0 colorArray a1 ltac:(lia) ltac:(lia) Hrow) as (-> & _).
    exact Hlen.
Qed.

(** Under the size contracts of the entry point the call completes. *)
Lemma mandelbrotRenderBlock_defined (colorArray : list Z) :
  0 <= currentBlockHeight ->
  Z.of_nat (length colorArray) = currentBlockWidth * currentBlockHeight ->
  is_Some (mandelbrotRenderBlock log2 cvt_invalid tables currentBlockHeight
             currentBlockWidth blockX blockY transform maxIterations
             escapeRadiusSquared colorPalette colorOffset smoothColors useLog2Lookup
             logMagnitudeScaleFactor logLogScaleFactor log2_2 isPixelSet colorArray).
Proof.
  intros Hh Hlen. unfold mandelbrotRenderBlock.
  apply block_loop_defined; [lia | lia | exact Hlen].
Qed.

End Defined.

End BlockLoops.

(** C6: whenever a render call on a block of at most [INT_MAX] pixels
    completes, the output entry [y·currentBlockWidth + x] of every pixel the
    mask marks as set is unchanged, and the entry of every other pixel (mask
    entry false, or no mask at all) holds the colour computed for the absolute
    coordinates [(blockX + x, blockY + y)]; and the call does complete when the
    buffers have [currentBlockWidth·currentBlockHeight] entries, the palette
    has [maxIterations + 1] and [1 <= maxIterations <= 2^30]. *)
Theorem skip_mask_honored
    log2 cvt_invalid tables currentBlockHeight currentBlockWidth blockX blockY
    transform maxIterations escapeRadiusSquared colorPalette colorOffset
    smoothColors useLog2Lookup logMagnitudeScaleFactor logLogScaleFactor log2_2
    (isPixelSet : option (list bool)) (colorArray : list Z) :
  0 <= currentBlockWidth ->
  currentBlockWidth * currentBlockHeight <= INT_MAX ->
  INT_MIN <= blockX -> blockX + currentBlockWidth <= INT_MAX ->
  INT_MIN <= blockY -> blockY + currentBlockHeight <= INT_MAX ->
  (forall colorArray',
     mandelbrotRenderBlock log2 cvt_invalid tables currentBlockHeight currentBlockWidth
       blockX blockY transform maxIterations escapeRadiusSquared colorPalette colorOffset
       smoothColors useLog2Lookup logMagnitudeScaleFactor logLogScaleFactor log2_2
       isPixelSet colorArray = Some colorArray' ->
     length colorArray' = length colorArray
     /\ forall x y, 0 <= x < currentBlockWidth -> 0 <= y < currentBlockHeight ->
          (forall mask, isPixelSet = Some mask ->
             read mask (y * currentBlockWidth + x) = Some true ->
             read colorArray' (y * currentBlockWidth + x)
               = read colorArray (y * currentBlockWidth + x))
          /\ ((isPixelSet = None
               \/ exists mask, isPixelSet = Some mask
                    /\ read mask (y * currentBlockWidth + x) = Some false) ->
              read colorArray' (y * currentBlockWidth + x)
                = calculate_pixel_color log2 cvt_invalid tables (blockX + x) (blockY + y)
                    transform maxIterations escapeRadiusSquared colorPalette colorOffset
                    smoothColors useLog2Lookup
                    logMagnitudeScaleFactor logLogScaleFactor log2_2))
  /\ (0 <= currentBlockHeight ->
      Z.of_nat (length colorArray) = currentBlockWidth * currentBlockHeight ->
      (forall mask, isPixelSet = Some mask ->
         Z.of_nat (length mask) = currentBlockWidth * currentBlockHeight) ->
      Z.of_nat (length (logMagnitudeLookupTable tables)) = TABLE_SIZE ->
      Z.of_nat (length (logLogLookupTable tables)) = TABLE_SIZE ->
      1 <= maxIterations <= 2 ^ 30 ->
      Z.of_nat (length colorPalette) = maxIterations + 1 ->
      is_Some
        (mandelbrotRenderBlock log2 cvt_invalid tables currentBlockHeight
           currentBlockWidth blockX blockY transform maxIterations escapeRadiusSquared
           colorPalette colorOffset smoothColors useLog2Lookup
           logMagnitudeScaleFactor logLogScaleFactor log2_2 isPixelSet colorArray)).
Proof.
  intros Hw Hfit Hx0 Hx1 Hy0 Hy1. split.
  - intros a Hrun.
    destruct (mandelbrotRenderBlock_post log2 cvt_invalid tables currentBlockHeight
                currentBlockWidth blockX blockY transform maxIterations
                escapeRadiusSquared colorPalette colorOffset smoothColors useLog2Lookup
                logMagnitudeScaleFactor logLogScaleFactor log2_2 isPixelSet
                Hw Hfit colorArray a Hrun) as (Hlen & Hdone).
    split; [exact Hlen|].
    intros x y Hx Hy. destruct (Hdone x y Hx Hy) as [Hset Hclear]. split.
    + intros mask ->. exact Hset.
    + intros Hfree.
      rewrite <- (wrap32_id (blockX + x)) by lia.
      rewrite <- (wrap32_id (blockY + y)) by lia.
      apply Hclear. destruct Hfree as [-> | (mask & -> & Hread)]; [reflexivity | exact Hread].
  - intros Hh Hlen Hmask Hm Hl Hmax Hpal.
    apply (mandelbrotRenderBlock_defined log2 cvt_invalid tables currentBlockHeight
             currentBlockWidth blockX blockY transform maxIterations
             escapeRadiusSquared colorPalette colorOffset smoothColors useLog2Lookup
             logMagnitudeScaleFactor logLogScaleFactor log2_2 isPixelSet
             Hw Hfit Hm Hl Hmax Hpal Hmask colorArray Hh Hlen).
Qed.

Lemma skip_mask_honored_witness :
  exists colorArray',
    mandelbrotRenderBlock log2_ref cvt_invalid_arm tables_zero 2 3 10 20
      (constant_transform (F64.of_Z 2) (F64.of_Z 0)) 50 (F64.of_Z 4)
      (grey_palette 50) 0 false false (F64.of_Z 1) (F64.of_Z 1) (F64.of_Z 1)
      (Some [true; false; false; false; true; false]) [7; 7; 7; 7; 7; 7]
    = Some colorArray'
    /\ read colorArray' 0 = Some 7
    /\ read colorArray' 4 = Some 7
    /\ read colorArray' 5
       = calculate_pixel_color log2_ref cvt_invalid_arm tables_zero 12 21
           (constant_transform (F64.of_Z 2) (F64.of_Z 0)) 50 (F64.of_Z 4)
           (grey_palette 50) 0 false false (F64.of_Z 1) (F64.of_Z 1) (F64.of_Z 1).
Proof.
  destruct (skip_mask_honored log2_ref cvt_invalid_arm tables_zero 2 3 10 20
              (constant_transform (F64.of_Z 2) (F64.of_Z 0)) 50 (F64.of_Z 4)
              (grey_palette 50) 0 false false (F64.of_Z 1) (F64.of_Z 1) (F64.of_Z 1)
              (Some [true; false; false; false; true; false]) [7; 7; 7; 7; 7; 7])
    as [Hpost Hdef].
  - lia.
  - unfold INT_MAX. lia.
  - unfold INT_MIN. lia.
  - unfold INT_MAX. lia.
  - unfold INT_MIN. lia.
  - unfold INT_MAX. lia.
  - destruct Hdef as [a Hrun].
    + lia.
    + reflexivity.
    + intros mask [= <-]. reflexivity.
    + vm_compute. reflexivity.
    + vm_compute. reflexivity.
    + lia.
    + vm_compute. reflexivity.
    + exists a. split; [exact Hrun|].
      destruct (Hpost a Hrun) as [_ Hpix].
      destruct (Hpix 0 0 ltac:(lia) ltac:(lia)) as [H00 _].
      destruct (Hpix 1 1 ltac:(lia) ltac:(lia)) as [H11 _].
      destruct (Hpix 2 1 ltac:(lia) ltac:(lia)) as [_ H21].
      split; [apply (H00 _ eq_refl); reflexivity|].
      split; [apply (H11 _ eq_refl); reflexivity|].
      apply H21. right. eexists. split; reflexivity.
Defined.

(** ** The point [c = 2] *)

Lemma palette_index_two maxIterations :
  3 <= maxIterations <= 2147483645 ->
  palette_index 2 0 maxIterations = 2 /\ 2 mod maxIterations = 2.
Proof.
  intros Hmax. split; [|apply Z.mod_small; lia].
  unfold palette_index, rem32, add32.
  rewrite (wrap32_id (2 + 0)) by (unfold INT_MIN, INT_MAX; lia).
  rewrite (Z.rem_small (2 + 0)) by lia.
  rewrite wrap32_id by (unfold INT_MIN, INT_MAX; lia).
  rewrite Z.rem_mod_nonneg by lia.
  replace (2 + 0 + maxIterations) with (2 + 1 * maxIterations) by lia.
  rewrite Z.mod_add by lia. apply Z.mod_small. lia.
Qed.

(** C7, as the code has it: at [c = 2 + 0i] with [escapeRadiusSquared = 4.0]
    the test after the first step sees [|z|² = 4], which does not exceed 4, so
    the loop makes a second step to [z = 6]. For [maxIterations >= 3] the
    pixel escapes with count 2 and its discrete colour with [colorOffset = 0]
    is [palette[2 mod maxIterations]]; for [maxIterations] 1 or 2 the loop
    runs out first and the pixel gets the interior colour. *)
Theorem two_escapes_with_count_two
    log2 cvt_invalid tables x y transform maxIterations colorPalette useLog2Lookup
    logMagnitudeScaleFactor logLogScaleFactor log2_2 (s : bool) :
  pixel_c transform x y = (F64.of_Z 2, S754_zero s) ->
  1 <= maxIterations <= 2147483645 ->
  exceeds (F64.of_Z 4) (orbit (pixel_c transform x y) 1) = false
  /\ (3 <= maxIterations ->
      evaluate_pixel x y transform maxIterations (F64.of_Z 4)
        = (F64.of_Z 6, S754_zero false, 2)
      /\ calculate_pixel_color log2 cvt_invalid tables x y transform maxIterations
           (F64.of_Z 4) colorPalette 0 false useLog2Lookup
           logMagnitudeScaleFactor logLogScaleFactor log2_2
         = read colorPalette (2 mod maxIterations))
  /\ (maxIterations <= 2 ->
      snd (evaluate_pixel x y transform maxIterations (F64.of_Z 4)) = maxIterations
      /\ calculate_pixel_color log2 cvt_invalid tables x y transform maxIterations
           (F64.of_Z 4) colorPalette 0 false useLog2Lookup
           logMagnitudeScaleFactor logLogScaleFactor log2_2
         = read colorPalette maxIterations).
Proof.
  intros Hc Hmax.
  assert (Hstay : forall k, (k < 2)%nat ->
            exceeds (F64.of_Z 4) (orbit (pixel_c transform x y) k) = false).
  { intros k Hk. rewrite Hc. destruct k as [|[|k]]; [destruct s; reflexivity | | lia].
    destruct (orbit_two s) as [-> _]. reflexivity. }
  split; [apply Hstay; lia|]. split.
  - intros H3.
    pose proof (count_at_two x y transform maxIterations s Hc H3) as Hcount.
    split; [exact Hcount|].
    unfold calculate_pixel_color. rewrite Hcount. unfold resolve_color.
    destruct (Z.eqb_spec 2 maxIterations) as [Heq|_]; [lia|].
    destruct (palette_index_two maxIterations ltac:(lia)) as [-> ->]. reflexivity.
  - intros H2.
    assert (Hcount : snd (evaluate_pixel x y transform maxIterations (F64.of_Z 4))
                     = maxIterations).
    { rewrite (evaluate_pixel_count x y transform maxIterations (F64.of_Z 4)
                 (Z.to_nat maxIterations)).
      - cbn [snd]. lia.
      - lia.
      - intros k Hk. apply Hstay. lia.
      - lia. }
    split; [exact Hcount | apply interior_color, Hcount].
Qed.

Lemma two_escapes_with_count_two_witness :
  evaluate_pixel 0 0 (constant_transform (F64.of_Z 2) (F64.of_Z 0)) 50 (F64.of_Z 4)
    = (F64.of_Z 6, S754_zero false, 2)
  /\ calculate_pixel_color log2_ref cvt_invalid_arm tables_zero 0 0
       (constant_transform (F64.of_Z 2) (F64.of_Z 0)) 50 (F64.of_Z 4)
       (grey_palette 50) 0 false false (F64.of_Z 1) (F64.of_Z 1) (F64.of_Z 1)
     = read (grey_palette 50) (2 mod 50).
Proof.
  destruct (two_escapes_with_count_two log2_ref cvt_invalid_arm tables_zero 0 0
              (constant_transform (F64.of_Z 2) (F64.of_Z 0)) 50 (grey_palette 50) false
              (F64.of_Z 1) (F64.of_Z 1) (F64.of_Z 1) false)
    as (_ & Hescape & _).
  - vm_compute. reflexivity.
  - lia.
  - apply Hescape. lia.
Defined.

(** At [c = 2 + 0i], [maxIterations = 50]: the count is not 1 and the colour
    is not [palette[1 mod 50]]. *)
Lemma two_does_not_escape_on_iteration_one :
  snd (evaluate_pixel 0 0 (constant_transform (F64.of_Z 2) (F64.of_Z 0)) 50 (F64.of_Z 4))
    <> 1
  /\ calculate_pixel_color log2_ref cvt_invalid_arm tables_zero 0 0
       (constant_transform (F64.of_Z 2) (F64.of_Z 0)) 50 (F64.of_Z 4)
       (grey_palette 50) 0 false false (F64.of_Z 1) (F64.of_Z 1) (F64.of_Z 1)
     <> read (grey_palette 50) (1 mod 50).
Proof. split; vm_compute; discriminate. Qed.

(** ** Packed colours *)

Lemma testbit_small v k n : 0 <= v < 2 ^ k -> 0 <= k <= n -> Z.testbit v n = false.
Proof.
  intros Hv Hk. destruct (Z.eq_dec v 0) as [->|Hne]; [apply Z.testbit_0_l|].
  apply Z.bits_above_log2; [lia|].
  assert (Z.log2 v < k) by (apply Z.log2_lt_pow2; lia). lia.
Qed.

Lemma shl32_byte v k : 0 <= v <= 255 -> 0 <= k <= 16 -> shl32 v k = v * 2 ^ k.
Proof.
  intros Hv Hk. unfold shl32. rewrite Z.shiftl_mul_pow2 by lia.
  apply wrap32_id. unfold INT_MIN, INT_MAX.
  assert (2 ^ k <= 2 ^ 16) by (apply Z.pow_le_mono_r; lia).
  assert (0 < 2 ^ k) by (apply Z.pow_pos_nonneg; lia).
  change (2 ^ 16) with 65536 in *. nia.
Qed.

(** The bits of [Colors.rgb r g b] for channel values in [[0, 255]]. *)
Lemma rgb_testbit r g b n :
  0 <= r <= 255 -> 0 <= g <= 255 -> 0 <= b <= 255 -> 0 <= n ->
  Z.testbit (Colors.rgb r g b) n =
    if n <? 8 then Z.testbit b n
    else if n <? 16 then Z.testbit g (n - 8)
    else if n <? 24 then Z.testbit r (n - 16)
    else true.
Proof.
  intros Hr Hg Hb Hn. unfold Colors.rgb.
  rewrite (shl32_byte r 16), (shl32_byte g 8) by lia.
  change (shl32 255 24) with (- 2 ^ 24).
  rewrite !Z.lor_spec.
  rewrite <- (Z.shiftl_mul_pow2 r 16), <- (Z.shiftl_mul_pow2 g 8) by lia.
  replace (- 2 ^ 24) with (Z.shiftl (-1) 24) by reflexivity.
  destruct (Z.ltb_spec n 8) as [H8|H8];
    [|destruct (Z.ltb_spec n 16) as [H16|H16];
      [|destruct (Z.ltb_spec n 24) as [H24|H24]]].
  - rewrite !Z.shiftl_spec_low by lia. reflexivity.
  - rewrite (Z.shiftl_spec_low (-1)), (Z.shiftl_spec_low r) by lia.
    rewrite Z.shiftl_spec by lia.
    rewrite (testbit_small b 8 n) by lia. cbn [orb]. apply orb_false_r.
  - rewrite (Z.shiftl_spec_low (-1)) by lia.
    rewrite !Z.shiftl_spec by lia.
    rewrite (testbit_small b 8 n), (testbit_small g 8 (n - 8)) by lia.
    cbn [orb]. rewrite !orb_false_r. reflexivity.
  - rewrite (Z.shiftl_spec (-1)) by lia.
    rewrite Z.bits_m1 by lia. reflexivity.
Qed.

Lemma channel_range v k : 0 <= Z.land (Z.shiftr v k) 255 <= 255.
Proof.
  assert (Hmod : Z.land (Z.shiftr v k) 255 = Z.shiftr v k mod 256)
    by (change 255 with (Z.ones 8); apply Z.land_ones; lia).
  rewrite Hmod. pose proof (Z.mod_pos_bound (Z.shiftr v k) 256 eq_refl). lia.
Qed.

Lemma Colors_r_range color : 0 <= Colors.r color <= 255.
Proof. apply channel_range. Qed.

Lemma Colors_g_range color : 0 <= Colors.g color <= 255.
Proof. apply channel_range. Qed.

Lemma Colors_b_range color : 0 <= Colors.b color <= 255.
Proof. rewrite <- (Z.shiftr_0_r color). apply channel_range. Qed.

Lemma byte_eq_bits u v :
  0 <= v <= 255 ->
  (forall n, 0 <= n -> Z.testbit u n = if n <? 8 then Z.testbit v n else false) ->
  u = v.
Proof.
  intros Hv Hbits. apply Z.bits_inj'. intros n Hn. rewrite Hbits by exact Hn.
  destruct (Z.ltb_spec n 8); [reflexivity|].
  symmetry. apply (testbit_small v 8 n); lia.
Qed.

(** Unpacking a packed colour gives the channels back, and its alpha byte is
    [0xFF]. *)
Lemma rgb_channels r g b :
  0 <= r <= 255 -> 0 <= g <= 255 -> 0 <= b <= 255 ->
  Colors.r (Colors.rgb r g b) = r
  /\ Colors.g (Colors.rgb r g b) = g
  /\ Colors.b (Colors.rgb r g b) = b
  /\ Z.land (Z.shiftr (Colors.rgb r g b) 24) 255 = 255.
Proof.
  intros Hr Hg Hb. unfold Colors.r, Colors.g, Colors.b.
  repeat split; apply byte_eq_bits; try lia; intros n Hn;
    rewrite Z.land_spec; change 255 with (Z.ones 8);
    rewrite ?Z.shiftr_spec by lia; rewrite rgb_testbit by lia.
  - destruct (Z.ltb_spec n 8) as [H8|H8].
    + rewrite Z.ones_spec_low by lia.
      destruct (Z.ltb_spec (n + 16) 8); [lia|].
      destruct (Z.ltb_spec (n + 16) 16); [lia|].
      destruct (Z.ltb_spec (n + 16) 24); [|lia].
      replace (n + 16 - 16) with n by lia. apply andb_true_r.
    + rewrite Z.ones_spec_high by lia. apply andb_false_r.
  - destruct (Z.ltb_spec n 8) as [H8|H8].
    + rewrite Z.ones_spec_low by lia.
      destruct (Z.ltb_spec (n + 8) 8); [lia|].
      destruct (Z.ltb_spec (n + 8) 16); [|lia].
      replace (n + 8 - 8) with n by lia. apply andb_true_r.
    + rewrite Z.ones_spec_high by lia. apply andb_false_r.
  - destruct (Z.ltb_spec n 8) as [H8|H8].
    + rewrite Z.ones_spec_low by lia. apply andb_true_r.
    + rewrite Z.ones_spec_high by lia. apply andb_false_r.
  - destruct (Z.ltb_spec n 8) as [H8|H8].
    + rewrite Z.ones_spec_low by lia.
      destruct (Z.ltb_spec (n + 24) 8); [lia|].
      destruct (Z.ltb_spec (n + 24) 16); [lia|].
      destruct (Z.ltb_spec (n + 24) 24); [lia|]. reflexivity.
    + rewrite Z.ones_spec_high by lia. apply andb_false_r.
Qed.

(** ** Interpolation at the two ends *)

Lemma all_bytes_spec (P : Z -> bool) :
  all_bytes P = true -> forall a, 0 <= a <= 255 -> P a = true.
Proof.
  unfold all_bytes. intros Hall a Ha.
  rewrite forallb_forall in Hall. apply Hall.
  apply in_map_iff. exists (Z.to_nat a). split; [lia|].
  apply in_seq. lia.
Qed.

Lemma static_cast_int_truncates cvt_invalid x n :
  truncates_to x n = true -> INT_MIN <= n <= INT_MAX ->
  static_cast_int cvt_invalid x = n.
Proof.
  unfold truncates_to, static_cast_int. destruct (ftrunc x) as [k|]; [|discriminate].
  intros ->%Z.eqb_eq [Hlo Hhi].
  destruct (Z.leb_spec INT_MIN n); [|lia]. destruct (Z.leb_spec n INT_MAX); [|lia].
  reflexivity.
Qed.

(** With fraction [±0] the second product is a zero and the first is [c1];
    with fraction [1] the first product is a zero and the second is [c2]. The
    four facts are checked on all 256 channel values. *)
Lemma lerp_products_checked :
  all_bytes (fun c =>
    is_zero (F32.mul (F32.of_Z c) (S754_zero false))
    && is_zero (F32.mul (F32.of_Z c) (S754_zero true))
    && is_zero (F32.mul (F32.of_Z c) (F32.sub (F32.of_Z 1) (F32.of_Z 1)))
    && truncates_to (F32.add (F32.mul (F32.of_Z c) (F32.sub (F32.of_Z 1) (S754_zero false)))
                             (S754_zero false)) c
    && truncates_to (F32.add (F32.mul (F32.of_Z c) (F32.sub (F32.of_Z 1) (S754_zero false)))
                             (S754_zero true)) c
    && truncates_to (F32.add (F32.mul (F32.of_Z c) (F32.sub (F32.of_Z 1) (S754_zero true)))
                             (S754_zero false)) c
    && truncates_to (F32.add (F32.mul (F32.of_Z c) (F32.sub (F32.of_Z 1) (S754_zero true)))
                             (S754_zero true)) c
    && truncates_to (F32.add (S754_zero false) (F32.mul (F32.of_Z c) (F32.of_Z 1))) c
    && truncates_to (F32.add (S754_zero true) (F32.mul (F32.of_Z c) (F32.of_Z 1))) c)
  = true.
Proof. vm_compute. reflexivity. Qed.

Lemma is_zero_cases x : is_zero x = true -> exists s, x = S754_zero s.
Proof. destruct x; try discriminate. eauto. Qed.

Lemma lerp_channel_ends cvt_invalid a b :
  0 <= a <= 255 -> 0 <= b <= 255 ->
  (forall s, lerp_channel cvt_invalid a b (S754_zero s) = a)
  /\ lerp_channel cvt_invalid a b (F32.of_Z 1) = b.
Proof.
  intros Ha Hb.
  pose proof (all_bytes_spec _ lerp_products_checked a Ha) as Hca.
  pose proof (all_bytes_spec _ lerp_products_checked b Hb) as Hcb.
  cbv beta in Hca, Hcb.
  repeat match goal with
         | H : _ && _ = true |- _ => apply andb_prop in H; destruct H
         end.
  assert (Hint : forall v, 0 <= v <= 255 -> INT_MIN <= v <= INT_MAX)
    by (unfold INT_MIN, INT_MAX; lia).
  split.
  - intros s. unfold lerp_channel, lerp_float.
    assert (Hz : exists s', F32.mul (F32.of_Z b) (S754_zero s) = S754_zero s')
      by (destruct s; apply is_zero_cases; assumption).
    destruct Hz as [s' ->].
    apply static_cast_int_truncates; [|auto]. destruct s, s'; assumption.
  - unfold lerp_channel, lerp_float.
    assert (Hz : exists s', F32.mul (F32.of_Z a) (F32.sub (F32.of_Z 1) (F32.of_Z 1))
                            = S754_zero s') by (apply is_zero_cases; assumption).
    destruct Hz as [s' ->].
    apply static_cast_int_truncates; [|auto]. destruct s'; assumption.
Qed.

Lemma lerp_channel_zero cvt_invalid a b s :
  0 <= a <= 255 -> 0 <= b <= 255 -> lerp_channel cvt_invalid a b (S754_zero s) = a.
Proof. intros Ha Hb. apply (lerp_channel_ends cvt_invalid a b Ha Hb). Qed.

Lemma lerp_channel_one cvt_invalid a b :
  0 <= a <= 255 -> 0 <= b <= 255 -> lerp_channel cvt_invalid a b (F32.of_Z 1) = b.
Proof. intros Ha Hb. apply (lerp_channel_ends cvt_invalid a b Ha Hb). Qed.

Lemma zero_fraction_cases f :
  SFeqb f (F32.of_Z 0) = true -> exists s, f = S754_zero s.
Proof. destruct f as [s|s| |s m e]; try destruct s; cbn; try discriminate; eauto. Qed.

(** ** The two ways to compute [nu] *)

Section NuLookup.

Variable log2 : spec_float -> spec_float.
Variable cvt_invalid : spec_float -> Z.

(** After [initNative], the lookup path returns the exact formula evaluated at
    the two grid points the clamped indices select. *)
Lemma smooth_nu_lookup_after_init (t : Tables) magSq
    logMagnitudeScaleFactor logLogScaleFactor log2_2 :
  Z.of_nat (length (logMagnitudeLookupTable t)) = TABLE_SIZE ->
  Z.of_nat (length (logLogLookupTable t)) = TABLE_SIZE ->
  exists tables,
    initNative log2 t = Some tables
    /\ smooth_nu log2 cvt_invalid tables true magSq
         logMagnitudeScaleFactor logLogScaleFactor log2_2
       = Some (F64.div
                 (log2 (loglog_input
                    (nu_index cvt_invalid
                       (F64.div
                          (log2 (magnitude_input
                             (magnitude_index cvt_invalid magSq logMagnitudeScaleFactor)))
                          (F64.of_Z 2))
                       logLogScaleFactor)))
                 log2_2).
Proof.
  intros Hm Hl.
  destruct (initNative_spec log2 t Hm Hl) as (tables & Hinit & Hm' & Hl' & Hentries).
  exists tables. split; [exact Hinit|].
  destruct (smooth_nu_lookup log2 cvt_invalid tables Hm' Hl' magSq
              logMagnitudeScaleFactor logLogScaleFactor log2_2)
    as (v & w & Hv & Hw & ->).
  pose proof (clamp_index_range (static_cast_int cvt_invalid
    (F64.mul (F64.sub magSq (F64.of_Z 4)) logMagnitudeScaleFactor))) as Hj.
  fold (magnitude_index cvt_invalid magSq logMagnitudeScaleFactor) in Hj.
  destruct (Hentries _ Hj) as [Hvj _]. rewrite Hvj in Hv. injection Hv as <-.
  pose proof (clamp_index_range (static_cast_int cvt_invalid
    (F64.mul (F64.sub
       (F64.div (log2 (magnitude_input
          (magnitude_index cvt_invalid magSq logMagnitudeScaleFactor))) (F64.of_Z 2))
       (F64.of_Z 1)) logLogScaleFactor))) as Hk.
  match type of Hk with 0 <= ?k <= _ =>
    destruct (Hentries k Hk) as [_ Hwk] end.
  unfold nu_index in Hw. rewrite Hwk in Hw. injection Hw as <-.
  reflexivity.
Qed.

End NuLookup.

(** The pixel [c = 1 + 2i] with [escapeRadiusSquared = 4.0] escapes after one
    step with [magSq = 5], inside the domain [[4, 36]] of the magnitude table.
    The lookup path reads the entries 2047 and 6652 and gives
    [nu ≈ 0.215224]; the exact path gives [nu ≈ 0.215326]: a relative error
    of 4.7e-4, thirty times 1/65535. *)
Lemma lookup_nu_off_at_five :
  evaluate_pixel 0 0 (constant_transform (F64.of_Z 1) (F64.of_Z 2)) 50 (F64.of_Z 4)
    = (F64.of_Z 1, F64.of_Z 2, 1)
  /\ F64.add (F64.mul (F64.of_Z 1) (F64.of_Z 1)) (F64.mul (F64.of_Z 2) (F64.of_Z 2))
     = F64.of_Z 5
  /\ exists tables nu_lookup nu_exact,
       initNative log2_ref tables_zero = Some tables
       /\ smooth_nu log2_ref cvt_invalid_arm tables true (F64.of_Z 5)
            magnitude_scale loglog_scale (log2_ref (F64.of_Z 2)) = Some nu_lookup
       /\ smooth_nu log2_ref cvt_invalid_arm tables false (F64.of_Z 5)
            magnitude_scale loglog_scale (log2_ref (F64.of_Z 2)) = Some nu_exact
       /\ ~ within_relative (1 # 65535) nu_lookup nu_exact.
Proof.
  split; [vm_compute; reflexivity|]. split; [vm_compute; reflexivity|].
  destruct (smooth_nu_lookup_after_init log2_ref cvt_invalid_arm tables_zero
              (F64.of_Z 5) magnitude_scale loglog_scale (log2_ref (F64.of_Z 2)))
    as (tables & Hinit & Hnu); [vm_compute; reflexivity | vm_compute; reflexivity |].
  exists tables. eexists. eexists.
  split; [exact Hinit|]. split; [exact Hnu|]. split; [reflexivity|].
  unfold within_relative. intros (_ & _ & Hle).
  vm_compute in Hle. apply Hle. reflexivity.
Qed.

(** ** Rounding to nearest, from the definitions of [SpecFloat] *)

Lemma digits2_pos_bounds (p : positive) :
  2 ^ (Zpos (digits2_pos p) - 1) <= Zpos p < 2 ^ Zpos (digits2_pos p).
Proof.
  induction p as [p IH|p IH|]; cbn [digits2_pos].
  - rewrite Pos2Z.inj_succ. replace (Z.succ (Zpos (digits2_pos p)) - 1)
      with (Z.succ (Zpos (digits2_pos p) - 1)) by lia.
    rewrite !Z.pow_succ_r by lia. lia.
  - rewrite Pos2Z.inj_succ. replace (Z.succ (Zpos (digits2_pos p)) - 1)
      with (Z.succ (Zpos (digits2_pos p) - 1)) by lia.
    rewrite !Z.pow_succ_r by lia. lia.
  - cbn. lia.
Qed.

(** The number of binary digits is decided by the two powers around it. *)
Lemma digits2_pos_unique (p : positive) (d : Z) :
  2 ^ (d - 1) <= Zpos p < 2 ^ d -> Zpos (digits2_pos p) = d.
Proof.
  intros Hd. pose proof (digits2_pos_bounds p) as Hp.
  assert (Hd0 : 0 < d).
  { destruct (Z.lt_trichotomy d 0) as [H|[H|H]]; [|subst d; cbn in Hd; lia|exact H].
    rewrite (Z.pow_neg_r 2 d) in Hd by lia. lia. }
  destruct (Z.lt_trichotomy (Zpos (digits2_pos p)) d) as [Hlt|[Heq|Hgt]]; [|exact Heq|].
  - assert (2 ^ Zpos (digits2_pos p) <= 2 ^ (d - 1)) by (apply Z.pow_le_mono_r; lia). lia.
  - assert (2 ^ d <= 2 ^ (Zpos (digits2_pos p) - 1)) by (apply Z.pow_le_mono_r; lia). lia.
Qed.

Lemma shr_1_spec (mrs : shr_record) :
  0 <= shr_m mrs ->
  shr_m (shr_1 mrs) = shr_m mrs / 2
  /\ (shr_exact mrs -> shr_m mrs mod 2 = 0 -> shr_exact (shr_1 mrs)).
Proof.
  destruct mrs as [m r s]. cbn [shr_m]. intros Hm. unfold shr_exact.
  destruct m as [|[p|p|]|p]; cbn [shr_1 shr_m shr_r shr_s]; try lia.
  - split; [reflexivity|]. intros [-> ->] _. auto.
  - split; [rewrite Pos2Z.inj_xI; apply Z.div_unique with 1; lia|].
    intros _ Hodd. rewrite Pos2Z.inj_xI in Hodd.
    rewrite Z.add_comm, Z.mul_comm, Z.mod_add in Hodd by lia. discriminate Hodd.
  - split; [rewrite Pos2Z.inj_xO; apply Z.div_unique with 0; lia|].
    intros [-> ->] _. auto.
  - split; [reflexivity|]. intros _ Hodd. discriminate Hodd.
Qed.

Lemma shr_1_nonneg (mrs : shr_record) : 0 <= shr_m mrs -> 0 <= shr_m (shr_1 mrs).
Proof.
  intros Hm. rewrite (proj1 (shr_1_spec mrs Hm)). apply Z.div_pos; lia.
Qed.

Lemma mod_pow2_split m a b :
  0 <= a -> 0 <= b -> m mod 2 ^ (a + b) = 0 ->
  m mod 2 ^ a = 0 /\ (m / 2 ^ a) mod 2 ^ b = 0.
Proof.
  intros Ha Hb Hm.
  assert (Hpa : 0 < 2 ^ a) by (apply Z.pow_pos_nonneg; lia).
  assert (Hpb : 0 < 2 ^ b) by (apply Z.pow_pos_nonneg; lia).
  apply Z.mod_divide in Hm; [|rewrite Z.pow_add_r by lia; lia].
  destruct Hm as [k Hk]. rewrite Z.pow_add_r in Hk by lia. subst m.
  split.
  - replace (k * (2 ^ a * 2 ^ b)) with ((k * 2 ^ b) * 2 ^ a) by ring.
    apply Z.mod_mul. lia.
  - replace (k * (2 ^ a * 2 ^ b)) with ((k * 2 ^ b) * 2 ^ a) by ring.
    rewrite Z.div_mul by lia. apply Z.mod_mul. lia.
Qed.

(** [n] right shifts divide the mantissa by [2^n], and report an exact result
    when nothing was shifted out. *)
Lemma iter_shr_1_spec (p : positive) : forall mrs,
  0 <= shr_m mrs ->
  shr_m (SpecFloat.iter_pos shr_1 p mrs) = shr_m mrs / 2 ^ Zpos p
  /\ (shr_exact mrs -> shr_m mrs mod 2 ^ Zpos p = 0 -> shr_exact (SpecFloat.iter_pos shr_1 p mrs)).
Proof.
  induction p as [p IH|p IH|]; intros mrs Hm; cbn [SpecFloat.iter_pos].
  - destruct (shr_1_spec mrs Hm) as [H1 E1].
    pose proof (shr_1_nonneg mrs Hm) as Hm1.
    destruct (IH (shr_1 mrs) Hm1) as [H2 E2].
    assert (Hm2 : 0 <= shr_m (SpecFloat.iter_pos shr_1 p (shr_1 mrs)))
      by (rewrite H2; apply Z.div_pos; [lia | apply Z.pow_pos_nonneg; lia]).
    destruct (IH _ Hm2) as [H3 E3].
    rewrite (Pos2Z.inj_xI p).
    replace (2 * Zpos p + 1) with (1 + (Zpos p + Zpos p)) by lia.
    split.
    + rewrite H3, H2, H1. rewrite !Z.div_div by (try apply Z.pow_pos_nonneg; lia).
      rewrite (Z.pow_add_r 2 1), (Z.pow_add_r 2 (Zpos p)) by lia.
      rewrite Z.pow_1_r. reflexivity.
    + intros Hex Hmod.
      apply mod_pow2_split in Hmod as [Hmod1 Hmod2]; [|lia|lia].
      apply mod_pow2_split in Hmod2 as [Hmod2 Hmod3]; [|lia|lia].
      rewrite Z.pow_1_r in *.
      apply E3; [apply E2; [apply E1; assumption|]|].
      * rewrite H1. exact Hmod2.
      * rewrite H2, H1. exact Hmod3.
  - destruct (IH mrs Hm) as [H2 E2].
    assert (Hm2 : 0 <= shr_m (SpecFloat.iter_pos shr_1 p mrs))
      by (rewrite H2; apply Z.div_pos; [lia | apply Z.pow_pos_nonneg; lia]).
    destruct (IH _ Hm2) as [H3 E3].
    rewrite (Pos2Z.inj_xO p). replace (2 * Zpos p) with (Zpos p + Zpos p) by lia.
    split.
    + rewrite H3, H2. rewrite Z.div_div by (try apply Z.pow_pos_nonneg; lia).
      rewrite Z.pow_add_r by lia. reflexivity.
    + intros Hex Hmod.
      apply mod_pow2_split in Hmod as [Hmod1 Hmod2]; [|lia|lia].
      apply E3; [apply E2; assumption|]. rewrite H2. exact Hmod2.
  - rewrite Z.pow_1_r. apply shr_1_spec, Hm.
Qed.
(** *** Powers of two and dyadic values *)

Lemma bpow_pos e : (0 < bpow e)%Q.
Proof. unfold bpow. apply Qpower_0_lt. reflexivity. Qed.

Lemma bpow_add a b : (bpow (a + b) == bpow a * bpow b)%Q.
Proof. unfold bpow. apply Qpower_plus. discriminate. Qed.

Lemma bpow_Z e : 0 <= e -> (bpow e == inject_Z (2 ^ e))%Q.
Proof. intros He. unfold bpow. rewrite Zpower_Qpower by exact He. reflexivity. Qed.

Lemma bpow_le a b : a <= b -> (bpow a <= bpow b)%Q.
Proof.
  intros Hab. replace b with (a + (b - a)) by lia.
  rewrite bpow_add, (bpow_Z (b - a)) by lia.
  assert (H1 : (1 <= inject_Z (2 ^ (b - a)))%Q).
  { change 1%Q with (inject_Z 1). rewrite <- Zle_Qle.
    pose proof (Z.pow_pos_nonneg 2 (b - a)). lia. }
  pose proof (bpow_pos a). nra.
Qed.

Lemma bpow_lt a b : a < b -> (bpow a < bpow b)%Q.
Proof.
  intros Hab. replace b with (a + (b - a)) by lia.
  rewrite bpow_add, (bpow_Z (b - a)) by lia.
  assert (H1 : (2 <= inject_Z (2 ^ (b - a)))%Q).
  { change 2%Q with (inject_Z 2). rewrite <- Zle_Qle.
    replace (b - a) with (Z.succ (b - a - 1)) by lia.
    rewrite Z.pow_succ_r by lia. pose proof (Z.pow_pos_nonneg 2 (b - a - 1)). lia. }
  pose proof (bpow_pos a). nra.
Qed.

Lemma F2Q_le m1 m2 e : m1 <= m2 -> (F2Q m1 e <= F2Q m2 e)%Q.
Proof.
  intros H. unfold F2Q. apply Qmult_le_compat_r; [|apply Qlt_le_weak, bpow_pos].
  rewrite <- Zle_Qle. exact H.
Qed.

Lemma F2Q_lt m1 m2 e : m1 < m2 -> (F2Q m1 e < F2Q m2 e)%Q.
Proof.
  intros H. unfold F2Q. apply Qmult_lt_compat_r; [apply bpow_pos|].
  rewrite <- Zlt_Qlt. exact H.
Qed.

Lemma F2Q_le_inv m1 m2 e : (F2Q m1 e <= F2Q m2 e)%Q -> m1 <= m2.
Proof.
  intros H. destruct (Z_lt_le_dec m2 m1) as [Hlt|Hle]; [|exact Hle].
  apply (F2Q_lt _ _ e) in Hlt. lra.
Qed.

Lemma F2Q_lt_inv m1 m2 e : (F2Q m1 e < F2Q m2 e)%Q -> m1 < m2.
Proof.
  intros H. destruct (Z_lt_le_dec m1 m2) as [Hlt|Hle]; [exact Hlt|].
  apply (F2Q_le _ _ e) in Hle. lra.
Qed.

(** Moving a factor [2^n] between the mantissa and the exponent. *)
Lemma F2Q_shift m e n : 0 <= n -> (F2Q (m * 2 ^ n) e == F2Q m (e + n))%Q.
Proof.
  intros Hn. unfold F2Q. rewrite bpow_add, (bpow_Z n), inject_Z_mult by lia. ring.
Qed.

Lemma F2Q_add m1 m2 e : (F2Q (m1 + m2) e == F2Q m1 e + F2Q m2 e)%Q.
Proof. unfold F2Q. rewrite inject_Z_plus. ring. Qed.

Lemma F2Q_pow2 k e : 0 <= k -> (F2Q (2 ^ k) e == bpow (k + e))%Q.
Proof. intros Hk. unfold F2Q. rewrite bpow_add, (bpow_Z k) by lia. reflexivity. Qed.

Lemma F2Q_0 e : (F2Q 0 e == 0)%Q.
Proof. unfold F2Q. ring. Qed.
Lemma rne_spec (mrs : shr_record) :
  (round_nearest_even (shr_m mrs) (loc_of_shr_record mrs) = shr_m mrs
   \/ round_nearest_even (shr_m mrs) (loc_of_shr_record mrs) = shr_m mrs + 1)
  /\ (shr_exact mrs -> round_nearest_even (shr_m mrs) (loc_of_shr_record mrs) = shr_m mrs).
Proof.
  destruct mrs as [m [|] [|]]; unfold shr_exact; cbn; try destruct (Z.even m);
    (split; [auto | intros [? ?]; congruence || reflexivity]).
Qed.

Section Round.

Variables prec emax : Z.
Hypothesis prec_pos : 0 < prec.
Hypothesis prec_lt_emax : prec < emax.

Lemma shr_fexp_spec m e :
  0 <= m ->
  exists mrs,
    shr_fexp prec emax m e loc_Exact
      = (mrs, e + Z.max 0 (fexp prec emax (Zdigits2 m + e) - e))
    /\ shr_m mrs = m / 2 ^ Z.max 0 (fexp prec emax (Zdigits2 m + e) - e)
    /\ (m mod 2 ^ Z.max 0 (fexp prec emax (Zdigits2 m + e) - e) = 0 -> shr_exact mrs).
Proof.
  intros Hm. unfold shr_fexp, shr. cbn [shr_record_of_loc].
  destruct (fexp prec emax (Zdigits2 m + e) - e) as [|n|n] eqn:Hn.
  - eexists. split; [rewrite Z.add_0_r; reflexivity|]. cbn [shr_m Z.max].
    rewrite Z.div_1_r. split; [reflexivity|]. intros _. split; reflexivity.
  - destruct (iter_shr_1_spec n (Build_shr_record m false false) Hm) as [Hdiv Hex].
    eexists. split; [reflexivity|]. cbn [shr_m] in *. split; [exact Hdiv|].
    intros Hmod. apply Hex; [split; reflexivity | exact Hmod].
  - eexists. split; [rewrite Z.add_0_r; reflexivity|]. cbn [shr_m Z.max].
    rewrite Z.div_1_r. split; [reflexivity|]. intros _. split; reflexivity.
Qed.


Lemma fexp_ge_emin e : emin prec emax <= fexp prec emax e.
Proof. unfold fexp. lia. Qed.

Lemma fexp_small d e :
  d <= prec -> emin prec emax <= e -> fexp prec emax (d + e) <= e.
Proof. unfold fexp. lia. Qed.

(** The shape of a rounding: the mantissa [p] is cut to the exponent
    [e1 = fexp (digits p + ex)], which leaves [q = p / 2^(e1 - ex)] below
    [2^prec]; the result is [q] or [q + 1] at exponent [e1], renormalised when
    [q + 1] is [2^prec]. *)
Lemma binary_round_aux_shape sx (p : positive) ex :
  ex <= fexp prec emax (Zpos (digits2_pos p) + ex) ->
  exists m2 e2 mr,
    binary_round_aux prec emax sx (Zpos p) ex loc_Exact = SFpack prec emax sx m2 e2
    /\ (mr = Zpos p / 2 ^ (fexp prec emax (Zpos (digits2_pos p) + ex) - ex)
        \/ mr = Zpos p / 2 ^ (fexp prec emax (Zpos (digits2_pos p) + ex) - ex) + 1)
    /\ (Zpos p mod 2 ^ (fexp prec emax (Zpos (digits2_pos p) + ex) - ex) = 0 ->
        mr = Zpos p / 2 ^ (fexp prec emax (Zpos (digits2_pos p) + ex) - ex))
    /\ ((m2 = mr /\ e2 = fexp prec emax (Zpos (digits2_pos p) + ex))
        \/ (mr = 2 ^ prec /\ m2 = 2 ^ (prec - 1)
            /\ e2 = fexp prec emax (Zpos (digits2_pos p) + ex) + 1))
    /\ 0 <= m2 < 2 ^ prec
    /\ (m2 <> 0 -> fexp prec emax (Zdigits2 m2 + e2) = e2)
    /\ Zpos p / 2 ^ (fexp prec emax (Zpos (digits2_pos p) + ex) - ex) < 2 ^ prec
    /\ (emin prec emax < fexp prec emax (Zpos (digits2_pos p) + ex) ->
        2 ^ (prec - 1) <= Zpos p / 2 ^ (fexp prec emax (Zpos (digits2_pos p) + ex) - ex)).
Proof.
  set (d := Zpos (digits2_pos p)). set (e1 := fexp prec emax (d + ex)).
  intros He1. set (n := e1 - ex). set (q := Zpos p / 2 ^ n).
  pose proof (digits2_pos_bounds p) as Hd. fold d in Hd.
  assert (Hn : 0 <= n) by (unfold n; lia).
  assert (Hpn : 0 < 2 ^ n) by (apply Z.pow_pos_nonneg; lia).
  assert (Hemin : emin prec emax <= e1) by apply fexp_ge_emin.
  assert (Hq0 : 0 <= q) by (apply Z.div_pos; lia).
  assert (Hqhi : q < 2 ^ prec).
  { apply Z.div_lt_upper_bound; [exact Hpn|].
    rewrite <- Z.pow_add_r by lia.
    assert (2 ^ d <= 2 ^ (n + prec)) by (apply Z.pow_le_mono_r; unfold n, e1, fexp; lia).
    lia. }
  assert (Hqlo : emin prec emax < e1 -> 2 ^ (prec - 1) <= q).
  { intros Hnorm. apply Z.div_le_lower_bound; [exact Hpn|].
    rewrite <- Z.pow_add_r by lia.
    replace (n + (prec - 1)) with (d - 1) by (unfold n, e1, fexp in *; lia). lia. }
  unfold binary_round_aux.
  destruct (shr_fexp_spec (Zpos p) ex ltac:(lia)) as (mrs1 & Hs1 & Hm1 & Hx1).
  cbn [Zdigits2] in Hs1, Hm1, Hx1. fold d e1 n in Hs1, Hm1, Hx1.
  rewrite (Z.max_r 0 n) in Hs1, Hm1, Hx1 by lia.
  replace (ex + n) with e1 in Hs1 by (unfold n; lia). fold q in Hm1.
  rewrite Hs1.
  destruct (rne_spec mrs1) as [Hmr Hmrx].
  set (mr := round_nearest_even (shr_m mrs1) (loc_of_shr_record mrs1)) in *.
  rewrite Hm1 in Hmr, Hmrx.
  assert (Hmr0 : 0 <= mr <= 2 ^ prec) by lia.
  destruct (shr_fexp_spec mr e1 ltac:(lia)) as (mrs2 & Hs2 & Hm2 & _).
  rewrite Hs2.
  assert (Hcase : (shr_m mrs2 = mr /\ e1 + Z.max 0 (fexp prec emax (Zdigits2 mr + e1) - e1) = e1
                   /\ mr < 2 ^ prec
                   /\ (mr <> 0 -> fexp prec emax (Zdigits2 mr + e1) = e1))
                  \/ (mr = 2 ^ prec /\ shr_m mrs2 = 2 ^ (prec - 1)
                      /\ e1 + Z.max 0 (fexp prec emax (Zdigits2 mr + e1) - e1) = e1 + 1)).
  { destruct (Z.eq_dec mr (2 ^ prec)) as [Hfull|Hpart].
    - right. split; [exact Hfull|].
      assert (Hdig : Zdigits2 mr = prec + 1).
      { destruct mr as [|pm|pm]; [pose proof (Z.pow_pos_nonneg 2 prec); lia| |lia].
        cbn [Zdigits2]. apply digits2_pos_unique. rewrite Hfull.
        replace (prec + 1 - 1) with prec by lia.
        rewrite Z.pow_add_r, Z.pow_1_r by lia.
        pose proof (Z.pow_pos_nonneg 2 prec). lia. }
      rewrite Hdig in Hm2 |- *.
      replace (fexp prec emax (prec + 1 + e1) - e1) with 1 in * by (unfold fexp; lia).
      cbn [Z.max] in Hm2 |- *. change (Z.max 0 1) with 1 in *.
      split; [|reflexivity]. rewrite Hm2, Hfull, Z.pow_1_r.
      replace prec with (Z.succ (prec - 1)) at 1 by lia.
      rewrite Z.pow_succ_r by lia. rewrite Z.mul_comm, Z.div_mul by lia. reflexivity.
    - left.
      assert (Hdig : Zdigits2 mr <= prec
                     /\ (mr <> 0 -> emin prec emax < e1 -> Zdigits2 mr = prec)).
      { destruct mr as [|pm|pm]; [cbn; lia| |lia]. cbn [Zdigits2].
        pose proof (digits2_pos_bounds pm) as Hpm.
        assert (Hle : Zpos (digits2_pos pm) <= prec).
        { destruct (Z_lt_le_dec prec (Zpos (digits2_pos pm))) as [Hgt|Hle]; [|exact Hle].
          assert (2 ^ prec <= 2 ^ (Zpos (digits2_pos pm) - 1))
            by (apply Z.pow_le_mono_r; lia). lia. }
        split; [exact Hle|]. intros _ Hnorm. specialize (Hqlo Hnorm).
        destruct (Z_lt_le_dec (Zpos (digits2_pos pm)) prec) as [Hlt|Hge]; [|lia].
        assert (2 ^ Zpos (digits2_pos pm) <= 2 ^ (prec - 1))
          by (apply Z.pow_le_mono_r; lia). lia. }
      destruct Hdig as [Hdle Hdeq].
      pose proof (fexp_small (Zdigits2 mr) e1 Hdle Hemin) as Hsmall.
      rewrite (Z.max_l 0 _) in Hm2 |- * by lia.
      rewrite Z.pow_0_r, Z.div_1_r in Hm2.
      split; [exact Hm2|]. split; [lia|]. split; [lia|].
      intros Hnz. destruct (Z.eq_dec e1 (emin prec emax)) as [Hsub|Hnorm].
      + unfold fexp in *. lia.
      + rewrite Hdeq by lia. unfold fexp in *. lia. }
  exists (shr_m mrs2), (e1 + Z.max 0 (fexp prec emax (Zdigits2 mr + e1) - e1)), mr.
  split; [unfold SFpack; reflexivity|].
  split; [exact Hmr|]. split; [intros Hmod; apply Hmrx, Hx1, Hmod|].
  destruct Hcase as [(Hm & He & Hlt & Hcan) | (Hfull & Hm & He)].
  - rewrite Hm, He. split; [left; split; reflexivity|].
    split; [lia|]. split; [exact Hcan|]. split; [exact Hqhi | exact Hqlo].
  - rewrite Hm, He. split; [right; repeat split; assumption|].
    assert (Hhalf : 0 < 2 ^ (prec - 1) < 2 ^ prec).
    { split; [apply Z.pow_pos_nonneg; lia | apply Z.pow_lt_mono_r; lia]. }
    split; [lia|]. split; [|split; [exact Hqhi | exact Hqlo]].
    intros _.
    assert (Hdig : Zdigits2 (2 ^ (prec - 1)) = prec).
    { destruct (2 ^ (prec - 1)) as [|pm|pm] eqn:Hpm; [lia| |lia].
      cbn [Zdigits2]. apply digits2_pos_unique. rewrite <- Hpm. lia. }
    rewrite Hdig. unfold fexp in *. lia.
Qed.



(** A number of the format: a mantissa below [2^prec] at an exponent not
    below [emin]. Between a dyadic number and the nearest such numbers on
    either side there is no other, so rounding cannot cross one. *)
Lemma binary_round_aux_anchors sx (p : positive) ex :
  ex <= fexp prec emax (Zpos (digits2_pos p) + ex) ->
  exists m2 e2,
    binary_round_aux prec emax sx (Zpos p) ex loc_Exact = SFpack prec emax sx m2 e2
    /\ 0 <= m2 < 2 ^ prec
    /\ emin prec emax <= e2
    /\ (m2 <> 0 -> fexp prec emax (Zdigits2 m2 + e2) = e2)
    /\ (forall ny ky, 0 <= ny < 2 ^ prec -> emin prec emax <= ky ->
          (F2Q (Zpos p) ex <= F2Q ny ky)%Q -> (F2Q m2 e2 <= F2Q ny ky)%Q)
    /\ (forall ny ky, 0 <= ny < 2 ^ prec -> emin prec emax <= ky ->
          (F2Q ny ky <= F2Q (Zpos p) ex)%Q -> (F2Q ny ky <= F2Q m2 e2)%Q).
Proof.
  intros He1.
  destruct (binary_round_aux_shape sx p ex He1)
    as (m2 & e2 & mr & Hres & Hmr & Hexact & Hnorm & Hm2 & Hcan & Hqhi & Hqlo).
  set (e1 := fexp prec emax (Zpos (digits2_pos p) + ex)) in *.
  set (n := e1 - ex) in *. set (q := Zpos p / 2 ^ n) in *.
  assert (Hn : 0 <= n) by (unfold n; lia).
  assert (Hpn : 0 < 2 ^ n) by (apply Z.pow_pos_nonneg; lia).
  assert (Hemin : emin prec emax <= e1) by apply fexp_ge_emin.
  pose proof (Z.div_mod (Zpos p) (2 ^ n) ltac:(lia)) as Hdm. fold q in Hdm.
  pose proof (Z.mod_pos_bound (Zpos p) (2 ^ n) Hpn) as Hrem.
  set (r := Zpos p mod 2 ^ n) in *.
  (* the exact value sits between q and q + 1 at exponent e1 *)
  assert (Hx : (F2Q (Zpos p) ex == F2Q q e1 + F2Q r ex)%Q).
  { rewrite Hdm, F2Q_add. rewrite (Z.mul_comm (2 ^ n) q), F2Q_shift by lia.
    replace (ex + n) with e1 by (unfold n; lia). reflexivity. }
  assert (Hr0 : (0 <= F2Q r ex)%Q) by (rewrite <- (F2Q_0 ex); apply F2Q_le; lia).
  assert (Hr1 : (F2Q r ex < F2Q 1 e1)%Q).
  { assert (H1 : (F2Q 1 e1 == F2Q (2 ^ n) ex)%Q).
    { rewrite <- (Z.mul_1_l (2 ^ n)), F2Q_shift by lia.
      replace (ex + n) with e1 by (unfold n; lia). reflexivity. }
    rewrite H1. apply F2Q_lt. lia. }
  assert (Hq1 : (F2Q (q + 1) e1 == F2Q q e1 + F2Q 1 e1)%Q) by apply F2Q_add.
  (* the value of the result is that of [mr] at exponent [e1] *)
  assert (Hval : (F2Q m2 e2 == F2Q mr e1)%Q).
  { destruct Hnorm as [[-> ->] | (-> & -> & ->)]; [reflexivity|].
    rewrite !F2Q_pow2 by lia. replace (prec - 1 + (e1 + 1)) with (prec + e1) by lia.
    reflexivity. }
  assert (He2 : emin prec emax <= e2)
    by (destruct Hnorm as [[_ ->] | (_ & _ & ->)]; lia).
  (* a format number with a smaller exponent lies below q *)
  assert (Hbelow : forall ny ky, 0 <= ny < 2 ^ prec -> emin prec emax <= ky -> ky < e1 ->
            (F2Q ny ky <= F2Q q e1)%Q).
  { intros ny ky Hny Hky Hlt. specialize (Hqlo ltac:(lia)).
    assert (H1 : (F2Q ny ky <= F2Q (2 ^ prec) ky)%Q) by (apply F2Q_le; lia).
    assert (H2 : (F2Q (2 ^ prec) ky <= F2Q (2 ^ (prec - 1)) e1)%Q).
    { rewrite !F2Q_pow2 by lia. apply bpow_le. lia. }
    assert (H3 : (F2Q (2 ^ (prec - 1)) e1 <= F2Q q e1)%Q) by (apply F2Q_le; lia).
    lra. }
  (* a format number with a larger exponent is a multiple of 2^e1 *)
  assert (Habove : forall ny ky, e1 <= ky ->
            (F2Q ny ky == F2Q (ny * 2 ^ (ky - e1)) e1)%Q).
  { intros ny ky Hge. rewrite F2Q_shift by lia.
    replace (e1 + (ky - e1)) with ky by lia. reflexivity. }
  exists m2, e2. split; [exact Hres|]. split; [exact Hm2|]. split; [exact He2|].
  split; [exact Hcan|]. split.
  - intros ny ky Hny Hky Hle. rewrite Hval.
    destruct (Z.eq_dec r 0) as [Hzero|Hpos].
    + rewrite (Hexact Hzero). lra.
    + assert (Hrpos : (0 < F2Q r ex)%Q)
        by (rewrite <- (F2Q_0 ex); apply F2Q_lt; lia).
      assert (Hstep : (F2Q (q + 1) e1 <= F2Q ny ky)%Q).
      { destruct (Z_lt_le_dec ky e1) as [Hlt|Hge].
        - pose proof (Hbelow ny ky Hny Hky Hlt). lra.
        - rewrite (Habove ny ky Hge) in Hle |- *. apply F2Q_le.
          assert (q < ny * 2 ^ (ky - e1)) by (apply (F2Q_lt_inv _ _ e1); lra). lia. }
      assert (Hmrle : (F2Q mr e1 <= F2Q (q + 1) e1)%Q) by (apply F2Q_le; lia).
      lra.
  - intros ny ky Hny Hky Hle. rewrite Hval.
    assert (Hstep : (F2Q ny ky <= F2Q q e1)%Q).
    { destruct (Z_lt_le_dec ky e1) as [Hlt|Hge].
      - apply (Hbelow ny ky Hny Hky Hlt).
      - rewrite (Habove ny ky Hge) in Hle |- *. apply F2Q_le.
        assert (ny * 2 ^ (ky - e1) < q + 1) by (apply (F2Q_lt_inv _ _ e1); lra). lia. }
    assert (Hmrge : (F2Q q e1 <= F2Q mr e1)%Q) by (apply F2Q_le; lia).
    lra.
Qed.

End Round.

Section Rounded.

Variables prec emax : Z.
Hypothesis prec_pos : 0 < prec.
Hypothesis prec_lt_emax : prec < emax.

Lemma emin_lt_top : emin prec emax < emax - prec.
Proof. unfold emin. lia. Qed.

Lemma emin_nonpos : emin prec emax <= 0.
Proof. unfold emin. lia. Qed.

Lemma rounded_ext x x' r : (x == x')%Q -> rounded prec emax x r -> rounded prec emax x' r.
Proof.
  intros Hx (Hv & Hs & Hu & Hl). split; [exact Hv|]. split; [exact Hs|]. split.
  - intros y Hy Hle. apply Hu; [exact Hy | rewrite Hx; exact Hle].
  - intros y Hy Hle. apply Hl; [exact Hy | rewrite Hx; exact Hle].
Qed.

Lemma rounded_zero x : (x == 0)%Q -> rounded prec emax x (S754_zero false).
Proof.
  intros Hx. split; [reflexivity|]. split; [left; left; reflexivity|]. split.
  - intros y _ Hle. split; [left; reflexivity|]. cbn [SF2Q]. lra.
  - intros y _ Hle _. cbn [SF2Q]. lra.
Qed.

(** A valid non-negative number is its own rounding. *)
Lemma rounded_self r :
  valid_binary prec emax r = true -> nonneg_finite r -> rounded prec emax (SF2Q r) r.
Proof.
  intros Hv Hr. split; [exact Hv|]. split; [left; exact Hr|]. split.
  - intros y _ Hle. split; assumption.
  - intros y _ Hle _. exact Hle.
Qed.

Lemma SF2Q_pack_finite (pm : positive) e2 :
  e2 <= emax - prec ->
  SFpack prec emax false (Zpos pm) e2 = S754_finite false pm e2.
Proof. intros He. unfold SFpack. destruct (Z.leb_spec e2 (emax - prec)); [reflexivity|lia]. Qed.

(** A canonical mantissa at an exponent above the range is at least
    [2^emax], which no number of the format reaches. *)
Lemma canonical_overflow (pm : positive) e2 my ey :
  fexp prec emax (Zpos (digits2_pos pm) + e2) = e2 ->
  emax - prec < e2 ->
  0 <= my < 2 ^ prec -> ey <= emax - prec ->
  (F2Q my ey < F2Q (Zpos pm) e2)%Q.
Proof.
  intros Hcan Hbig Hmy Hey.
  pose proof emin_lt_top as Htop.
  pose proof (digits2_pos_bounds pm) as Hd.
  assert (Hdig : Zpos (digits2_pos pm) = prec) by (unfold fexp in Hcan; lia).
  rewrite Hdig in Hd.
  assert (H1 : (F2Q my ey < F2Q (2 ^ prec) ey)%Q) by (apply F2Q_lt; lia).
  assert (H2 : (F2Q (2 ^ prec) ey <= F2Q (2 ^ (prec - 1)) e2)%Q).
  { rewrite !F2Q_pow2 by lia. apply bpow_le. lia. }
  assert (H3 : (F2Q (2 ^ (prec - 1)) e2 <= F2Q (Zpos pm) e2)%Q) by (apply F2Q_le; lia).
  lra.
Qed.

Lemma binary_round_aux_rounded (p : positive) e :
  e <= fexp prec emax (Zpos (digits2_pos p) + e) ->
  rounded prec emax (F2Q (Zpos p) e)
    (binary_round_aux prec emax false (Zpos p) e loc_Exact).
Proof.
  intros He1.
  destruct (binary_round_aux_anchors prec emax prec_pos false p e He1)
    as (m2 & e2 & -> & Hm2 & He2 & Hcan & Hup & Hlo).
  destruct m2 as [|pm|pm]; [| |lia].
  - (* the result is zero *)
    cbn [SFpack]. split; [reflexivity|]. split; [left; left; reflexivity|]. split.
    + intros y (my & ey & Hmy & Hey & Hy) Hle. split; [left; reflexivity|].
      cbn [SF2Q]. rewrite <- (F2Q_0 e2), Hy. apply Hup; [lia | lia | rewrite <- Hy; exact Hle].
    + intros y (my & ey & Hmy & Hey & Hy) Hle _. cbn [SF2Q].
      rewrite <- (F2Q_0 e2), Hy. apply Hlo; [lia | lia | rewrite <- Hy; exact Hle].
  - specialize (Hcan ltac:(lia)). cbn [Zdigits2] in Hcan.
    destruct (Z_le_gt_dec e2 (emax - prec)) as [Hfit|Hover].
    + rewrite SF2Q_pack_finite by exact Hfit.
      split; [cbn [valid_binary]; unfold bounded, canonical_mantissa;
              rewrite Hcan, Z.eqb_refl; apply Z.leb_le, Hfit|].
      split; [left; right; eauto|]. split.
      * intros y (my & ey & Hmy & Hey & Hy) Hle. split; [right; eauto|].
        cbn [SF2Q cond_Zopp]. rewrite Hy.
        apply Hup; [lia | lia | rewrite <- Hy; exact Hle].
      * intros y (my & ey & Hmy & Hey & Hy) Hle _. cbn [SF2Q cond_Zopp]. rewrite Hy.
        apply Hlo; [lia | lia | rewrite <- Hy; exact Hle].
    + (* overflow: no number of the format is above the exact value *)
      assert (Hinf : SFpack prec emax false (Zpos pm) e2 = S754_infinity false).
      { unfold SFpack. destruct (Z.leb_spec e2 (emax - prec)); [lia|reflexivity]. }
      rewrite Hinf. split; [reflexivity|]. split; [right; reflexivity|]. split.
      * intros y (my & ey & Hmy & Hey & Hy) Hle. exfalso.
        assert (H1 : (F2Q (Zpos pm) e2 <= F2Q my ey)%Q)
          by (apply Hup; [lia | lia | rewrite <- Hy; exact Hle]).
        pose proof (canonical_overflow pm e2 my ey Hcan ltac:(lia) Hmy ltac:(lia)). lra.
      * intros y _ _ [Habs | (m & e' & Habs)]; discriminate Habs.
Qed.


Lemma pos_iter_xO (mx d : positive) : Zpos (Pos.iter xO mx d) = Zpos mx * 2 ^ Zpos d.
Proof.
  induction d as [|d IH] using Pos.peano_ind.
  - cbn [Pos.iter]. rewrite Z.pow_1_r. lia.
  - rewrite Pos.iter_succ, Pos2Z.inj_xO, IH, Pos2Z.inj_succ, Z.pow_succ_r by lia. ring.
Qed.

(** [shl_align] lowers the exponent to [Z.min e e'] and keeps the value. *)
Lemma shl_align_spec (mx : positive) e e' :
  snd (shl_align mx e e') = Z.min e e'
  /\ Zpos (fst (shl_align mx e e')) = Zpos mx * 2 ^ (e - Z.min e e').
Proof.
  unfold shl_align. destruct (e' - e) as [|d|d] eqn:Hd; cbn [fst snd].
  - rewrite Z.min_l by lia. rewrite Z.sub_diag. split; lia.
  - rewrite Z.min_l by lia. rewrite Z.sub_diag. split; lia.
  - rewrite Z.min_r by lia. split; [reflexivity|].
    rewrite pos_iter_xO. f_equal. f_equal. lia.
Qed.

Lemma shl_align_value (mx : positive) e e' :
  (F2Q (Zpos (fst (shl_align mx e e'))) (snd (shl_align mx e e')) == F2Q (Zpos mx) e)%Q.
Proof.
  destruct (shl_align_spec mx e e') as [-> ->].
  rewrite F2Q_shift by lia. replace (Z.min e e' + (e - Z.min e e')) with e by lia.
  reflexivity.
Qed.

Lemma digits2_pos_shift (mx mz : positive) k :
  0 <= k -> Zpos mz = Zpos mx * 2 ^ k ->
  Zpos (digits2_pos mz) = Zpos (digits2_pos mx) + k.
Proof.
  intros Hk Hmz. apply digits2_pos_unique. rewrite Hmz.
  pose proof (digits2_pos_bounds mx) as Hd.
  assert (Hpk : 0 < 2 ^ k) by (apply Z.pow_pos_nonneg; lia).
  replace (Zpos (digits2_pos mx) + k - 1) with (Zpos (digits2_pos mx) - 1 + k) by lia.
  rewrite !Z.pow_add_r by lia. nia.
Qed.

Lemma binary_round_rounded (mx : positive) e :
  rounded prec emax (F2Q (Zpos mx) e) (binary_round prec emax false mx e).
Proof.
  unfold binary_round.
  pose proof (shl_align_spec mx e (fexp prec emax (Zpos (digits2_pos mx) + e))) as [He Hm].
  pose proof (shl_align_value mx e (fexp prec emax (Zpos (digits2_pos mx) + e))) as Hv.
  destruct (shl_align mx e (fexp prec emax (Zpos (digits2_pos mx) + e))) as [mz ez].
  cbn [fst snd] in He, Hm, Hv.
  apply (rounded_ext (F2Q (Zpos mz) ez)); [exact Hv|].
  apply binary_round_aux_rounded.
  rewrite (digits2_pos_shift mx mz (e - Z.min e (fexp prec emax (Zpos (digits2_pos mx) + e))))
    by (subst ez; lia || exact Hm).
  subst ez.
  replace (Zpos (digits2_pos mx)
           + (e - Z.min e (fexp prec emax (Zpos (digits2_pos mx) + e)))
           + Z.min e (fexp prec emax (Zpos (digits2_pos mx) + e)))
    with (Zpos (digits2_pos mx) + e) by lia.
  lia.
Qed.

Lemma binary_normalize_rounded m e :
  0 <= m -> rounded prec emax (F2Q m e) (binary_normalize prec emax m e false).
Proof.
  intros Hm. destruct m as [|p|p]; [| |lia]; cbn [binary_normalize].
  - apply rounded_zero, F2Q_0.
  - apply binary_round_rounded.
Qed.

End Rounded.

(** *** The operations on non-negative numbers *)

Section Operations.

Variables prec emax : Z.
Hypothesis prec_pos : 0 < prec.
Hypothesis prec_lt_emax : prec < emax.

Lemma valid_finite_facts s (m : positive) e :
  valid_binary prec emax (S754_finite s m e) = true ->
  emin prec emax <= e <= emax - prec
  /\ Zpos (digits2_pos m) <= prec
  /\ (e = emin prec emax \/ Zpos (digits2_pos m) = prec).
Proof.
  cbn [valid_binary]. unfold bounded, canonical_mantissa.
  intros [Hcan Hle]%andb_prop. apply Z.eqb_eq in Hcan. apply Z.leb_le in Hle.
  unfold fexp in Hcan. lia.
Qed.

Lemma SF2Q_finite_pos (m : positive) e : (0 < SF2Q (S754_finite false m e))%Q.
Proof.
  cbn [SF2Q cond_Zopp]. rewrite <- (F2Q_0 e). apply F2Q_lt. lia.
Qed.

Lemma SF2Q_nonneg r : nonneg_finite r -> (0 <= SF2Q r)%Q.
Proof.
  intros [-> | (m & e & ->)]; [cbn; lra|]. apply Qlt_le_weak, SF2Q_finite_pos.
Qed.

Lemma digits2_pos_mul (ma mb : positive) :
  Zpos (digits2_pos ma) + Zpos (digits2_pos mb) - 1 <= Zpos (digits2_pos (ma * mb)).
Proof.
  pose proof (digits2_pos_bounds ma) as Ha. pose proof (digits2_pos_bounds mb) as Hb.
  pose proof (digits2_pos_bounds (ma * mb)) as Hab. rewrite Pos2Z.inj_mul in Hab.
  set (da := Zpos (digits2_pos ma)) in *. set (db := Zpos (digits2_pos mb)) in *.
  set (dab := Zpos (digits2_pos (ma * mb))) in *.
  assert (Hda : 0 < da) by (unfold da; lia). assert (Hdb : 0 < db) by (unfold db; lia).
  assert (Hlow : 2 ^ (da - 1 + (db - 1)) <= Zpos ma * Zpos mb).
  { rewrite Z.pow_add_r by lia.
    assert (0 < 2 ^ (da - 1)) by (apply Z.pow_pos_nonneg; lia).
    assert (0 < 2 ^ (db - 1)) by (apply Z.pow_pos_nonneg; lia). nia. }
  destruct (Z_lt_le_dec dab (da + db - 1)) as [Hlt|Hge]; [|lia].
  assert (2 ^ dab <= 2 ^ (da - 1 + (db - 1))) by (apply Z.pow_le_mono_r; lia). lia.
Qed.

Lemma SFmul_rounded a b :
  valid_binary prec emax a = true -> valid_binary prec emax b = true ->
  nonneg_finite a -> nonneg_finite b ->
  rounded prec emax (SF2Q a * SF2Q b) (SFmul prec emax a b).
Proof.
  intros Hva Hvb [-> | (ma & ea & ->)] [-> | (mb & eb & ->)]; cbn [SFmul xorb].
  - apply rounded_zero. cbn. ring.
  - apply rounded_zero. cbn [SF2Q]. ring.
  - apply rounded_zero. cbn [SF2Q]. ring.
  - destruct (valid_finite_facts _ _ _ Hva) as (Hea & Hda & Hna).
    destruct (valid_finite_facts _ _ _ Hvb) as (Heb & Hdb & Hnb).
    apply (rounded_ext prec emax (F2Q (Zpos (ma * mb)) (ea + eb))).
    { cbn [SF2Q cond_Zopp]. unfold F2Q. rewrite Pos2Z.inj_mul, inject_Z_mult, bpow_add. ring. }
    apply binary_round_aux_rounded; [exact prec_pos | exact prec_lt_emax |].
    pose proof (digits2_pos_mul ma mb) as Hd.
    pose proof (emin_nonpos prec emax prec_pos prec_lt_emax) as Hemin.
    assert (0 < Zpos (digits2_pos ma)) by lia. assert (0 < Zpos (digits2_pos mb)) by lia.
    unfold fexp. lia.
Qed.

Lemma SFadd_rounded a b :
  valid_binary prec emax a = true -> valid_binary prec emax b = true ->
  nonneg_finite a -> nonneg_finite b ->
  rounded prec emax (SF2Q a + SF2Q b) (SFadd prec emax a b).
Proof.
  intros Hva Hvb [-> | (ma & ea & ->)] [-> | (mb & eb & ->)]; cbn [SFadd].
  - apply rounded_zero. cbn. ring.
  - apply (rounded_ext prec emax (SF2Q (S754_finite false mb eb))); [cbn [SF2Q]; ring|].
    apply rounded_self; [exact Hvb | right; eauto].
  - apply (rounded_ext prec emax (SF2Q (S754_finite false ma ea))); [cbn [SF2Q]; ring|].
    apply rounded_self; [exact Hva | right; eauto].
  - cbn [cond_Zopp].
    pose proof (shl_align_value ma ea (Z.min ea eb)) as Hma.
    pose proof (shl_align_value mb eb (Z.min ea eb)) as Hmb.
    rewrite (proj1 (shl_align_spec ma ea (Z.min ea eb))) in Hma.
    rewrite (proj1 (shl_align_spec mb eb (Z.min ea eb))) in Hmb.
    replace (Z.min ea (Z.min ea eb)) with (Z.min ea eb) in Hma by lia.
    replace (Z.min eb (Z.min ea eb)) with (Z.min ea eb) in Hmb by lia.
    eapply rounded_ext; [|apply binary_normalize_rounded; [exact prec_pos|exact prec_lt_emax|lia]].
    cbn [SF2Q cond_Zopp]. rewrite F2Q_add, Hma, Hmb. reflexivity.
Qed.

Lemma SFsub_rounded a b :
  valid_binary prec emax a = true -> valid_binary prec emax b = true ->
  nonneg_finite a -> nonneg_finite b -> (SF2Q b <= SF2Q a)%Q ->
  rounded prec emax (SF2Q a - SF2Q b) (SFsub prec emax a b).
Proof.
  intros Hva Hvb [-> | (ma & ea & ->)] [-> | (mb & eb & ->)] Hle; cbn [SFsub].
  - apply rounded_zero. cbn. ring.
  - pose proof (SF2Q_finite_pos mb eb) as Hpos.
    change (SF2Q (S754_zero false)) with 0%Q in Hle. lra.
  - apply (rounded_ext prec emax (SF2Q (S754_finite false ma ea))); [cbn [SF2Q]; ring|].
    apply rounded_self; [exact Hva | right; eauto].
  - cbn [cond_Zopp].
    pose proof (shl_align_value ma ea (Z.min ea eb)) as Hma.
    pose proof (shl_align_value mb eb (Z.min ea eb)) as Hmb.
    rewrite (proj1 (shl_align_spec ma ea (Z.min ea eb))) in Hma.
    rewrite (proj1 (shl_align_spec mb eb (Z.min ea eb))) in Hmb.
    replace (Z.min ea (Z.min ea eb)) with (Z.min ea eb) in Hma by lia.
    replace (Z.min eb (Z.min ea eb)) with (Z.min ea eb) in Hmb by lia.
    cbn [SF2Q cond_Zopp] in Hle. rewrite <- Hma, <- Hmb in Hle.
    apply F2Q_le_inv in Hle.
    eapply rounded_ext; [|apply binary_normalize_rounded; [exact prec_pos|exact prec_lt_emax|lia]].
    cbn [SF2Q cond_Zopp]. rewrite <- Hma, <- Hmb. unfold F2Q, Z.sub.
    rewrite inject_Z_plus, inject_Z_opp. ring.
Qed.

Lemma of_Z_rounded n :
  0 <= n -> rounded prec emax (inject_Z n) (binary_normalize prec emax n 0 false).
Proof.
  intros Hn. eapply rounded_ext;
    [|apply binary_normalize_rounded; [exact prec_pos|exact prec_lt_emax|exact Hn]].
  unfold F2Q, bpow. cbn. ring.
Qed.

End Operations.

(** *** Validity, whatever the sign *)

Section Valid.

Variables prec emax : Z.
Hypothesis prec_pos : 0 < prec.
Hypothesis prec_lt_emax : prec < emax.

Lemma binary_round_aux_valid sx (p : positive) e :
  e <= fexp prec emax (Zpos (digits2_pos p) + e) ->
  valid_binary prec emax (binary_round_aux prec emax sx (Zpos p) e loc_Exact) = true.
Proof.
  intros He1.
  destruct (binary_round_aux_anchors prec emax prec_pos sx p e He1)
    as (m2 & e2 & -> & Hm2 & He2 & Hcan & _ & _).
  destruct m2 as [|pm|pm]; [reflexivity| |lia].
  specialize (Hcan ltac:(lia)). cbn [Zdigits2] in Hcan. unfold SFpack.
  destruct (Z.leb_spec e2 (emax - prec)) as [Hfit|Hover]; [|reflexivity].
  cbn [valid_binary]. unfold bounded, canonical_mantissa.
  rewrite Hcan, Z.eqb_refl. apply Z.leb_le, Hfit.
Qed.

Lemma binary_round_valid sx (mx : positive) e :
  valid_binary prec emax (binary_round prec emax sx mx e) = true.
Proof.
  unfold binary_round.
  pose proof (shl_align_spec mx e (fexp prec emax (Zpos (digits2_pos mx) + e))) as [He Hm].
  destruct (shl_align mx e (fexp prec emax (Zpos (digits2_pos mx) + e))) as [mz ez].
  cbn [fst snd] in He, Hm.
  apply binary_round_aux_valid.
  rewrite (digits2_pos_shift mx mz (e - Z.min e (fexp prec emax (Zpos (digits2_pos mx) + e))))
    by (subst ez; lia || exact Hm).
  subst ez.
  replace (Zpos (digits2_pos mx)
           + (e - Z.min e (fexp prec emax (Zpos (digits2_pos mx) + e)))
           + Z.min e (fexp prec emax (Zpos (digits2_pos mx) + e)))
    with (Zpos (digits2_pos mx) + e) by lia.
  lia.
Qed.

Lemma binary_normalize_valid m e s :
  valid_binary prec emax (binary_normalize prec emax m e s) = true.
Proof. destruct m; [reflexivity | apply binary_round_valid | apply binary_round_valid]. Qed.

Lemma SFsub_valid a b :
  valid_binary prec emax a = true -> valid_binary prec emax b = true ->
  valid_binary prec emax (SFsub prec emax a b) = true.
Proof.
  intros Ha Hb.
  destruct a as [sa|sa| |sa ma ea], b as [sb|sb| |sb mb eb]; cbn [SFsub];
    try reflexivity; try assumption;
    try (destruct sa, sb; reflexivity).
  apply binary_normalize_valid.
Qed.

(** A number of the format is returned unchanged. *)
Lemma rounded_exact x r :
  rounded prec emax x r -> in_format prec emax x -> nonneg_finite r /\ (SF2Q r == x)%Q.
Proof.
  intros (_ & _ & Hup & Hlo) Hx.
  destruct (Hup x Hx ltac:(lra)) as [Hfin Hle].
  split; [exact Hfin|]. pose proof (Hlo x Hx ltac:(lra) Hfin). lra.
Qed.

End Valid.

(** *** Conversions to integers *)

Lemma bpow_neg (p : positive) : (bpow (Zneg p) == / inject_Z (2 ^ Zpos p))%Q.
Proof.
  unfold bpow. change (Zneg p) with (- Zpos p). rewrite Qpower_opp.
  rewrite Zpower_Qpower by lia. reflexivity.
Qed.

Lemma Qfloor_F2Q (m : positive) e :
  Qfloor (F2Q (Zpos m) e)
  = match e with
    | Zneg p => Z.shiftr (Zpos m) (Zpos p)
    | _ => Z.shiftl (Zpos m) e
    end.
Proof.
  destruct e as [|p|p].
  - rewrite Z.shiftl_0_r. unfold F2Q.
    rewrite (Qfloor_comp _ (inject_Z (Zpos m))); [apply Qfloor_Z|].
    unfold bpow. cbn. ring.
  - rewrite Z.shiftl_mul_pow2 by lia. unfold F2Q.
    rewrite (Qfloor_comp _ (inject_Z (Zpos m * 2 ^ Zpos p))); [apply Qfloor_Z|].
    rewrite bpow_Z, inject_Z_mult by lia. reflexivity.
  - rewrite Z.shiftr_div_pow2 by lia. rewrite Zdiv_Qdiv. apply Qfloor_comp.
    unfold F2Q. rewrite bpow_neg. reflexivity.
Qed.

Lemma ftrunc_floor r : nonneg_finite r -> ftrunc r = Some (Qfloor (SF2Q r)).
Proof.
  intros [-> | (m & e & ->)]; [reflexivity|].
  cbn [ftrunc SF2Q cond_Zopp]. rewrite Qfloor_F2Q. reflexivity.
Qed.

Lemma static_cast_int_floor cvt_invalid r :
  nonneg_finite r -> (SF2Q r < inject_Z (2 ^ 31))%Q ->
  static_cast_int cvt_invalid r = Qfloor (SF2Q r).
Proof.
  intros Hr Hlt. unfold static_cast_int. rewrite (ftrunc_floor r Hr).
  pose proof (SF2Q_nonneg r Hr) as H0.
  assert (Hlo : 0 <= Qfloor (SF2Q r)).
  { rewrite <- (Qfloor_Z 0). apply Qfloor_resp_le. exact H0. }
  assert (Hhi : Qfloor (SF2Q r) < 2 ^ 31).
  { pose proof (Qfloor_le (SF2Q r)) as Hf. rewrite Zlt_Qlt. lra. }
  unfold INT_MIN, INT_MAX.
  destruct (Z.leb_spec (- 2 ^ 31) (Qfloor (SF2Q r))); [|lia].
  destruct (Z.leb_spec (Qfloor (SF2Q r)) (2 ^ 31 - 1)); [reflexivity|lia].
Qed.
Lemma F64_params : 0 < F64.prec /\ F64.prec < F64.emax.
Proof. unfold F64.prec, F64.emax. lia. Qed.

Lemma F32_params : 0 < F32.prec /\ F32.prec < F32.emax.
Proof. unfold F32.prec, F32.emax. lia. Qed.

Lemma in_format_F2Q prec emax m e :
  0 <= m < 2 ^ prec -> emin prec emax <= e <= emax - prec -> in_format prec emax (F2Q m e).
Proof. intros Hm He. exists m, e. repeat split; try lia. Qed.

Lemma in_format_Z prec emax n :
  0 < prec -> prec < emax -> 0 <= n < 2 ^ prec -> in_format prec emax (inject_Z n).
Proof.
  intros Hp He Hn. exists n, 0. unfold emin. repeat split; try lia.
  unfold F2Q, bpow. cbn. ring.
Qed.

Lemma valid_mantissa_bound prec emax s (m : positive) e :
  0 < prec -> valid_binary prec emax (S754_finite s m e) = true -> Zpos m < 2 ^ prec.
Proof.
  intros Hp Hv. destruct (valid_finite_facts prec emax s m e Hv) as (_ & Hd & _).
  pose proof (digits2_pos_bounds m) as Hb.
  assert (2 ^ Zpos (digits2_pos m) <= 2 ^ prec) by (apply Z.pow_le_mono_r; lia). lia.
Qed.

(** [std::floor] of a non-negative double is the integer part, exactly. *)
Lemma ffloor_spec x :
  F64.valid x -> nonneg_finite x ->
  F64.valid (ffloor x) /\ nonneg_finite (ffloor x)
  /\ (SF2Q (ffloor x) == inject_Z (Qfloor (SF2Q x)))%Q.
Proof.
  intros Hv [-> | (m & e & ->)].
  - split; [reflexivity|]. split; [left; reflexivity|]. cbn. reflexivity.
  - cbn [SF2Q cond_Zopp]. rewrite Qfloor_F2Q. destruct e as [|p|p].
    + split; [exact Hv|]. split; [right; eauto|].
      cbn [ffloor SF2Q cond_Zopp]. rewrite Z.shiftl_0_r. unfold F2Q, bpow. cbn. ring.
    + split; [exact Hv|]. split; [right; eauto|].
      cbn [ffloor SF2Q cond_Zopp]. rewrite Z.shiftl_mul_pow2 by lia. unfold F2Q.
      rewrite bpow_Z, inject_Z_mult by lia. reflexivity.
    + cbn [ffloor]. destruct F64_params as [Hp He].
      split; [apply binary_normalize_valid; assumption|].
      assert (Hn : 0 <= Z.shiftr (Zpos m) (Zpos p) < 2 ^ F64.prec).
      { rewrite Z.shiftr_div_pow2 by lia.
        pose proof (valid_mantissa_bound _ _ _ _ _ Hp Hv) as Hm.
        assert (Hpp : 0 < 2 ^ Zpos p) by (apply Z.pow_pos_nonneg; lia).
        split; [apply Z.div_pos; lia|].
        apply Z.le_lt_trans with (Zpos m); [|exact Hm].
        apply Z.div_le_upper_bound; [exact Hpp|]. nia. }
      apply (rounded_exact F64.prec F64.emax).
      * apply of_Z_rounded; [exact Hp | exact He | lia].
      * apply in_format_Z; assumption.
Qed.

(** Narrowing a non-negative double to [float]. *)
Lemma of_double_rounded d :
  nonneg_finite d -> rounded F32.prec F32.emax (SF2Q d) (F32.of_double d).
Proof.
  destruct F32_params as [Hp He].
  intros [-> | (m & e & ->)]; cbn [F32.of_double].
  - apply rounded_zero. reflexivity.
  - cbn [SF2Q cond_Zopp]. apply binary_round_rounded; assumption.
Qed.

(** Comparison of valid non-negative numbers follows their values. *)
Lemma SFleb_nonneg prec emax a b :
  0 < prec -> prec < emax ->
  valid_binary prec emax a = true -> valid_binary prec emax b = true ->
  nonneg_finite a -> nonneg_finite b -> (SF2Q a <= SF2Q b)%Q -> SFleb a b = true.
Proof.
  intros Hp He Hva Hvb [-> | (ma & ea & ->)] [-> | (mb & eb & ->)] Hle;
    try reflexivity.
  - pose proof (SF2Q_finite_pos ma ea) as Hpos.
    change (SF2Q (S754_zero false)) with 0%Q in Hle. lra.
  - unfold SFleb. cbn [SFcompare]. cbn [SF2Q cond_Zopp] in Hle.
    destruct (valid_finite_facts _ _ _ _ _ Hva) as (Hea & Hda & Hna).
    destruct (valid_finite_facts _ _ _ _ _ Hvb) as (Heb & Hdb & Hnb).
    pose proof (digits2_pos_bounds ma) as Hba. pose proof (digits2_pos_bounds mb) as Hbb.
    destruct (Z.compare_spec ea eb) as [Heq|Hlt|Hgt]; [|reflexivity|].
    + subst eb. apply F2Q_le_inv in Hle.
      change (Pos.compare_cont Eq ma mb) with (Pos.compare ma mb).
      destruct (Pos.compare_spec ma mb); try reflexivity. lia.
    + exfalso.
      assert (Hdig : Zpos (digits2_pos ma) = prec) by lia. rewrite Hdig in Hba.
      assert (H1 : (F2Q (Zpos mb) eb < F2Q (2 ^ prec) eb)%Q).
      { apply F2Q_lt.
        assert (2 ^ Zpos (digits2_pos mb) <= 2 ^ prec) by (apply Z.pow_le_mono_r; lia).
        lia. }
      assert (H2 : (F2Q (2 ^ prec) eb <= F2Q (2 ^ (prec - 1)) ea)%Q).
      { rewrite !F2Q_pow2 by lia. apply bpow_le. lia. }
      assert (H3 : (F2Q (2 ^ (prec - 1)) ea <= F2Q (Zpos ma) ea)%Q) by (apply F2Q_le; lia).
      lra.
Qed.
(** *** How far a rounding can move *)

Lemma bpow_inv k : (bpow k * bpow (- k) == 1)%Q.
Proof.
  rewrite <- bpow_add. replace (k + - k) with 0 by lia. reflexivity.
Qed.

(** On a grid of step [2^-k] that fits the format up to the bound [B], the
    rounded result stays within one step of the exact one. *)
Lemma rounded_near prec emax x r k B :
  0 < prec -> prec < emax ->
  rounded prec emax x r ->
  (0 <= x)%Q -> (x <= inject_Z B)%Q ->
  0 <= k -> B * 2 ^ k < 2 ^ prec -> emin prec emax <= - k ->
  valid_binary prec emax r = true /\ nonneg_finite r
  /\ (x - bpow (- k) < SF2Q r)%Q /\ (SF2Q r < x + bpow (- k))%Q.
Proof.
  intros Hp He (Hv & _ & Hup & Hlo) Hx0 HxB Hk HB Hemin.
  pose proof (bpow_pos k) as Hpk. pose proof (bpow_pos (- k)) as Hpmk.
  pose proof (bpow_inv k) as Hinv.
  assert (HxkB : (x * bpow k <= inject_Z (B * 2 ^ k))%Q).
  { rewrite inject_Z_mult, <- bpow_Z by lia. nra. }
  assert (Hxk0 : (0 <= x * bpow k)%Q) by nra.
  set (hi := Qceiling (x * bpow k)). set (lo := Qfloor (x * bpow k)).
  pose proof (Qle_ceiling (x * bpow k)) as Hc1. fold hi in Hc1.
  pose proof (Qceiling_lt (x * bpow k)) as Hc2. fold hi in Hc2.
  pose proof (Qfloor_le (x * bpow k)) as Hf1. fold lo in Hf1.
  pose proof (Qlt_floor (x * bpow k)) as Hf2. fold lo in Hf2.
  assert (Hhi : 0 <= hi <= B * 2 ^ k).
  { split.
    - rewrite <- (Qceiling_Z 0). apply Qceiling_resp_le. exact Hxk0.
    - rewrite <- (Qceiling_Z (B * 2 ^ k)). apply Qceiling_resp_le. exact HxkB. }
  assert (Hlo' : 0 <= lo <= B * 2 ^ k).
  { split.
    - rewrite <- (Qfloor_Z 0). apply Qfloor_resp_le. exact Hxk0.
    - rewrite <- (Qfloor_Z (B * 2 ^ k)). apply Qfloor_resp_le. exact HxkB. }
  rewrite inject_Z_plus in Hf2. unfold Z.sub in Hc2.
  rewrite inject_Z_plus, inject_Z_opp in Hc2.
  change (inject_Z 1) with 1%Q in *.
  destruct (Hup (F2Q hi (- k))) as [Hfin Hle].
  { apply in_format_F2Q; lia. }
  { unfold F2Q. nra. }
  pose proof (Hlo (F2Q lo (- k))) as Hge.
  split; [exact Hv|]. split; [exact Hfin|]. split.
  - assert (Hge' : (F2Q lo (- k) <= SF2Q r)%Q).
    { apply Hge; [apply in_format_F2Q; lia | unfold F2Q; nra | exact Hfin]. }
    unfold F2Q in Hge'. nra.
  - unfold F2Q in Hle. nra.
Qed.
(** *** The interpolated channel *)

Lemma inject_Z_byte c : 0 <= c <= 255 -> (0 <= inject_Z c <= 255)%Q.
Proof.
  intros Hc. split; [change 0%Q with (inject_Z 0) | change 255%Q with (inject_Z 255)];
    rewrite <- Zle_Qle; lia.
Qed.

Lemma F32_of_Z_exact n :
  0 <= n < 2 ^ 24 ->
  F32.valid (F32.of_Z n) /\ nonneg_finite (F32.of_Z n)
  /\ (SF2Q (F32.of_Z n) == inject_Z n)%Q.
Proof.
  intros Hn. destruct F32_params as [Hp He].
  pose proof (of_Z_rounded F32.prec F32.emax Hp He n ltac:(lia)) as Hr.
  split; [apply Hr|].
  apply (rounded_exact F32.prec F32.emax _ _ Hr).
  apply in_format_Z; assumption.
Qed.

Lemma bpow_m15 : (bpow (-15) == 1 # 32768)%Q.
Proof. reflexivity. Qed.

(** The float that [lerp_channel] truncates is within 1/64 of the exact
    linear interpolation [c1·(1 - f) + c2·f]. *)
Lemma lerp_float_near c1 c2 f :
  0 <= c1 <= 255 -> 0 <= c2 <= 255 ->
  F32.valid f -> nonneg_finite f -> (SF2Q f <= 1)%Q ->
  nonneg_finite (lerp_float c1 c2 f)
  /\ (inject_Z c1 * (1 - SF2Q f) + inject_Z c2 * SF2Q f - (1 # 64)
      < SF2Q (lerp_float c1 c2 f))%Q
  /\ (SF2Q (lerp_float c1 c2 f)
      < inject_Z c1 * (1 - SF2Q f) + inject_Z c2 * SF2Q f + (1 # 64))%Q.
Proof.
  intros Hc1 Hc2 Hvf Hf Hf1. destruct F32_params as [Hp He].
  pose proof (SF2Q_nonneg f Hf) as Hf0.
  assert (Hemin : emin F32.prec F32.emax <= - 15)
    by (unfold emin, F32.prec, F32.emax; lia).
  assert (H1pow : 1 * 2 ^ 15 < 2 ^ F32.prec) by (unfold F32.prec; lia).
  assert (H256pow : 256 * 2 ^ 15 < 2 ^ F32.prec) by (unfold F32.prec; lia).
  destruct (F32_of_Z_exact 1 ltac:(lia)) as (Hv1 & Hn1 & He1).
  destruct (F32_of_Z_exact c1 ltac:(lia)) as (Hva & Hna & Hea).
  destruct (F32_of_Z_exact c2 ltac:(lia)) as (Hvb & Hnb & Heb).
  pose proof (inject_Z_byte c1 Hc1) as HC1. pose proof (inject_Z_byte c2 Hc2) as HC2.
  change (inject_Z 1) with 1%Q in He1.
  (* g = 1 - f *)
  pose proof (SFsub_rounded F32.prec F32.emax Hp He _ _ Hv1 Hvf Hn1 Hf ltac:(lra)) as Hg.
  apply (rounded_near _ _ _ _ 15 1 Hp He) in Hg;
    [| lra | change (inject_Z 1) with 1%Q; lra | lia | exact H1pow | exact Hemin ].
  destruct Hg as (Hvg & Hng & Hg1 & Hg2). fold (F32.sub (F32.of_Z 1) f) in *.
  set (g := F32.sub (F32.of_Z 1) f) in *.
  pose proof (SF2Q_nonneg g Hng) as Hg0.
  rewrite bpow_m15 in Hg1, Hg2.
  (* p1 = c1 * g *)
  pose proof (SFmul_rounded F32.prec F32.emax Hp He _ _ Hva Hvg Hna Hng) as Hp1.
  apply (rounded_near _ _ _ _ 15 256 Hp He) in Hp1;
    [| nra | change (inject_Z 256) with 256%Q; nra | lia | exact H256pow | exact Hemin ].
  destruct Hp1 as (Hvp1 & Hnp1 & Hp11 & Hp12). fold (F32.mul (F32.of_Z c1) g) in *.
  set (p1 := F32.mul (F32.of_Z c1) g) in *.
  rewrite bpow_m15 in Hp11, Hp12.
  (* p2 = c2 * f *)
  pose proof (SFmul_rounded F32.prec F32.emax Hp He _ _ Hvb Hvf Hnb Hf) as Hp2.
  apply (rounded_near _ _ _ _ 15 256 Hp He) in Hp2;
    [| nra | change (inject_Z 256) with 256%Q; nra | lia | exact H256pow | exact Hemin ].
  destruct Hp2 as (Hvp2 & Hnp2 & Hp21 & Hp22). fold (F32.mul (F32.of_Z c2) f) in *.
  set (p2 := F32.mul (F32.of_Z c2) f) in *.
  rewrite bpow_m15 in Hp21, Hp22.
  (* the exact products, compared with the exact interpolation *)
  assert (Hd1 : (- (255 # 32768) <= SF2Q (F32.of_Z c1) * SF2Q g
                                    - inject_Z c1 * (1 - SF2Q f) <= 255 # 32768)%Q).
  { rewrite Hea. split; nra. }
  assert (Hd2 : (SF2Q (F32.of_Z c2) * SF2Q f == inject_Z c2 * SF2Q f)%Q)
    by (rewrite Heb; reflexivity).
  assert (HL : (0 <= inject_Z c1 * (1 - SF2Q f) + inject_Z c2 * SF2Q f <= 255)%Q).
  { split; nra. }
  (* s = p1 + p2 *)
  pose proof (SF2Q_nonneg p1 Hnp1) as Hp10. pose proof (SF2Q_nonneg p2 Hnp2) as Hp20.
  pose proof (SFadd_rounded F32.prec F32.emax Hp He _ _ Hvp1 Hvp2 Hnp1 Hnp2) as Hs.
  apply (rounded_near _ _ _ _ 15 256 Hp He) in Hs;
    [| lra | change (inject_Z 256) with 256%Q; lra | lia | exact H256pow | exact Hemin ].
  destruct Hs as (Hvs & Hns & Hs1 & Hs2). fold (F32.add p1 p2) in *.
  rewrite bpow_m15 in Hs1, Hs2.
  unfold lerp_float. fold g p1 p2.
  split; [exact Hns|]. split; lra.
Qed.

Lemma lerp_channel_range cvt_invalid c1 c2 f :
  0 <= c1 <= 255 -> 0 <= c2 <= 255 ->
  F32.valid f -> nonneg_finite f -> (SF2Q f <= 1)%Q ->
  0 <= lerp_channel cvt_invalid c1 c2 f <= 255.
Proof.
  intros Hc1 Hc2 Hvf Hf Hf1.
  destruct (lerp_float_near c1 c2 f Hc1 Hc2 Hvf Hf Hf1) as (Hn & Hlo & Hhi).
  pose proof (SF2Q_nonneg f Hf) as Hf0. pose proof (SF2Q_nonneg _ Hn) as Hs0.
  pose proof (inject_Z_byte c1 Hc1) as HC1. pose proof (inject_Z_byte c2 Hc2) as HC2.
  assert (Hs256 : (SF2Q (lerp_float c1 c2 f) < 256)%Q) by nra.
  change (lerp_channel cvt_invalid c1 c2 f)
    with (static_cast_int cvt_invalid (lerp_float c1 c2 f)).
  rewrite static_cast_int_floor;
    [| exact Hn | change (inject_Z (2 ^ 31)) with 2147483648%Q; lra].
  split.
  - rewrite <- (Qfloor_Z 0). apply Qfloor_resp_le. exact Hs0.
  - pose proof (Qfloor_le (SF2Q (lerp_float c1 c2 f))) as Hfl.
    assert (Hlt : (inject_Z (Qfloor (SF2Q (lerp_float c1 c2 f))) < inject_Z 256)%Q)
      by (change (inject_Z 256) with 256%Q; lra).
    rewrite <- Zlt_Qlt in Hlt. lia.
Qed.
(** ** The smooth colour *)

(** [std::max(0.0, t)] is never NaN and never negative: it is [+0], a
    positive number or [+inf]. *)
Lemma continuous_index_shape i nu :
  F64.valid nu ->
  F64.valid (continuous_index i nu)
  /\ (nonneg_finite (continuous_index i nu) \/ continuous_index i nu = S754_infinity false).
Proof.
  intros Hnu. destruct F64_params as [Hp He]. unfold continuous_index, fmax, flt.
  assert (Hvt : F64.valid (F64.sub (F64.of_Z (add32 i 1)) nu)).
  { apply SFsub_valid; [exact Hp | | exact Hnu].
    apply binary_normalize_valid, Hp. }
  change (F64.of_Z 0) with (S754_zero false).
  destruct (F64.sub (F64.of_Z (add32 i 1)) nu) as [s|s| |s m e];
    cbn [SFltb SFcompare]; try destruct s; cbn;
    first [ solve [split; [reflexivity | left; left; reflexivity]]
          | solve [split; [exact Hvt | left; right; eauto]]
          | solve [split; [exact Hvt | right; reflexivity]] ].
Qed.

Lemma continuous_index_nonneg i nu :
  F64.valid nu -> SFleb (F64.of_Z 0) (continuous_index i nu) = true.
Proof.
  intros Hnu.
  destruct (continuous_index_shape i nu Hnu) as [_ [[-> | (m & e & ->)] | ->]];
    reflexivity.
Qed.

(** The fraction of a finite index is a float in [[0, 1]]. *)
Lemma smooth_fraction_range ci :
  F64.valid ci -> nonneg_finite ci ->
  F32.valid (smooth_fraction ci) /\ nonneg_finite (smooth_fraction ci)
  /\ (SF2Q (smooth_fraction ci) <= 1)%Q.
Proof.
  intros Hv Hci. destruct F64_params as [Hp He]. destruct F32_params as [Hp' He'].
  destruct (ffloor_spec ci Hv Hci) as (Hvf & Hnf & Hfl).
  pose proof (Qfloor_le (SF2Q ci)) as Hlo. pose proof (Qlt_floor (SF2Q ci)) as Hhi.
  rewrite inject_Z_plus in Hhi. change (inject_Z 1) with 1%Q in Hhi.
  pose proof (SFsub_rounded F64.prec F64.emax Hp He ci (ffloor ci) Hv Hvf Hci Hnf
                ltac:(lra)) as (Hvd & _ & Hup & _).
  destruct (Hup 1%Q) as [Hnd Hd1].
  { change 1%Q with (inject_Z 1). apply in_format_Z; [exact Hp | exact He |].
    unfold F64.prec. lia. }
  { lra. }
  fold (F64.sub ci (ffloor ci)) in *.
  pose proof (of_double_rounded (F64.sub ci (ffloor ci)) Hnd) as (Hvr & _ & Hup' & _).
  destruct (Hup' 1%Q) as [Hnr Hr1].
  { change 1%Q with (inject_Z 1). apply in_format_Z; [exact Hp' | exact He' |].
    unfold F32.prec. lia. }
  { exact Hd1. }
  unfold smooth_fraction. repeat split; assumption.
Qed.

Lemma smooth_fraction_in_unit ci :
  F64.valid ci -> nonneg_finite ci ->
  SFleb (F32.of_Z 0) (smooth_fraction ci) = true
  /\ SFleb (smooth_fraction ci) (F32.of_Z 1) = true.
Proof.
  intros Hv Hci. destruct F32_params as [Hp He].
  destruct (smooth_fraction_range ci Hv Hci) as (Hvf & Hnf & Hf1).
  destruct (F32_of_Z_exact 0 ltac:(lia)) as (Hv0 & Hn0 & He0).
  destruct (F32_of_Z_exact 1 ltac:(lia)) as (Hv1 & Hn1 & He1).
  split; apply (SFleb_nonneg F32.prec F32.emax); try assumption.
  - rewrite He0. apply SF2Q_nonneg, Hnf.
  - rewrite He1. exact Hf1.
Qed.

(** ** Interpolation between the two palette entries *)

(** The channel is the exact interpolation [c1·(1 - f) + c2·f] truncated, up
    to 1/64 of rounding. *)
Lemma lerp_channel_near cvt_invalid c1 c2 f :
  0 <= c1 <= 255 -> 0 <= c2 <= 255 ->
  F32.valid f -> nonneg_finite f -> (SF2Q f <= 1)%Q ->
  (inject_Z c1 * (1 - SF2Q f) + inject_Z c2 * SF2Q f - (65 # 64)
   < inject_Z (lerp_channel cvt_invalid c1 c2 f))%Q
  /\ (inject_Z (lerp_channel cvt_invalid c1 c2 f)
      < inject_Z c1 * (1 - SF2Q f) + inject_Z c2 * SF2Q f + (1 # 64))%Q.
Proof.
  intros Hc1 Hc2 Hvf Hf Hf1.
  destruct (lerp_float_near c1 c2 f Hc1 Hc2 Hvf Hf Hf1) as (Hn & Hlo & Hhi).
  pose proof (SF2Q_nonneg f Hf) as Hf0.
  pose proof (inject_Z_byte c1 Hc1) as HC1. pose proof (inject_Z_byte c2 Hc2) as HC2.
  assert (Hs256 : (SF2Q (lerp_float c1 c2 f) < 256)%Q) by nra.
  change (lerp_channel cvt_invalid c1 c2 f)
    with (static_cast_int cvt_invalid (lerp_float c1 c2 f)).
  rewrite static_cast_int_floor;
    [| exact Hn | change (inject_Z (2 ^ 31)) with 2147483648%Q; lra].
  pose proof (Qfloor_le (SF2Q (lerp_float c1 c2 f))) as Hfl.
  pose proof (Qlt_floor (SF2Q (lerp_float c1 c2 f))) as Hfu.
  rewrite inject_Z_plus in Hfu. change (inject_Z 1) with 1%Q in Hfu.
  split; lra.
Qed.

(** The distance to the channel of the second entry shrinks with
    [1 - f], down to the unit lost by the truncation. *)
Lemma lerp_channel_approaches cvt_invalid c1 c2 f :
  0 <= c1 <= 255 -> 0 <= c2 <= 255 ->
  F32.valid f -> nonneg_finite f -> (SF2Q f <= 1)%Q ->
  (Qabs (inject_Z (lerp_channel cvt_invalid c1 c2 f) - inject_Z c2)
   <= Qabs (inject_Z c1 - inject_Z c2) * (1 - SF2Q f) + (65 # 64))%Q.
Proof.
  intros Hc1 Hc2 Hvf Hf Hf1.
  destruct (lerp_channel_near cvt_invalid c1 c2 f Hc1 Hc2 Hvf Hf Hf1) as [Hlo Hhi].
  pose proof (SF2Q_nonneg f Hf) as Hf0.
  pose proof (Qle_Qabs (inject_Z c1 - inject_Z c2)) as Habs1.
  pose proof (Qle_Qabs (- (inject_Z c1 - inject_Z c2))) as Habs2.
  rewrite Qabs_opp in Habs2.
  apply Qabs_Qle_condition. split; nra.
Qed.
Lemma finite_nonneg_index ci :
  (nonneg_finite ci \/ ci = S754_infinity false) -> is_finite ci = true -> nonneg_finite ci.
Proof. intros [H | ->] Hfin; [exact H | discriminate Hfin]. Qed.

(** C10, as the code has it: with [1 <= maxIterations <= 2^30] and a palette
    of [maxIterations + 1] entries, the continuous index is never NaN and
    never negative; whenever it is finite (that is, unless [nu] is [-inf]) the
    fraction is a float in [[0, 1]], each interpolated channel lies in
    [[0, 255]], and the packed colour has alpha byte [0xFF] and exactly these
    three channel bytes; and when the index is also below [2^31] its
    conversion to [int] is its floor. *)
Theorem smooth_color_invariants cvt_invalid colorPalette maxIterations colorOffset i nu :
  1 <= maxIterations <= 2 ^ 30 ->
  Z.of_nat (length colorPalette) = maxIterations + 1 ->
  F64.valid nu ->
  SFleb (F64.of_Z 0) (continuous_index i nu) = true
  /\ (is_finite (continuous_index i nu) = true ->
      ((SF2Q (continuous_index i nu) < inject_Z (2 ^ 31))%Q ->
         static_cast_int cvt_invalid (continuous_index i nu)
           = Qfloor (SF2Q (continuous_index i nu))
         /\ (SF2Q (ffloor (continuous_index i nu))
             == inject_Z (static_cast_int cvt_invalid (continuous_index i nu)))%Q)
      /\ SFleb (F32.of_Z 0) (smooth_fraction (continuous_index i nu)) = true
      /\ SFleb (smooth_fraction (continuous_index i nu)) (F32.of_Z 1) = true
      /\ exists color1 color2 r g b,
           read colorPalette
             (palette_index (static_cast_int cvt_invalid (continuous_index i nu))
                colorOffset maxIterations) = Some color1
           /\ read colorPalette
                (palette_index
                   (add32 (static_cast_int cvt_invalid (continuous_index i nu)) 1)
                   colorOffset maxIterations) = Some color2
           /\ r = lerp_channel cvt_invalid (Colors.r color1) (Colors.r color2)
                    (smooth_fraction (continuous_index i nu))
           /\ g = lerp_channel cvt_invalid (Colors.g color1) (Colors.g color2)
                    (smooth_fraction (continuous_index i nu))
           /\ b = lerp_channel cvt_invalid (Colors.b color1) (Colors.b color2)
                    (smooth_fraction (continuous_index i nu))
           /\ 0 <= r <= 255 /\ 0 <= g <= 255 /\ 0 <= b <= 255
           /\ smooth_color cvt_invalid colorPalette maxIterations colorOffset i nu
              = Some (Colors.rgb r g b)
           /\ Z.land (Z.shiftr (Colors.rgb r g b) 24) 255 = 255
           /\ Colors.r (Colors.rgb r g b) = r
           /\ Colors.g (Colors.rgb r g b) = g
           /\ Colors.b (Colors.rgb r g b) = b).
Proof.
  intros Hmax Hpal Hnu.
  split; [apply continuous_index_nonneg, Hnu|].
  intros Hfin. destruct (continuous_index_shape i nu Hnu) as [Hv Hshape].
  pose proof (finite_nonneg_index _ Hshape Hfin) as Hci.
  set (ci := continuous_index i nu) in *.
  split.
  { intros Hlt. rewrite (static_cast_int_floor cvt_invalid ci Hci Hlt).
    split; [reflexivity|]. apply (ffloor_spec ci Hv Hci). }
  destruct (smooth_fraction_in_unit ci Hv Hci) as [Hf0 Hf1].
  split; [exact Hf0|]. split; [exact Hf1|].
  destruct (smooth_fraction_range ci Hv Hci) as (Hvf & Hnf & Hle).
  destruct (palette_read_wrapped maxIterations colorPalette Hmax Hpal
              (static_cast_int cvt_invalid ci) colorOffset) as [color1 H1].
  destruct (palette_read_wrapped maxIterations colorPalette Hmax Hpal
              (add32 (static_cast_int cvt_invalid ci) 1) colorOffset) as [color2 H2].
  exists color1, color2. eexists _, _, _.
  split; [exact H1|]. split; [exact H2|].
  split; [reflexivity|]. split; [reflexivity|]. split; [reflexivity|].
  pose proof (lerp_channel_range cvt_invalid (Colors.r color1) (Colors.r color2) _
                (Colors_r_range color1) (Colors_r_range color2) Hvf Hnf Hle) as Hr.
  pose proof (lerp_channel_range cvt_invalid (Colors.g color1) (Colors.g color2) _
                (Colors_g_range color1) (Colors_g_range color2) Hvf Hnf Hle) as Hg.
  pose proof (lerp_channel_range cvt_invalid (Colors.b color1) (Colors.b color2) _
                (Colors_b_range color1) (Colors_b_range color2) Hvf Hnf Hle) as Hb.
  split; [exact Hr|]. split; [exact Hg|]. split; [exact Hb|].
  split.
  { unfold smooth_color. fold ci. rewrite H1, H2. reflexivity. }
  destruct (rgb_channels _ _ _ Hr Hg Hb) as (Hcr & Hcg & Hcb & Ha).
  repeat split; assumption.
Qed.

Lemma smooth_color_invariants_witness :
  SFleb (F64.of_Z 0) (continuous_index 3 (F64.div (F64.of_Z 1) (F64.of_Z 4))) = true
  /\ static_cast_int cvt_invalid_arm
       (continuous_index 3 (F64.div (F64.of_Z 1) (F64.of_Z 4))) = 3
  /\ exists r g b,
       0 <= r <= 255 /\ 0 <= g <= 255 /\ 0 <= b <= 255
       /\ smooth_color cvt_invalid_arm (grey_palette 50) 50 0 3
            (F64.div (F64.of_Z 1) (F64.of_Z 4)) = Some (Colors.rgb r g b).
Proof.
  destruct (smooth_color_invariants cvt_invalid_arm (grey_palette 50) 50 0 3
              (F64.div (F64.of_Z 1) (F64.of_Z 4)))
    as [Hnonneg Hrest].
  - lia.
  - vm_compute. reflexivity.
  - vm_compute. reflexivity.
  - split; [exact Hnonneg|]. split; [vm_compute; reflexivity|].
    destruct (Hrest eq_refl)
      as (_ & _ & _ & color1 & color2 & r & g & b & _ & _ & _ & _ & _
          & Hr & Hg & Hb & Hcol & _).
    exists r, g, b. repeat split; try apply Hr; try apply Hg; try apply Hb. exact Hcol.
Defined.

(** The pixel [c = 1 + 0i] with [escapeRadiusSquared = 0.5] escapes after one
    step at [z = 1], so [magSq = 1]. On the exact path [logZn = log2(1)/2 = 0]
    and [nu = log2(0)/1 = -inf]; the continuous index is [+inf], its fraction
    [inf - inf] is NaN, which is not in [[0, 1]], and where the conversion
    of NaN gives [INT_MIN] the interpolated channel is not in [[0, 255]]. *)
Lemma smooth_fraction_nan_at_one :
  evaluate_pixel 0 0 (constant_transform (F64.of_Z 1) (F64.of_Z 0)) 50
    (F64.div (F64.of_Z 1) (F64.of_Z 2))
    = (F64.of_Z 1, S754_zero false, 1)
  /\ smooth_nu log2_ref cvt_invalid_x86 tables_zero false
       (F64.add (F64.mul (F64.of_Z 1) (F64.of_Z 1))
                (F64.mul (S754_zero false) (S754_zero false)))
       magnitude_scale loglog_scale (log2_ref (F64.of_Z 2))
     = Some (S754_infinity true)
  /\ continuous_index 1 (S754_infinity true) = S754_infinity false
  /\ smooth_fraction (S754_infinity false) = S754_nan
  /\ SFleb (F32.of_Z 0) S754_nan = false
  /\ SFleb S754_nan (F32.of_Z 1) = false
  /\ lerp_channel cvt_invalid_x86 10 20 S754_nan = INT_MIN.
Proof. repeat split; vm_compute; reflexivity. Qed.

(** C8: when the fraction is [0.0] the red, green and blue channels of the
    smooth colour are exactly those of [palette[index1]]; at fraction [1.0]
    they are exactly those of [palette[index2]]; and in between each channel
    is within [|c1 - c2|·(1 - fraction) + 65/64] of the channel of
    [palette[index2]], so it approaches that channel, up to the truncation, as
    the fraction approaches [1.0]. *)
Theorem interpolation_between_palette_entries
    cvt_invalid colorPalette maxIterations colorOffset i nu color1 color2 color :
  F64.valid nu ->
  read colorPalette
    (palette_index (static_cast_int cvt_invalid (continuous_index i nu))
       colorOffset maxIterations) = Some color1 ->
  read colorPalette
    (palette_index (add32 (static_cast_int cvt_invalid (continuous_index i nu)) 1)
       colorOffset maxIterations) = Some color2 ->
  smooth_color cvt_invalid colorPalette maxIterations colorOffset i nu = Some color ->
  (SFeqb (smooth_fraction (continuous_index i nu)) (F32.of_Z 0) = true ->
     Colors.r color = Colors.r color1
     /\ Colors.g color = Colors.g color1
     /\ Colors.b color = Colors.b color1)
  /\ (smooth_fraction (continuous_index i nu) = F32.of_Z 1 ->
     Colors.r color = Colors.r color2
     /\ Colors.g color = Colors.g color2
     /\ Colors.b color = Colors.b color2)
  /\ (is_finite (continuous_index i nu) = true ->
     (Qabs (inject_Z (Colors.r color) - inject_Z (Colors.r color2))
      <= Qabs (inject_Z (Colors.r color1) - inject_Z (Colors.r color2))
         * (1 - SF2Q (smooth_fraction (continuous_index i nu))) + (65 # 64))%Q
     /\ (Qabs (inject_Z (Colors.g color) - inject_Z (Colors.g color2))
         <= Qabs (inject_Z (Colors.g color1) - inject_Z (Colors.g color2))
            * (1 - SF2Q (smooth_fraction (continuous_index i nu))) + (65 # 64))%Q
     /\ (Qabs (inject_Z (Colors.b color) - inject_Z (Colors.b color2))
         <= Qabs (inject_Z (Colors.b color1) - inject_Z (Colors.b color2))
            * (1 - SF2Q (smooth_fraction (continuous_index i nu))) + (65 # 64))%Q).
Proof.
  intros Hnu H1 H2. unfold smooth_color. rewrite H1, H2. cbn [mbind option_bind].
  intros [= <-].
  pose proof (Colors_r_range color1) as Hr1. pose proof (Colors_g_range color1) as Hg1.
  pose proof (Colors_b_range color1) as Hb1. pose proof (Colors_r_range color2) as Hr2.
  pose proof (Colors_g_range color2) as Hg2. pose proof (Colors_b_range color2) as Hb2.
  split; [|split].
  - intros [s ->]%zero_fraction_cases.
    rewrite !lerp_channel_zero by assumption.
    destruct (rgb_channels (Colors.r color1) (Colors.g color1) (Colors.b color1))
      as (Hr & Hg & Hb & _); auto.
  - intros ->.
    rewrite !lerp_channel_one by assumption.
    destruct (rgb_channels (Colors.r color2) (Colors.g color2) (Colors.b color2))
      as (Hr & Hg & Hb & _); auto.
  - intros Hfin. destruct (continuous_index_shape i nu Hnu) as [Hv Hshape].
    pose proof (finite_nonneg_index _ Hshape Hfin) as Hci.
    destruct (smooth_fraction_range _ Hv Hci) as (Hvf & Hnf & Hle).
    set (f := smooth_fraction (continuous_index i nu)) in *.
    pose proof (lerp_channel_range cvt_invalid _ _ f Hr1 Hr2 Hvf Hnf Hle) as Hr.
    pose proof (lerp_channel_range cvt_invalid _ _ f Hg1 Hg2 Hvf Hnf Hle) as Hg.
    pose proof (lerp_channel_range cvt_invalid _ _ f Hb1 Hb2 Hvf Hnf Hle) as Hb.
    destruct (rgb_channels _ _ _ Hr Hg Hb) as (-> & -> & -> & _).
    repeat split; apply lerp_channel_approaches; assumption.
Qed.

Lemma interpolation_between_palette_entries_witness :
  exists color,
    smooth_color cvt_invalid_arm (grey_palette 50) 50 0 3 (S754_zero false) = Some color
    /\ Colors.r color = 4 /\ Colors.g color = 4 /\ Colors.b color = 4.
Proof.
  eexists. split; [vm_compute; reflexivity|].
  apply (interpolation_between_palette_entries cvt_invalid_arm (grey_palette 50) 50 0 3
           (S754_zero false) (Colors.rgb 4 4 4) (Colors.rgb 5 5 5));
    vm_compute; reflexivity.
Defined.

(** ** Division

    The quotient of two positive numbers is rounded from a mantissa and the
    location of the exact value above it, so the shape and the anchors of a
    rounding are needed for any starting location. *)

Lemma new_location_exact nb k : new_location nb k = loc_Exact <-> k = 0.
Proof.
  unfold new_location, new_location_even, new_location_odd.
  destruct (Z.even nb); destruct (Z.eqb_spec k 0) as [Hk|Hk];
    split; intros H; try assumption; try reflexivity; try discriminate H; contradiction.
Qed.

Section Division.

Variables prec emax : Z.
Hypothesis prec_pos : 0 < prec.
Hypothesis prec_lt_emax : prec < emax.

Lemma shr_fexp_loc_spec m e l :
  0 <= m ->
  exists mrs,
    shr_fexp prec emax m e l
      = (mrs, e + Z.max 0 (fexp prec emax (Zdigits2 m + e) - e))
    /\ shr_m mrs = m / 2 ^ Z.max 0 (fexp prec emax (Zdigits2 m + e) - e)
    /\ (l = loc_Exact ->
        m mod 2 ^ Z.max 0 (fexp prec emax (Zdigits2 m + e) - e) = 0 -> shr_exact mrs).
Proof.
  intros Hm. unfold shr_fexp, shr.
  assert (Hrec : shr_m (shr_record_of_loc m l) = m) by (destruct l as [|[| |]]; reflexivity).
  assert (Hex : l = loc_Exact -> shr_exact (shr_record_of_loc m l))
    by (intros ->; split; reflexivity).
  destruct (fexp prec emax (Zdigits2 m + e) - e) as [|n|n] eqn:Hn.
  - eexists. split; [rewrite Z.add_0_r; reflexivity|]. cbn [Z.max].
    rewrite Z.pow_0_r, Z.div_1_r. split; [exact Hrec|]. intros Hl _. apply Hex, Hl.
  - destruct (iter_shr_1_spec n (shr_record_of_loc m l) ltac:(lia)) as [Hdiv Hkeep].
    eexists. split; [reflexivity|]. rewrite Hrec in Hdiv, Hkeep.
    split; [exact Hdiv|]. intros Hl Hmod. apply Hkeep; [apply Hex, Hl | exact Hmod].
  - eexists. split; [rewrite Z.add_0_r; reflexivity|]. cbn [Z.max].
    rewrite Z.pow_0_r, Z.div_1_r. split; [exact Hrec|]. intros Hl _. apply Hex, Hl.
Qed.

(** The shape of a rounding that starts from any location: the mantissa [p]
    is cut to the exponent
    [e1 = fexp (digits p + ex)], which leaves [q = p / 2^(e1 - ex)] below
    [2^prec]; the result is [q] or [q + 1] at exponent [e1], renormalised when
    [q + 1] is [2^prec]. *)
Lemma binary_round_aux_loc_shape sx (p : positive) ex lx :
  ex <= fexp prec emax (Zpos (digits2_pos p) + ex) ->
  exists m2 e2 mr,
    binary_round_aux prec emax sx (Zpos p) ex lx = SFpack prec emax sx m2 e2
    /\ (mr = Zpos p / 2 ^ (fexp prec emax (Zpos (digits2_pos p) + ex) - ex)
        \/ mr = Zpos p / 2 ^ (fexp prec emax (Zpos (digits2_pos p) + ex) - ex) + 1)
    /\ (lx = loc_Exact ->
        Zpos p mod 2 ^ (fexp prec emax (Zpos (digits2_pos p) + ex) - ex) = 0 ->
        mr = Zpos p / 2 ^ (fexp prec emax (Zpos (digits2_pos p) + ex) - ex))
    /\ ((m2 = mr /\ e2 = fexp prec emax (Zpos (digits2_pos p) + ex))
        \/ (mr = 2 ^ prec /\ m2 = 2 ^ (prec - 1)
            /\ e2 = fexp prec emax (Zpos (digits2_pos p) + ex) + 1))
    /\ 0 <= m2 < 2 ^ prec
    /\ (m2 <> 0 -> fexp prec emax (Zdigits2 m2 + e2) = e2)
    /\ Zpos p / 2 ^ (fexp prec emax (Zpos (digits2_pos p) + ex) - ex) < 2 ^ prec
    /\ (emin prec emax < fexp prec emax (Zpos (digits2_pos p) + ex) ->
        2 ^ (prec - 1) <= Zpos p / 2 ^ (fexp prec emax (Zpos (digits2_pos p) + ex) - ex)).
Proof.
  set (d := Zpos (digits2_pos p)). set (e1 := fexp prec emax (d + ex)).
  intros He1. set (n := e1 - ex). set (q := Zpos p / 2 ^ n).
  pose proof (digits2_pos_bounds p) as Hd. fold d in Hd.
  assert (Hn : 0 <= n) by (unfold n; lia).
  assert (Hpn : 0 < 2 ^ n) by (apply Z.pow_pos_nonneg; lia).
  assert (Hemin : emin prec emax <= e1) by apply fexp_ge_emin.
  assert (Hq0 : 0 <= q) by (apply Z.div_pos; lia).
  assert (Hqhi : q < 2 ^ prec).
  { apply Z.div_lt_upper_bound; [exact Hpn|].
    rewrite <- Z.pow_add_r by lia.
    assert (2 ^ d <= 2 ^ (n + prec)) by (apply Z.pow_le_mono_r; unfold n, e1, fexp; lia).
    lia. }
  assert (Hqlo : emin prec emax < e1 -> 2 ^ (prec - 1) <= q).
  { intros Hnorm. apply Z.div_le_lower_bound; [exact Hpn|].
    rewrite <- Z.pow_add_r by lia.
    replace (n + (prec - 1)) with (d - 1) by (unfold n, e1, fexp in *; lia). lia. }
  unfold binary_round_aux.
  destruct (shr_fexp_loc_spec (Zpos p) ex lx ltac:(lia)) as (mrs1 & Hs1 & Hm1 & Hx1).
  cbn [Zdigits2] in Hs1, Hm1, Hx1. fold d e1 n in Hs1, Hm1, Hx1.
  rewrite (Z.max_r 0 n) in Hs1, Hm1, Hx1 by lia.
  replace (ex + n) with e1 in Hs1 by (unfold n; lia). fold q in Hm1.
  rewrite Hs1.
  destruct (rne_spec mrs1) as [Hmr Hmrx].
  set (mr := round_nearest_even (shr_m mrs1) (loc_of_shr_record mrs1)) in *.
  rewrite Hm1 in Hmr, Hmrx.
  assert (Hmr0 : 0 <= mr <= 2 ^ prec) by lia.
  destruct (shr_fexp_loc_spec mr e1 loc_Exact ltac:(lia)) as (mrs2 & Hs2 & Hm2 & _).
  rewrite Hs2.
  assert (Hcase : (shr_m mrs2 = mr /\ e1 + Z.max 0 (fexp prec emax (Zdigits2 mr + e1) - e1) = e1
                   /\ mr < 2 ^ prec
                   /\ (mr <> 0 -> fexp prec emax (Zdigits2 mr + e1) = e1))
                  \/ (mr = 2 ^ prec /\ shr_m mrs2 = 2 ^ (prec - 1)
                      /\ e1 + Z.max 0 (fexp prec emax (Zdigits2 mr + e1) - e1) = e1 + 1)).
  { destruct (Z.eq_dec mr (2 ^ prec)) as [Hfull|Hpart].
    - right. split; [exact Hfull|].
      assert (Hdig : Zdigits2 mr = prec + 1).
      { destruct mr as [|pm|pm]; [pose proof (Z.pow_pos_nonneg 2 prec); lia| |lia].
        cbn [Zdigits2]. apply digits2_pos_unique. rewrite Hfull.
        replace (prec + 1 - 1) with prec by lia.
        rewrite Z.pow_add_r, Z.pow_1_r by lia.
        pose proof (Z.pow_pos_nonneg 2 prec). lia. }
      rewrite Hdig in Hm2 |- *.
      replace (fexp prec emax (prec + 1 + e1) - e1) with 1 in * by (unfold fexp; lia).
      cbn [Z.max] in Hm2 |- *. change (Z.max 0 1) with 1 in *.
      split; [|reflexivity]. rewrite Hm2, Hfull, Z.pow_1_r.
      replace prec with (Z.succ (prec - 1)) at 1 by lia.
      rewrite Z.pow_succ_r by lia. rewrite Z.mul_comm, Z.div_mul by lia. reflexivity.
    - left.
      assert (Hdig : Zdigits2 mr <= prec
                     /\ (mr <> 0 -> emin prec emax < e1 -> Zdigits2 mr = prec)).
      { destruct mr as [|pm|pm]; [cbn; lia| |lia]. cbn [Zdigits2].
        pose proof (digits2_pos_bounds pm) as Hpm.
        assert (Hle : Zpos (digits2_pos pm) <= prec).
        { destruct (Z_lt_le_dec prec (Zpos (digits2_pos pm))) as [Hgt|Hle]; [|exact Hle].
          assert (2 ^ prec <= 2 ^ (Zpos (digits2_pos pm) - 1))
            by (apply Z.pow_le_mono_r; lia). lia. }
        split; [exact Hle|]. intros _ Hnorm. specialize (Hqlo Hnorm).
        destruct (Z_lt_le_dec (Zpos (digits2_pos pm)) prec) as [Hlt|Hge]; [|lia].
        assert (2 ^ Zpos (digits2_pos pm) <= 2 ^ (prec - 1))
          by (apply Z.pow_le_mono_r; lia). lia. }
      destruct Hdig as [Hdle Hdeq].
      pose proof (fexp_small prec emax (Zdigits2 mr) e1 Hdle Hemin) as Hsmall.
      rewrite (Z.max_l 0 _) in Hm2 |- * by lia.
      rewrite Z.pow_0_r, Z.div_1_r in Hm2.
      split; [exact Hm2|]. split; [lia|]. split; [lia|].
      intros Hnz. destruct (Z.eq_dec e1 (emin prec emax)) as [Hsub|Hnorm].
      + unfold fexp in *. lia.
      + rewrite Hdeq by lia. unfold fexp in *. lia. }
  exists (shr_m mrs2), (e1 + Z.max 0 (fexp prec emax (Zdigits2 mr + e1) - e1)), mr.
  split; [unfold SFpack; reflexivity|].
  split; [exact Hmr|]. split; [intros Hloc Hmod; apply Hmrx, Hx1; assumption|].
  destruct Hcase as [(Hm & He & Hlt & Hcan) | (Hfull & Hm & He)].
  - rewrite Hm, He. split; [left; split; reflexivity|].
    split; [lia|]. split; [exact Hcan|]. split; [exact Hqhi | exact Hqlo].
  - rewrite Hm, He. split; [right; repeat split; assumption|].
    assert (Hhalf : 0 < 2 ^ (prec - 1) < 2 ^ prec).
    { split; [apply Z.pow_pos_nonneg; lia | apply Z.pow_lt_mono_r; lia]. }
    split; [lia|]. split; [|split; [exact Hqhi | exact Hqlo]].
    intros _.
    assert (Hdig : Zdigits2 (2 ^ (prec - 1)) = prec).
    { destruct (2 ^ (prec - 1)) as [|pm|pm] eqn:Hpm; [lia| |lia].
      cbn [Zdigits2]. apply digits2_pos_unique. rewrite <- Hpm. lia. }
    rewrite Hdig. unfold fexp in *. lia.
Qed.




(** The anchors of a rounding that starts from the mantissa [p] and the
    location [lx] of the exact value [x] in [[p, p + 1)] at exponent [ex]:
    no number of the format lies strictly between [x] and the result. *)
Lemma binary_round_aux_loc_anchors (p : positive) ex lx (x : Q) :
  ex <= fexp prec emax (Zpos (digits2_pos p) + ex) ->
  (F2Q (Zpos p) ex <= x)%Q -> (x < F2Q (Zpos p + 1) ex)%Q ->
  (lx = loc_Exact -> (x == F2Q (Zpos p) ex)%Q) ->
  (lx <> loc_Exact -> (F2Q (Zpos p) ex < x)%Q) ->
  exists m2 e2,
    binary_round_aux prec emax false (Zpos p) ex lx = SFpack prec emax false m2 e2
    /\ 0 <= m2 < 2 ^ prec
    /\ emin prec emax <= e2
    /\ (m2 <> 0 -> fexp prec emax (Zdigits2 m2 + e2) = e2)
    /\ (forall ny ky, 0 <= ny < 2 ^ prec -> emin prec emax <= ky ->
          (x <= F2Q ny ky)%Q -> (F2Q m2 e2 <= F2Q ny ky)%Q)
    /\ (forall ny ky, 0 <= ny < 2 ^ prec -> emin prec emax <= ky ->
          (F2Q ny ky <= x)%Q -> (F2Q ny ky <= F2Q m2 e2)%Q).
Proof.
  intros He1 Hxlo Hxhi Hxex Hxin.
  destruct (binary_round_aux_loc_shape false p ex lx He1)
    as (m2 & e2 & mr & Hres & Hmr & Hexact & Hnorm & Hm2 & Hcan & Hqhi & Hqlo).
  set (e1 := fexp prec emax (Zpos (digits2_pos p) + ex)) in *.
  set (n := e1 - ex) in *. set (q := Zpos p / 2 ^ n) in *.
  assert (Hn : 0 <= n) by (unfold n; lia).
  assert (Hpn : 0 < 2 ^ n) by (apply Z.pow_pos_nonneg; lia).
  assert (Hemin : emin prec emax <= e1) by apply fexp_ge_emin.
  pose proof (Z.div_mod (Zpos p) (2 ^ n) ltac:(lia)) as Hdm. fold q in Hdm.
  pose proof (Z.mod_pos_bound (Zpos p) (2 ^ n) Hpn) as Hrem.
  set (r := Zpos p mod 2 ^ n) in *.
  assert (Hp : (F2Q (Zpos p) ex == F2Q q e1 + F2Q r ex)%Q).
  { rewrite Hdm, F2Q_add. rewrite (Z.mul_comm (2 ^ n) q), F2Q_shift by lia.
    replace (ex + n) with e1 by (unfold n; lia). reflexivity. }
  assert (Hr0 : (0 <= F2Q r ex)%Q) by (rewrite <- (F2Q_0 ex); apply F2Q_le; lia).
  (* the exact value sits in [q, q + 1) at exponent e1 *)
  assert (Hq0 : (F2Q q e1 <= x)%Q) by lra.
  assert (Hq1 : (x < F2Q (q + 1) e1)%Q).
  { assert (H1 : (F2Q (q + 1) e1 == F2Q ((q + 1) * 2 ^ n) ex)%Q).
    { rewrite F2Q_shift by lia. replace (ex + n) with e1 by (unfold n; lia). reflexivity. }
    assert (H2 : (F2Q (Zpos p + 1) ex <= F2Q ((q + 1) * 2 ^ n) ex)%Q)
      by (apply F2Q_le; lia).
    lra. }
  assert (Hval : (F2Q m2 e2 == F2Q mr e1)%Q).
  { destruct Hnorm as [[-> ->] | (-> & -> & ->)]; [reflexivity|].
    rewrite !F2Q_pow2 by lia. replace (prec - 1 + (e1 + 1)) with (prec + e1) by lia.
    reflexivity. }
  assert (He2 : emin prec emax <= e2)
    by (destruct Hnorm as [[_ ->] | (_ & _ & ->)]; lia).
  assert (Hbelow : forall ny ky, 0 <= ny < 2 ^ prec -> emin prec emax <= ky -> ky < e1 ->
            (F2Q ny ky <= F2Q q e1)%Q).
  { intros ny ky Hny Hky Hlt. specialize (Hqlo ltac:(lia)).
    assert (H1 : (F2Q ny ky <= F2Q (2 ^ prec) ky)%Q) by (apply F2Q_le; lia).
    assert (H2 : (F2Q (2 ^ prec) ky <= F2Q (2 ^ (prec - 1)) e1)%Q).
    { rewrite !F2Q_pow2 by lia. apply bpow_le. lia. }
    assert (H3 : (F2Q (2 ^ (prec - 1)) e1 <= F2Q q e1)%Q) by (apply F2Q_le; lia).
    lra. }
  assert (Habove : forall ny ky, e1 <= ky ->
            (F2Q ny ky == F2Q (ny * 2 ^ (ky - e1)) e1)%Q).
  { intros ny ky Hge. rewrite F2Q_shift by lia.
    replace (e1 + (ky - e1)) with ky by lia. reflexivity. }
  (* either the result is q and the value is exactly there, or the value is
     strictly above q *)
  assert (Hsplit : (mr = q /\ (x == F2Q q e1)%Q) \/ (F2Q q e1 < x)%Q).
  { destruct (Z.eq_dec r 0) as [Hzero|Hpos].
    - assert (Hpq : (F2Q (Zpos p) ex == F2Q q e1)%Q).
      { rewrite Hp, Hzero, F2Q_0. ring. }
      destruct lx as [|c].
      + left. split; [apply Hexact; [reflexivity | exact Hzero]|].
        rewrite (Hxex eq_refl). exact Hpq.
      + right. specialize (Hxin ltac:(discriminate)). lra.
    - right. assert (Hrpos : (0 < F2Q r ex)%Q)
        by (rewrite <- (F2Q_0 ex); apply F2Q_lt; lia).
      lra. }
  exists m2, e2. split; [exact Hres|]. split; [exact Hm2|]. split; [exact He2|].
  split; [exact Hcan|]. split.
  - intros ny ky Hny Hky Hle. rewrite Hval.
    destruct Hsplit as [[-> Hxq] | Hgt]; [lra|].
    assert (Hstep : (F2Q (q + 1) e1 <= F2Q ny ky)%Q).
    { destruct (Z_lt_le_dec ky e1) as [Hlt|Hge].
      - pose proof (Hbelow ny ky Hny Hky Hlt). lra.
      - rewrite (Habove ny ky Hge) in Hle |- *. apply F2Q_le.
        assert (q < ny * 2 ^ (ky - e1)) by (apply (F2Q_lt_inv _ _ e1); lra). lia. }
    assert (Hmrle : (F2Q mr e1 <= F2Q (q + 1) e1)%Q) by (apply F2Q_le; lia).
    lra.
  - intros ny ky Hny Hky Hle. rewrite Hval.
    assert (Hstep : (F2Q ny ky <= F2Q q e1)%Q).
    { destruct (Z_lt_le_dec ky e1) as [Hlt|Hge].
      - apply (Hbelow ny ky Hny Hky Hlt).
      - rewrite (Habove ny ky Hge) in Hle |- *. apply F2Q_le.
        assert (ny * 2 ^ (ky - e1) < q + 1) by (apply (F2Q_lt_inv _ _ e1); lra). lia. }
    assert (Hmrge : (F2Q q e1 <= F2Q mr e1)%Q) by (apply F2Q_le; lia).
    lra.
Qed.

(** Such a rounding is a correct rounding of [x]. *)
Lemma binary_round_aux_loc_rounded (p : positive) e lx (x : Q) :
  e <= fexp prec emax (Zpos (digits2_pos p) + e) ->
  (F2Q (Zpos p) e <= x)%Q -> (x < F2Q (Zpos p + 1) e)%Q ->
  (lx = loc_Exact -> (x == F2Q (Zpos p) e)%Q) ->
  (lx <> loc_Exact -> (F2Q (Zpos p) e < x)%Q) ->
  rounded prec emax x (binary_round_aux prec emax false (Zpos p) e lx).
Proof.
  intros He1 Hxlo Hxhi Hxex Hxin.
  destruct (binary_round_aux_loc_anchors p e lx x He1 Hxlo Hxhi Hxex Hxin)
    as (m2 & e2 & -> & Hm2 & He2 & Hcan & Hup & Hlo).
  destruct m2 as [|pm|pm]; [| |lia].
  - cbn [SFpack]. split; [reflexivity|]. split; [left; left; reflexivity|]. split.
    + intros y (my & ey & Hmy & Hey & Hy) Hle. split; [left; reflexivity|].
      cbn [SF2Q]. rewrite <- (F2Q_0 e2), Hy. apply Hup; [lia | lia | rewrite <- Hy; exact Hle].
    + intros y (my & ey & Hmy & Hey & Hy) Hle _. cbn [SF2Q].
      rewrite <- (F2Q_0 e2), Hy. apply Hlo; [lia | lia | rewrite <- Hy; exact Hle].
  - specialize (Hcan ltac:(lia)). cbn [Zdigits2] in Hcan.
    destruct (Z_le_gt_dec e2 (emax - prec)) as [Hfit|Hover].
    + rewrite SF2Q_pack_finite by exact Hfit.
      split; [cbn [valid_binary]; unfold bounded, canonical_mantissa;
              rewrite Hcan, Z.eqb_refl; apply Z.leb_le, Hfit|].
      split; [left; right; eauto|]. split.
      * intros y (my & ey & Hmy & Hey & Hy) Hle. split; [right; eauto|].
        cbn [SF2Q cond_Zopp]. rewrite Hy.
        apply Hup; [lia | lia | rewrite <- Hy; exact Hle].
      * intros y (my & ey & Hmy & Hey & Hy) Hle _. cbn [SF2Q cond_Zopp]. rewrite Hy.
        apply Hlo; [lia | lia | rewrite <- Hy; exact Hle].
    + assert (Hinf : SFpack prec emax false (Zpos pm) e2 = S754_infinity false).
      { unfold SFpack. destruct (Z.leb_spec e2 (emax - prec)); [lia|reflexivity]. }
      rewrite Hinf. split; [reflexivity|]. split; [right; reflexivity|]. split.
      * intros y (my & ey & Hmy & Hey & Hy) Hle. exfalso.
        assert (H1 : (F2Q (Zpos pm) e2 <= F2Q my ey)%Q)
          by (apply Hup; [lia | lia | rewrite <- Hy; exact Hle]).
        pose proof (canonical_overflow prec emax prec_pos prec_lt_emax pm e2 my ey Hcan
                      ltac:(lia) Hmy ltac:(lia)). lra.
      * intros y _ _ [Habs | (m & e' & Habs)]; discriminate Habs.
Qed.

Lemma digits2_pos_lower (p : positive) k :
  0 <= k -> 2 ^ k <= Zpos p -> k + 1 <= Zpos (digits2_pos p).
Proof.
  intros Hk Hp. pose proof (digits2_pos_bounds p) as Hd.
  destruct (Z_lt_le_dec k (Zpos (digits2_pos p))) as [Hlt|Hge]; [lia|].
  assert (2 ^ Zpos (digits2_pos p) <= 2 ^ k) by (apply Z.pow_le_mono_r; lia). lia.
Qed.

(** What [SFdiv_core_binary] returns: the quotient and the remainder of the
    dividend shifted to the exponent [e']. *)
Lemma SFdiv_core_binary_spec (ma mb : positive) ea eb :
  exists s,
    0 <= s
    /\ s = ea - eb - Z.min (fexp prec emax (Zpos (digits2_pos ma) + ea
                                            - (Zpos (digits2_pos mb) + eb))) (ea - eb)
    /\ SFdiv_core_binary prec emax (Zpos ma) ea (Zpos mb) eb
       = (Zpos ma * 2 ^ s / Zpos mb,
          Z.min (fexp prec emax (Zpos (digits2_pos ma) + ea
                                 - (Zpos (digits2_pos mb) + eb))) (ea - eb),
          new_location (Zpos mb) ((Zpos ma * 2 ^ s) mod Zpos mb)).
Proof.
  unfold SFdiv_core_binary. cbn [Zdigits2].
  set (e' := Z.min _ (ea - eb)). exists (ea - eb - e').
  split; [unfold e'; lia|]. split; [reflexivity|].
  assert (Hshift : match ea - eb - e' with
                   | Zpos _ => Z.shiftl (Zpos ma) (ea - eb - e')
                   | Z0 => Zpos ma
                   | Zneg _ => 0
                   end = Zpos ma * 2 ^ (ea - eb - e')).
  { destruct (ea - eb - e') as [|s|s] eqn:Hs.
    - rewrite Z.pow_0_r. lia.
    - apply Z.shiftl_mul_pow2. lia.
    - unfold e' in Hs. lia. }
  rewrite Hshift. unfold Z.div, Z.modulo.
  destruct (Z.div_eucl (Zpos ma * 2 ^ (ea - eb - e')) (Zpos mb)) as [q r]. reflexivity.
Qed.

(** The quotient of two positive numbers is correctly rounded, as long as it
    is not below the smallest positive number of the format. *)
Lemma SFdiv_rounded (ma mb : positive) ea eb :
  (bpow (emin prec emax) <= F2Q (Zpos ma) ea / F2Q (Zpos mb) eb)%Q ->
  rounded prec emax (F2Q (Zpos ma) ea / F2Q (Zpos mb) eb)
    (SFdiv prec emax (S754_finite false ma ea) (S754_finite false mb eb)).
Proof.
  intros Hbig. cbn [SFdiv xorb].
  destruct (SFdiv_core_binary_spec ma mb ea eb) as (s & Hs & Hse & ->).
  set (z := Zpos (digits2_pos ma) + ea - (Zpos (digits2_pos mb) + eb)) in *.
  set (e' := Z.min (fexp prec emax z) (ea - eb)) in *.
  set (m' := Zpos ma * 2 ^ s).
  assert (Hps : 0 < 2 ^ s) by (apply Z.pow_pos_nonneg; lia).
  assert (Hm' : 0 < m') by (unfold m'; lia).
  pose proof (Z.div_mod m' (Zpos mb) ltac:(lia)) as Hdm.
  pose proof (Z.mod_pos_bound m' (Zpos mb) ltac:(lia)) as Hrem.
  set (q := m' / Zpos mb) in *. set (r := m' mod Zpos mb) in *.
  assert (Hq0 : 0 <= q) by (apply Z.div_pos; lia).
  (* the exact quotient, at the exponent e' *)
  assert (Hmb : (0 < inject_Z (Zpos mb))%Q) by (change 0%Q with (inject_Z 0); rewrite <- Zlt_Qlt; lia).
  assert (Hx : (F2Q (Zpos ma) ea / F2Q (Zpos mb) eb
                == F2Q q e' + inject_Z r / inject_Z (Zpos mb) * bpow e')%Q).
  { assert (Hea : (bpow ea == bpow s * bpow e' * bpow eb)%Q).
    { rewrite <- !bpow_add. replace (s + e' + eb) with ea by lia. reflexivity. }
    assert (Hm : (inject_Z m' == inject_Z q * inject_Z (Zpos mb) + inject_Z r)%Q).
    { rewrite Hdm at 1. rewrite inject_Z_plus, inject_Z_mult. ring. }
    assert (Hma : (inject_Z (Zpos ma) * bpow s == inject_Z m')%Q).
    { unfold m'. rewrite inject_Z_mult, (bpow_Z s) by lia. reflexivity. }
    pose proof (bpow_pos eb) as Hpeb.
    unfold F2Q. rewrite Hea. field_simplify_eq; [|split; lra].
    rewrite <- Hma in Hm. nra. }
  assert (Hfrac0 : (0 <= inject_Z r / inject_Z (Zpos mb) * bpow e')%Q).
  { pose proof (bpow_pos e'). apply Qmult_le_0_compat; [|lra].
    apply Qle_shift_div_l; [exact Hmb|]. rewrite Qmult_0_l.
    change 0%Q with (inject_Z 0). rewrite <- Zle_Qle. lia. }
  assert (Hfrac1 : (inject_Z r / inject_Z (Zpos mb) * bpow e' < bpow e')%Q).
  { pose proof (bpow_pos e') as Hpe.
    assert (Hlt : (inject_Z r / inject_Z (Zpos mb) < 1)%Q).
    { apply Qlt_shift_div_r; [exact Hmb|]. rewrite Qmult_1_l. rewrite <- Zlt_Qlt. lia. }
    nra. }
  assert (Hq1 : (F2Q (q + 1) e' == F2Q q e' + bpow e')%Q).
  { rewrite F2Q_add. unfold F2Q at 2. change (inject_Z 1) with 1%Q. ring. }
  (* the quotient is not zero, and its mantissa is long enough *)
  assert (Hqpos : 0 < q /\ e' <= fexp prec emax (Zdigits2 q + e')).
  { destruct (Z_le_gt_dec (emin prec emax) (z - prec)) as [Hnorm|Hsub].
    - assert (He' : e' <= z - prec) by (unfold e', fexp; lia).
      pose proof (digits2_pos_bounds ma) as Hda. pose proof (digits2_pos_bounds mb) as Hdb.
      set (da := Zpos (digits2_pos ma)) in *. set (db := Zpos (digits2_pos mb)) in *.
      assert (Hda0 : 0 < da) by (unfold da; lia). assert (Hdb0 : 0 < db) by (unfold db; lia).
      assert (Hk : 0 <= da - 1 + s - db) by (unfold z in He'; lia).
      assert (Hlow : 2 ^ (da - 1 + s - db) <= q).
      { apply Z.div_le_lower_bound; [lia|].
        assert (H1 : 2 ^ (da - 1 + s - db) * 2 ^ db = 2 ^ (da - 1) * 2 ^ s).
        { rewrite <- !Z.pow_add_r by lia. f_equal. lia. }
        assert (H2 : 0 < 2 ^ (da - 1 + s - db)) by (apply Z.pow_pos_nonneg; lia).
        unfold m'. nia. }
      assert (Hqp : 0 < q) by (pose proof (Z.pow_pos_nonneg 2 (da - 1 + s - db)); lia).
      split; [exact Hqp|].
      destruct q as [|pq|pq]; [lia| |lia]. cbn [Zdigits2].
      pose proof (digits2_pos_lower pq _ Hk Hlow) as Hdq.
      unfold fexp, z in *. lia.
    - assert (He' : e' <= emin prec emax) by (unfold e', fexp; lia).
      split; [|pose proof (fexp_ge_emin prec emax (Zdigits2 q + e')); lia].
      destruct (Z.eq_dec q 0) as [Hzero|Hnz]; [exfalso|lia].
      rewrite Hx, Hzero, F2Q_0 in Hbig.
      pose proof (bpow_le _ _ He'). lra. }
  destruct Hqpos as [Hqp Hfexp].
  destruct q as [|pq|pq] eqn:Hq; [lia| |lia].
  apply binary_round_aux_loc_rounded.
  - exact Hfexp.
  - rewrite Hx. lra.
  - rewrite Hx, Hq1. lra.
  - intros Hloc. apply new_location_exact in Hloc. rewrite Hx, Hloc.
    unfold Qdiv. change (inject_Z 0) with 0%Q. ring.
  - intros Hloc. rewrite Hx.
    assert (Hr : r <> 0) by (intros Hr; apply Hloc, new_location_exact, Hr).
    assert (Hrpos : (0 < inject_Z r / inject_Z (Zpos mb))%Q).
    { apply Qlt_shift_div_l; [exact Hmb|]. rewrite Qmult_0_l.
      change 0%Q with (inject_Z 0). rewrite <- Zlt_Qlt. lia. }
    pose proof (bpow_pos e'). nra.
Qed.

End Division.

(** *** Division of doubles *)

Lemma valid_finite_lower prec emax (m : positive) e :
  valid_binary prec emax (S754_finite false m e) = true ->
  (bpow (emin prec emax) <= F2Q (Zpos m) e)%Q.
Proof.
  intros Hv. destruct (valid_finite_facts prec emax false m e Hv) as (He & _).
  assert (H1 : (F2Q 1 e <= F2Q (Zpos m) e)%Q) by (apply F2Q_le; lia).
  assert (H2 : (F2Q 1 e == bpow e)%Q) by (unfold F2Q; change (inject_Z 1) with 1%Q; ring).
  pose proof (bpow_le (emin prec emax) e ltac:(lia)). lra.
Qed.

Lemma bpow_emin_small : (bpow (emin F64.prec F64.emax) <= 1 # 4503599627370496)%Q.
Proof.
  assert (H : (bpow (-52) == 1 # 4503599627370496)%Q) by reflexivity.
  rewrite <- H. apply bpow_le. unfold emin, F64.prec, F64.emax. lia.
Qed.

(** The quotient of a non-negative double by a positive one, when it is zero
    or at least [2^-52]. *)
Lemma F64_div_rounded a b :
  nonneg_finite a -> (exists m e, b = S754_finite false m e) ->
  (SF2Q a == 0 \/ 1 # 4503599627370496 <= SF2Q a / SF2Q b)%Q ->
  rounded F64.prec F64.emax (SF2Q a / SF2Q b) (F64.div a b).
Proof.
  intros [-> | (ma & ea & ->)] (mb & eb & ->) Hbig; unfold F64.div; cbn [SFdiv xorb].
  - apply rounded_zero. cbn [SF2Q]. unfold Qdiv. ring.
  - destruct F64_params as [Hp He]. cbn [SF2Q cond_Zopp] in *.
    apply (SFdiv_rounded F64.prec F64.emax Hp He).
    destruct Hbig as [Hzero | Hbig].
    + pose proof (SF2Q_finite_pos ma ea) as Hpos. cbn [SF2Q cond_Zopp] in Hpos. lra.
    + pose proof bpow_emin_small. lra.
Qed.

Lemma F64_of_Z_exact n :
  0 <= n < 2 ^ 53 ->
  F64.valid (F64.of_Z n) /\ nonneg_finite (F64.of_Z n)
  /\ (SF2Q (F64.of_Z n) == inject_Z n)%Q.
Proof.
  intros Hn. destruct F64_params as [Hp He].
  pose proof (of_Z_rounded F64.prec F64.emax Hp He n ltac:(lia)) as Hr.
  split; [apply Hr|].
  apply (rounded_exact F64.prec F64.emax _ _ Hr).
  apply in_format_Z; assumption.
Qed.

Lemma positive_finite_cases r :
  nonneg_finite r -> (0 < SF2Q r)%Q -> exists m e, r = S754_finite false m e.
Proof.
  intros [-> | Hfin] Hpos; [cbn in Hpos; lra | exact Hfin].
Qed.

Lemma clamp_index_id i : 0 <= i <= 65535 -> clamp_index i = i.
Proof.
  intros Hi. unfold clamp_index, imax, imin.
  destruct (Z.ltb_spec 65535 i); [lia|]. destruct (Z.ltb_spec 0 i); lia.
Qed.

Lemma bpow_m36 : (bpow (-36) == 1 # 68719476736)%Q.
Proof. reflexivity. Qed.

Lemma bpow_m46 : (bpow (-46) == 1 # 70368744177664)%Q.
Proof. reflexivity. Qed.

Lemma bpow_m50 : (bpow (-50) == 1 # 1125899906842624)%Q.
Proof. reflexivity. Qed.

Lemma bpow_m52 : (bpow (-52) == 1 # 4503599627370496)%Q.
Proof. reflexivity. Qed.

(** [i / 65535.0] for a table index: within [2^-52] of the exact quotient. *)
Lemma index_fraction_near i :
  0 <= i <= 65535 ->
  F64.valid (F64.of_Z i / F64.of_Z 65535)%f64
  /\ nonneg_finite (F64.of_Z i / F64.of_Z 65535)%f64
  /\ (inject_Z i / 65535 - (1 # 4503599627370496)
      < SF2Q (F64.of_Z i / F64.of_Z 65535)%f64)%Q
  /\ (SF2Q (F64.of_Z i / F64.of_Z 65535)%f64
      < inject_Z i / 65535 + (1 # 4503599627370496))%Q.
Proof.
  intros Hi. destruct F64_params as [Hp He].
  destruct (F64_of_Z_exact i) as (Hvi & Hni & Hqi);
    [change (2 ^ 53) with 9007199254740992; lia|].
  assert (Hq : (SF2Q (F64.of_Z 65535) == 65535)%Q) by reflexivity.
  assert (Hi0 : (0 <= inject_Z i)%Q) by (change 0%Q with (inject_Z 0); rewrite <- Zle_Qle; lia).
  assert (Hi1 : (inject_Z i <= 65535)%Q)
    by (change 65535%Q with (inject_Z 65535); rewrite <- Zle_Qle; lia).
  pose proof (F64_div_rounded (F64.of_Z i) (F64.of_Z 65535) Hni) as Hdiv.
  assert (Hx : (SF2Q (F64.of_Z i) / SF2Q (F64.of_Z 65535) == inject_Z i / 65535)%Q)
    by (rewrite Hqi, Hq; reflexivity).
  assert (Hx0 : (0 <= inject_Z i / 65535)%Q)
    by (apply Qle_shift_div_l; [reflexivity | lra]).
  assert (Hx1 : (inject_Z i / 65535 <= inject_Z 1)%Q)
    by (apply Qle_shift_div_r; [reflexivity | change (inject_Z 1) with 1%Q; lra]).
  assert (Hround : rounded F64.prec F64.emax (inject_Z i / 65535)
                     (F64.of_Z i / F64.of_Z 65535)%f64).
  { apply (rounded_ext F64.prec F64.emax _ _ _ Hx). apply Hdiv.
    - eexists _, _. reflexivity.
    - destruct (Z.eq_dec i 0) as [->|Hnz]; [left; reflexivity|right].
      rewrite Hx. apply Qle_shift_div_l; [reflexivity|].
      assert (H1 : (1 <= inject_Z i)%Q)
        by (change 1%Q with (inject_Z 1); rewrite <- Zle_Qle; lia).
      lra. }
  destruct (rounded_near F64.prec F64.emax _ _ 52 1 Hp He Hround Hx0 Hx1)
    as (Hv & Hn & Hlo & Hhi).
  - lia.
  - unfold F64.prec. change (2 ^ 53) with 9007199254740992.
    change (2 ^ 52) with 4503599627370496. lia.
  - unfold emin, F64.prec, F64.emax. lia.
  - rewrite bpow_m52 in Hlo, Hhi. repeat split; assumption.
Qed.

(** ** The grid of a lookup table

    Both tables are indexed by [(int)((v - o) * S)], clamped, and filled from
    the inputs [o + (i / 65535.0) * c], with [o = 4.0], [c = 32.0] for the
    magnitude table and [o = 1.0], [c = 1.585] for the log-log table, [S]
    being the scale factor [65535 / c]. *)

Section Grid.

Variable cvt_invalid : spec_float -> Z.
Variables o c S : spec_float.

Hypothesis o_valid : F64.valid o.
Hypothesis o_finite : nonneg_finite o.
Hypothesis o_range : (1 <= SF2Q o)%Q /\ (SF2Q o <= 4)%Q.
Hypothesis c_valid : F64.valid c.
Hypothesis c_finite : nonneg_finite c.
Hypothesis c_range : (1 <= SF2Q c)%Q /\ (SF2Q c <= 32)%Q.
Hypothesis S_valid : F64.valid S.
Hypothesis S_finite : nonneg_finite S.
Hypothesis S_scale :
  (65535 - (1 # 1073741824) <= SF2Q c * SF2Q S)%Q
  /\ (SF2Q c * SF2Q S <= 65535 + (1 # 1073741824))%Q.

(** The input of entry [i] is within [2^-44] of [o + c·i/65535]. *)
Lemma grid_point_near i :
  0 <= i <= 65535 ->
  F64.valid (o + (F64.of_Z i / F64.of_Z 65535) * c)%f64
  /\ nonneg_finite (o + (F64.of_Z i / F64.of_Z 65535) * c)%f64
  /\ (SF2Q o + SF2Q c * (inject_Z i / 65535) - (1 # 17592186044416)
      < SF2Q (o + (F64.of_Z i / F64.of_Z 65535) * c)%f64)%Q
  /\ (SF2Q (o + (F64.of_Z i / F64.of_Z 65535) * c)%f64
      < SF2Q o + SF2Q c * (inject_Z i / 65535) + (1 # 17592186044416))%Q.
Proof.
  clear S S_valid S_finite S_scale.
  intros Hi. destruct F64_params as [Hp He].
  destruct o_range as [Ho1 Ho4]. destruct c_range as [Hc1 Hc32].
  destruct (index_fraction_near i Hi) as (Hvq & Hnq & Hqlo & Hqhi).
  set (q := (F64.of_Z i / F64.of_Z 65535)%f64) in Hvq, Hnq, Hqlo, Hqhi |- *.
  set (t := (inject_Z i / 65535)%Q) in Hqlo, Hqhi |- *.
  assert (Ht0 : (0 <= t)%Q).
  { apply Qle_shift_div_l; [reflexivity|]. rewrite Qmult_0_l.
    change 0%Q with (inject_Z 0). rewrite <- Zle_Qle. lia. }
  assert (Ht1 : (t <= 1)%Q).
  { apply Qle_shift_div_r; [reflexivity|]. rewrite Qmult_1_l.
    change 65535%Q with (inject_Z 65535). rewrite <- Zle_Qle. lia. }
  pose proof (SF2Q_nonneg q Hnq) as Hq0.
  pose proof (SFmul_rounded F64.prec F64.emax Hp He q c Hvq c_valid Hnq c_finite) as Hmul.
  fold (F64.mul q c) in Hmul.
  destruct (rounded_near F64.prec F64.emax _ _ 46 64 Hp He Hmul)
    as (Hvm & Hnm & Hmlo & Hmhi).
  { nra. }
  { change (inject_Z 64) with 64%Q. nra. }
  { lia. }
  { unfold F64.prec. change (2 ^ 53) with 9007199254740992.
    change (2 ^ 46) with 70368744177664. lia. }
  { unfold emin, F64.prec, F64.emax. lia. }
  rewrite bpow_m46 in Hmlo, Hmhi.
  pose proof (SF2Q_nonneg _ Hnm) as Hm0.
  pose proof (SFadd_rounded F64.prec F64.emax Hp He o (q * c)%f64 o_valid Hvm
                o_finite Hnm) as Hadd.
  fold (F64.add o (q * c)%f64) in Hadd.
  destruct (rounded_near F64.prec F64.emax _ _ 46 64 Hp He Hadd)
    as (Hvg & Hng & Hglo & Hghi).
  { nra. }
  { change (inject_Z 64) with 64%Q. nra. }
  { lia. }
  { unfold F64.prec. change (2 ^ 53) with 9007199254740992.
    change (2 ^ 46) with 70368744177664. lia. }
  { unfold emin, F64.prec, F64.emax. lia. }
  rewrite bpow_m46 in Hglo, Hghi.
  split; [exact Hvg|]. split; [exact Hng|].
  split; nra.
Qed.

(** The clamped index [i] of [v] in [[o, o + c]] is in range, and [v - o]
    lies between [c·i/65535] and [c·(i + 1)/65535], up to [2^-38]. *)
Lemma grid_index_near v :
  F64.valid v -> nonneg_finite v ->
  (SF2Q o <= SF2Q v)%Q -> (SF2Q v <= SF2Q o + SF2Q c)%Q ->
  0 <= clamp_index (static_cast_int cvt_invalid ((v - o) * S)%f64) <= 65535
  /\ (- (1 # 274877906944)
      <= SF2Q v - SF2Q o
         - SF2Q c * (inject_Z (clamp_index (static_cast_int cvt_invalid
                                  ((v - o) * S)%f64)) / 65535))%Q
  /\ (SF2Q v - SF2Q o
      - SF2Q c * (inject_Z (clamp_index (static_cast_int cvt_invalid
                               ((v - o) * S)%f64)) / 65535)
      <= SF2Q c / 65535 + (1 # 274877906944))%Q.
Proof.
  intros Hvv Hnv Hlo Hhi. destruct F64_params as [Hp He].
  destruct o_range as [Ho1 Ho4]. destruct c_range as [Hc1 Hc32].
  destruct S_scale as [HS1 HS2].
  pose proof (SF2Q_nonneg S S_finite) as HS0.
  assert (HSlo : (1024 <= SF2Q S)%Q) by nra.
  assert (HShi : (SF2Q S <= 65536)%Q) by nra.
  pose proof (SFsub_rounded F64.prec F64.emax Hp He v o Hvv o_valid Hnv o_finite Hlo)
    as Hsub.
  fold (F64.sub v o) in Hsub.
  destruct (rounded_near F64.prec F64.emax _ _ 46 64 Hp He Hsub)
    as (Hvd & Hnd & Hdlo & Hdhi).
  { lra. }
  { change (inject_Z 64) with 64%Q. lra. }
  { lia. }
  { unfold F64.prec. change (2 ^ 53) with 9007199254740992.
    change (2 ^ 46) with 70368744177664. lia. }
  { unfold emin, F64.prec, F64.emax. lia. }
  rewrite bpow_m46 in Hdlo, Hdhi.
  set (d := (v - o)%f64) in *. set (t := (SF2Q v - SF2Q o)%Q) in *.
  pose proof (SF2Q_nonneg d Hnd) as Hd0.
  pose proof (SFmul_rounded F64.prec F64.emax Hp He d S Hvd S_valid Hnd S_finite) as Hmul.
  fold (F64.mul d S) in Hmul.
  (* the distance between d·S and t·S *)
  assert (HdS1 : (SF2Q d * SF2Q S <= t * SF2Q S + (1 # 1073741824))%Q) by nra.
  assert (HdS2 : (t * SF2Q S - (1 # 1073741824) <= SF2Q d * SF2Q S)%Q) by nra.
  assert (Ht0 : (0 <= t)%Q) by (unfold t; lra).
  assert (Htc : (t <= SF2Q c)%Q) by (unfold t; lra).
  assert (HtS : (t * SF2Q S <= 65535 + (1 # 1073741824))%Q).
  { pose proof (Qmult_le_compat_r _ _ (SF2Q S) Htc HS0). lra. }
  destruct (rounded_near F64.prec F64.emax _ _ 36 65536 Hp He Hmul)
    as (Hvp & Hnp & Hplo & Hphi).
  { nra. }
  { change (inject_Z 65536) with 65536%Q. lra. }
  { lia. }
  { unfold F64.prec. change (2 ^ 53) with 9007199254740992.
    change (2 ^ 36) with 68719476736. lia. }
  { unfold emin, F64.prec, F64.emax. lia. }
  rewrite bpow_m36 in Hplo, Hphi.
  set (p := (d * S)%f64) in *.
  pose proof (SF2Q_nonneg p Hnp) as Hp0.
  assert (Hcast : static_cast_int cvt_invalid p = Qfloor (SF2Q p)).
  { apply static_cast_int_floor; [exact Hnp|].
    change (inject_Z (2 ^ 31)) with 2147483648%Q. lra. }
  rewrite Hcast.
  pose proof (Qfloor_le (SF2Q p)) as Hfl. pose proof (Qlt_floor (SF2Q p)) as Hfu.
  rewrite inject_Z_plus in Hfu. change (inject_Z 1) with 1%Q in Hfu.
  assert (Hrange : 0 <= Qfloor (SF2Q p) <= 65535).
  { split.
    - assert (H : (inject_Z (-1) < inject_Z (Qfloor (SF2Q p)))%Q)
        by (change (inject_Z (-1)) with (-1)%Q; lra).
      rewrite <- Zlt_Qlt in H. lia.
    - assert (H : (inject_Z (Qfloor (SF2Q p)) < inject_Z 65536)%Q)
        by (change (inject_Z 65536) with 65536%Q; lra).
      rewrite <- Zlt_Qlt in H. lia. }
  rewrite (clamp_index_id _ Hrange).
  split; [exact Hrange|].
  set (I := inject_Z (Qfloor (SF2Q p))) in *.
  assert (HI0 : (0 <= I)%Q)
    by (unfold I; change 0%Q with (inject_Z 0); rewrite <- Zle_Qle; lia).
  assert (HI1 : (I <= 65535)%Q)
    by (unfold I; change 65535%Q with (inject_Z 65535); rewrite <- Zle_Qle; lia).
  (* everything is multiplied by S, which is at least 1024 *)
  set (P := (SF2Q c * SF2Q S)%Q) in *.
  assert (HPI1 : (P * I <= 65535 * I + (1 # 1073741824) * 65535)%Q) by nra.
  assert (HPI2 : (65535 * I - (1 # 1073741824) * 65535 <= P * I)%Q) by nra.
  assert (Hkey : (SF2Q c * (I / 65535) * SF2Q S == P * I / 65535)%Q)
    by (unfold P; field).
  assert (Hkey2 : (SF2Q c / 65535 * SF2Q S == P / 65535)%Q)
    by (unfold P; field).
  split.
  - assert (H : (0 <= (t - SF2Q c * (I / 65535) + (1 # 274877906944)) * SF2Q S)%Q).
    { assert (E : ((t - SF2Q c * (I / 65535) + (1 # 274877906944)) * SF2Q S
                   == t * SF2Q S - P * I / 65535 + (1 # 274877906944) * SF2Q S)%Q)
        by (rewrite <- Hkey; ring).
      rewrite E.
      assert (H1 : (P * I / 65535 <= I + (1 # 1073741824))%Q).
      { apply Qle_shift_div_r; [reflexivity|]. lra. }
      lra. }
    assert (H' : (0 <= t - SF2Q c * (I / 65535) + (1 # 274877906944))%Q).
    { destruct (Qlt_le_dec (t - SF2Q c * (I / 65535) + (1 # 274877906944)) 0)
        as [Hneg|Hok]; [|exact Hok].
      exfalso. nra. }
    lra.
  - assert (H : ((t - SF2Q c * (I / 65535) - SF2Q c / 65535 - (1 # 274877906944))
                 * SF2Q S <= 0)%Q).
    { assert (E : ((t - SF2Q c * (I / 65535) - SF2Q c / 65535 - (1 # 274877906944))
                   * SF2Q S
                   == t * SF2Q S - P * I / 65535 - P / 65535
                      - (1 # 274877906944) * SF2Q S)%Q)
        by (rewrite <- Hkey, <- Hkey2; ring).
      rewrite E.
      assert (H1 : (I - (1 # 1073741824) <= P * I / 65535)%Q).
      { apply Qle_shift_div_l; [reflexivity|]. lra. }
      assert (H2 : (1 - (1 # 1073741824) <= P / 65535)%Q).
      { apply Qle_shift_div_l; [reflexivity|]. lra. }
      lra. }
    assert (H' : (t - SF2Q c * (I / 65535) - SF2Q c / 65535 - (1 # 274877906944) <= 0)%Q).
    { destruct (Qlt_le_dec 0 (t - SF2Q c * (I / 65535) - SF2Q c / 65535
                              - (1 # 274877906944))) as [Hpos|Hok]; [|exact Hok].
      exfalso. nra. }
    lra.
Qed.

End Grid.

(** *** The two tables *)

Lemma magnitude_grid cvt_invalid v :
  F64.valid v -> nonneg_finite v -> (4 <= SF2Q v)%Q -> (SF2Q v <= 36)%Q ->
  0 <= magnitude_index cvt_invalid v magnitude_scale <= 65535
  /\ F64.valid (magnitude_input (magnitude_index cvt_invalid v magnitude_scale))
  /\ nonneg_finite (magnitude_input (magnitude_index cvt_invalid v magnitude_scale))
  /\ (- (1 # 137438953472)
      <= SF2Q v - SF2Q (magnitude_input (magnitude_index cvt_invalid v magnitude_scale)))%Q
  /\ (SF2Q v - SF2Q (magnitude_input (magnitude_index cvt_invalid v magnitude_scale))
      <= (32 # 65535) + (1 # 137438953472))%Q.
Proof.
  intros Hv Hn Hlo Hhi.
  destruct (F64_of_Z_exact 4 ltac:(lia)) as (Hv4 & Hn4 & H4).
  destruct (F64_of_Z_exact 32 ltac:(lia)) as (Hv32 & Hn32 & H32).
  change (inject_Z 4) with 4%Q in H4. change (inject_Z 32) with 32%Q in H32.
  assert (HvS : F64.valid magnitude_scale) by (vm_compute; reflexivity).
  assert (HnS : nonneg_finite magnitude_scale)
    by (right; eexists; eexists; vm_compute; reflexivity).
  assert (HS : (65535 - (1 # 1073741824) <= SF2Q (F64.of_Z 32) * SF2Q magnitude_scale)%Q
               /\ (SF2Q (F64.of_Z 32) * SF2Q magnitude_scale
                   <= 65535 + (1 # 1073741824))%Q)
    by (split; vm_compute; discriminate).
  assert (Ho : (1 <= SF2Q (F64.of_Z 4))%Q /\ (SF2Q (F64.of_Z 4) <= 4)%Q)
    by (split; lra).
  assert (Hc : (1 <= SF2Q (F64.of_Z 32))%Q /\ (SF2Q (F64.of_Z 32) <= 32)%Q)
    by (split; lra).
  destruct (grid_index_near cvt_invalid (F64.of_Z 4) (F64.of_Z 32) magnitude_scale
              Hv4 Hn4 Ho Hc HvS HnS HS v Hv Hn ltac:(lra) ltac:(lra))
    as (Hj & Hjlo & Hjhi).
  fold (magnitude_index cvt_invalid v magnitude_scale) in Hj, Hjlo, Hjhi.
  destruct (grid_point_near (F64.of_Z 4) (F64.of_Z 32) Hv4 Hn4 Ho Hv32 Hn32 Hc
              _ Hj) as (Hvg & Hng & Hglo & Hghi).
  fold (magnitude_input (magnitude_index cvt_invalid v magnitude_scale))
    in Hvg, Hng, Hglo, Hghi.
  split; [exact Hj|]. split; [exact Hvg|]. split; [exact Hng|].
  assert (E : (SF2Q (F64.of_Z 32) / 65535 <= 32 # 65535)%Q).
  { apply Qle_shift_div_r; [reflexivity|]. rewrite H32. vm_compute. discriminate. }
  split; lra.
Qed.

Lemma lit_1_585_facts :
  F64.valid lit_1_585 /\ nonneg_finite lit_1_585
  /\ (158499 # 100000 <= SF2Q lit_1_585)%Q /\ (SF2Q lit_1_585 <= 158501 # 100000)%Q.
Proof.
  split; [vm_compute; reflexivity|].
  split; [right; eexists; eexists; vm_compute; reflexivity|].
  split; vm_compute; discriminate.
Qed.

Lemma loglog_grid cvt_invalid v :
  F64.valid v -> nonneg_finite v ->
  (1 <= SF2Q v)%Q -> (SF2Q v <= 1 + SF2Q lit_1_585)%Q ->
  0 <= nu_index cvt_invalid v loglog_scale <= 65535
  /\ F64.valid (loglog_input (nu_index cvt_invalid v loglog_scale))
  /\ nonneg_finite (loglog_input (nu_index cvt_invalid v loglog_scale))
  /\ (- (1 # 137438953472)
      <= SF2Q v - SF2Q (loglog_input (nu_index cvt_invalid v loglog_scale)))%Q
  /\ (SF2Q v - SF2Q (loglog_input (nu_index cvt_invalid v loglog_scale))
      <= SF2Q lit_1_585 / 65535 + (1 # 137438953472))%Q.
Proof.
  intros Hv Hn Hlo Hhi.
  destruct (F64_of_Z_exact 1 ltac:(lia)) as (Hv1 & Hn1 & H1).
  change (inject_Z 1) with 1%Q in H1.
  destruct lit_1_585_facts as (Hvc & Hnc & Hclo & Hchi).
  assert (HvS : F64.valid loglog_scale) by (vm_compute; reflexivity).
  assert (HnS : nonneg_finite loglog_scale)
    by (right; eexists; eexists; vm_compute; reflexivity).
  assert (HS : (65535 - (1 # 1073741824) <= SF2Q lit_1_585 * SF2Q loglog_scale)%Q
               /\ (SF2Q lit_1_585 * SF2Q loglog_scale <= 65535 + (1 # 1073741824))%Q)
    by (split; vm_compute; discriminate).
  assert (Ho : (1 <= SF2Q (F64.of_Z 1))%Q /\ (SF2Q (F64.of_Z 1) <= 4)%Q)
    by (split; lra).
  assert (Hc : (1 <= SF2Q lit_1_585)%Q /\ (SF2Q lit_1_585 <= 32)%Q)
    by (split; lra).
  destruct (grid_index_near cvt_invalid (F64.of_Z 1) lit_1_585 loglog_scale
              Hv1 Hn1 Ho Hc HvS HnS HS v Hv Hn ltac:(lra) ltac:(lra))
    as (Hk & Hklo & Hkhi).
  fold (nu_index cvt_invalid v loglog_scale) in Hk, Hklo, Hkhi.
  destruct (grid_point_near (F64.of_Z 1) lit_1_585 Hv1 Hn1 Ho Hvc Hnc Hc
              _ Hk) as (Hvg & Hng & Hglo & Hghi).
  fold (loglog_input (nu_index cvt_invalid v loglog_scale)) in Hvg, Hng, Hglo, Hghi.
  split; [exact Hk|]. split; [exact Hvg|]. split; [exact Hng|].
  split; lra.
Qed.

(** *** Dividing by 2.0 and by 1.0 *)

Lemma F64_half_near a :
  nonneg_finite a -> (1 <= SF2Q a)%Q -> (SF2Q a <= 8)%Q ->
  rounded F64.prec F64.emax (SF2Q a * (1 # 2)) (a / F64.of_Z 2)%f64
  /\ F64.valid (a / F64.of_Z 2)%f64 /\ nonneg_finite (a / F64.of_Z 2)%f64
  /\ (SF2Q a * (1 # 2) - (1 # 1125899906842624) < SF2Q (a / F64.of_Z 2)%f64)%Q
  /\ (SF2Q (a / F64.of_Z 2)%f64 < SF2Q a * (1 # 2) + (1 # 1125899906842624))%Q.
Proof.
  intros Hn Hlo Hhi. destruct F64_params as [Hp He].
  destruct (F64_of_Z_exact 2 ltac:(lia)) as (Hv2 & Hn2 & H2).
  change (inject_Z 2) with 2%Q in H2.
  assert (Hdiv : (SF2Q a / SF2Q (F64.of_Z 2) == SF2Q a * (1 # 2))%Q).
  { rewrite H2. unfold Qdiv. reflexivity. }
  assert (Hr : rounded F64.prec F64.emax (SF2Q a * (1 # 2)) (a / F64.of_Z 2)%f64).
  { apply (rounded_ext F64.prec F64.emax _ _ _ Hdiv).
    apply F64_div_rounded; [exact Hn | |].
    - apply positive_finite_cases; [exact Hn2 | lra].
    - right. rewrite Hdiv. lra. }
  split; [exact Hr|].
  destruct (rounded_near F64.prec F64.emax _ _ 50 4 Hp He Hr) as (Hv & Hf & Hl & Hu).
  { lra. }
  { change (inject_Z 4) with 4%Q. lra. }
  { lia. }
  { unfold F64.prec. change (2 ^ 53) with 9007199254740992.
    change (2 ^ 50) with 1125899906842624. lia. }
  { unfold emin, F64.prec, F64.emax. lia. }
  rewrite bpow_m50 in Hl, Hu.
  repeat split; assumption.
Qed.

Lemma F64_div_one w :
  F64.valid w -> nonneg_finite w ->
  (SF2Q (w / F64.of_Z 1)%f64 == SF2Q w)%Q.
Proof.
  intros Hv Hn. destruct F64_params as [Hp He].
  destruct (F64_of_Z_exact 1 ltac:(lia)) as (Hv1 & Hn1 & H1).
  change (inject_Z 1) with 1%Q in H1.
  assert (Hdiv : (SF2Q w / SF2Q (F64.of_Z 1) == SF2Q w)%Q).
  { rewrite H1. unfold Qdiv. change (/ 1)%Q with 1%Q. ring. }
  destruct (positive_finite_cases _ Hn1 ltac:(lra)) as (m1 & e1 & E1).
  destruct Hn as [-> | (m & e & ->)].
  - rewrite E1. reflexivity.
  - assert (Hr : rounded F64.prec F64.emax (SF2Q (S754_finite false m e))
                   (S754_finite false m e / F64.of_Z 1)%f64).
    { apply (rounded_ext F64.prec F64.emax _ _ _ Hdiv).
      rewrite E1 in *. cbn [SF2Q cond_Zopp] in *.
      apply (SFdiv_rounded F64.prec F64.emax Hp He).
      rewrite Hdiv. apply valid_finite_lower. exact Hv. }
    apply (rounded_exact F64.prec F64.emax _ _ Hr).
    destruct (valid_finite_facts F64.prec F64.emax false m e Hv) as (Hemin & Hemax & _).
    cbn [SF2Q cond_Zopp]. apply in_format_F2Q.
    + pose proof (valid_mantissa_bound F64.prec F64.emax false m e Hp Hv). lia.
    + lia.
Qed.

(** C9, with the tolerance the tables give. Take [magSq] in the domain
    [[4, 36]] of the magnitude table, the scale factors [65535/32] and
    [65535/1.585], and [log2_2 = log2(2.0) = 1.0]. The lookup path reads the
    entries [j] and [k]; their inputs lie at most one grid step ([32/65535],
    [1.585/65535]) below [magSq] and below the halved first entry, up to
    [2^-37]. If the first entry is in [[2, 5.16993]] and [log2] has, at the
    two pairs of points compared, the slope of the binary logarithm, then the
    values of [nu] on the two paths differ by at most [12/65535]. *)
Theorem lookup_nu_within_tolerance
    log2 cvt_invalid (t : Tables) (magSq : spec_float) :
  Z.of_nat (length (logMagnitudeLookupTable t)) = TABLE_SIZE ->
  Z.of_nat (length (logLogLookupTable t)) = TABLE_SIZE ->
  F64.valid magSq -> nonneg_finite magSq ->
  (4 <= SF2Q magSq)%Q -> (SF2Q magSq <= 36)%Q ->
  log2 (F64.of_Z 2) = F64.of_Z 1 ->
  let j := magnitude_index cvt_invalid magSq magnitude_scale in
  let entry := log2 (magnitude_input j) in
  let k := nu_index cvt_invalid (entry / F64.of_Z 2)%f64 loglog_scale in
  let logZn := (log2 magSq / F64.of_Z 2)%f64 in
  (2 <= SF2Q entry)%Q -> (SF2Q entry <= 516993 # 100000)%Q ->
  slope_at log2 (3 # 8) magSq (magnitude_input j) ->
  slope_at log2 (3 # 2) logZn (loglog_input k) ->
  exists tables nu_lookup nu_exact,
    initNative log2 t = Some tables
    /\ smooth_nu log2 cvt_invalid tables true magSq
         magnitude_scale loglog_scale (log2 (F64.of_Z 2)) = Some nu_lookup
    /\ smooth_nu log2 cvt_invalid tables false magSq
         magnitude_scale loglog_scale (log2 (F64.of_Z 2)) = Some nu_exact
    /\ nu_lookup = (log2 (loglog_input k) / log2 (F64.of_Z 2))%f64
    /\ 0 <= j <= 65535 /\ 0 <= k <= 65535
    /\ (- (1 # 137438953472) <= SF2Q magSq - SF2Q (magnitude_input j))%Q
    /\ (SF2Q magSq - SF2Q (magnitude_input j) <= (32 # 65535) + (1 # 137438953472))%Q
    /\ (- (1 # 137438953472)
        <= SF2Q (entry / F64.of_Z 2)%f64 - SF2Q (loglog_input k))%Q
    /\ (SF2Q (entry / F64.of_Z 2)%f64 - SF2Q (loglog_input k)
        <= SF2Q lit_1_585 / 65535 + (1 # 137438953472))%Q
    /\ (Qabs (SF2Q nu_lookup - SF2Q nu_exact) <= 12 # 65535)%Q.
Proof.
  intros Hm Hl Hv Hn Hlo Hhi Hlog2_2 j entry k logZn Helo Hehi Hs1 Hs2.
  destruct (smooth_nu_lookup_after_init log2 cvt_invalid t magSq
              magnitude_scale loglog_scale (log2 (F64.of_Z 2)) Hm Hl)
    as (tables & Hinit & Hnu).
  fold j entry k in Hnu.
  exists tables, (log2 (loglog_input k) / log2 (F64.of_Z 2))%f64,
    (log2 logZn / log2 (F64.of_Z 2))%f64.
  split; [exact Hinit|]. split; [exact Hnu|]. split; [reflexivity|].
  split; [reflexivity|].
  (* the first table *)
  destruct (magnitude_grid cvt_invalid magSq Hv Hn Hlo Hhi)
    as (Hj & Hvg & Hng & Hglo & Hghi).
  fold j in Hj, Hvg, Hng, Hglo, Hghi.
  destruct Hs1 as (HvA & HnA & HvA' & HnA' & HdA). fold entry in HvA', HnA', HdA.
  (* the halved entry and the second table *)
  destruct (F64_half_near entry HnA' ltac:(lra) ltac:(lra))
    as (Hr' & Hvh' & Hnh' & Hh'lo & Hh'hi).
  assert (Hh'1 : (1 <= SF2Q (entry / F64.of_Z 2)%f64)%Q).
  { destruct Hr' as (_ & _ & _ & Hlow). destruct F64_params as [Hp He].
    apply (Hlow 1%Q); [| lra | exact Hnh'].
    apply (in_format_Z F64.prec F64.emax 1 Hp He). unfold F64.prec. lia. }
  destruct lit_1_585_facts as (_ & _ & Hclo & Hchi).
  destruct (loglog_grid cvt_invalid (entry / F64.of_Z 2)%f64 Hvh' Hnh' Hh'1
              ltac:(lra)) as (Hk & Hvy & Hny & Hylo & Hyhi).
  fold k in Hk, Hvy, Hny, Hylo, Hyhi.
  split; [exact Hj|]. split; [exact Hk|].
  split; [exact Hglo|]. split; [exact Hghi|].
  split; [exact Hylo|]. split; [exact Hyhi|].
  (* the distance of the two first logarithms *)
  assert (Habs1 : (Qabs (SF2Q magSq - SF2Q (magnitude_input j))
                   <= (32 # 65535) + (1 # 137438953472))%Q)
    by (apply Qabs_Qle_condition; split; lra).
  assert (HA : (Qabs (SF2Q (log2 magSq) - SF2Q entry)
                <= (3 # 8) * ((32 # 65535) + (1 # 137438953472))
                   + (1 # 1099511627776))%Q) by lra.
  apply Qabs_Qle_condition in HA. destruct HA as [HA1 HA2].
  destruct (F64_half_near (log2 magSq) HnA ltac:(lra) ltac:(lra))
    as (_ & Hvh & Hnh & Hhlo & Hhhi).
  fold logZn in Hvh, Hnh, Hhlo, Hhhi.
  (* the distance of the two arguments of the second logarithm *)
  assert (Hstep : (SF2Q lit_1_585 / 65535 <= 158501 # 6553500000)%Q).
  { apply Qle_shift_div_r; [reflexivity|]. lra. }
  assert (Habs2 : (Qabs (SF2Q logZn - SF2Q (loglog_input k)) <= 759 # 6553500)%Q)
    by (apply Qabs_Qle_condition; split; lra).
  destruct Hs2 as (HvW & HnW & HvW' & HnW' & HdW).
  rewrite Hlog2_2, !F64_div_one by assumption.
  assert (HW : (Qabs (SF2Q (log2 logZn) - SF2Q (log2 (loglog_input k)))
                <= 12 # 65535)%Q) by lra.
  apply Qabs_Qle_condition in HW. destruct HW as [HW1 HW2].
  apply Qabs_Qle_condition; split; lra.
Qed.

Lemma lookup_nu_within_tolerance_witness :
  exists tables nu_lookup nu_exact,
    initNative log2_ref tables_zero = Some tables
    /\ smooth_nu log2_ref cvt_invalid_arm tables true (F64.of_Z 5)
         magnitude_scale loglog_scale (log2_ref (F64.of_Z 2)) = Some nu_lookup
    /\ smooth_nu log2_ref cvt_invalid_arm tables false (F64.of_Z 5)
         magnitude_scale loglog_scale (log2_ref (F64.of_Z 2)) = Some nu_exact
    /\ (Qabs (SF2Q nu_lookup - SF2Q nu_exact) <= 12 # 65535)%Q.
Proof.
  destruct (lookup_nu_within_tolerance log2_ref cvt_invalid_arm tables_zero (F64.of_Z 5)
              ltac:(vm_compute; reflexivity) ltac:(vm_compute; reflexivity)
              ltac:(vm_compute; reflexivity)
              ltac:(right; eexists; eexists; vm_compute; reflexivity)
              ltac:(vm_compute; discriminate) ltac:(vm_compute; discriminate)
              ltac:(vm_compute; reflexivity)
              ltac:(vm_compute; discriminate) ltac:(vm_compute; discriminate)
              ltac:(unfold slope_at; split; [|split; [|split; [|split]]];
                    [ vm_compute; reflexivity
                    | right; eexists; eexists; vm_compute; reflexivity
                    | vm_compute; reflexivity
                    | right; eexists; eexists; vm_compute; reflexivity
                    | vm_compute; discriminate ])
              ltac:(unfold slope_at; split; [|split; [|split; [|split]]];
                    [ vm_compute; reflexivity
                    | right; eexists; eexists; vm_compute; reflexivity
                    | vm_compute; reflexivity
                    | right; eexists; eexists; vm_compute; reflexivity
                    | vm_compute; discriminate ]))
    as (tables & nu_lookup & nu_exact & Hinit & Hlookup & Hexact & _ & _ & _ & _ & _
        & _ & _ & Htol).
  exists tables, nu_lookup, nu_exact.
  split; [exact Hinit|]. split; [exact Hlookup|]. split; [exact Hexact|].
  exact Htol.
Defined.

(** * Further properties of the renderer *)

(** ** Arrays *)

(** Two arrays of the same length with the same entries are equal. *)
Lemma read_ext {A} (a b : list A) :
  (forall j, 0 <= j -> read a j = read b j) -> a = b.
Proof.
  intros Hread. apply list_eq. intros i.
  specialize (Hread (Z.of_nat i) ltac:(lia)). unfold read in Hread.
  destruct (Z.ltb_spec (Z.of_nat i) 0); [lia|].
  rewrite Nat2Z.id in Hread. exact Hread.
Qed.

Lemma write_Some_bound {A} (a a' : list A) (i : Z) (v : A) :
  write a i v = Some a' -> 0 <= i < Z.of_nat (length a).
Proof.
  unfold write.
  destruct (Z.leb_spec 0 i); [|discriminate].
  destruct (Z.ltb_spec i (Z.of_nat (length a))); [|discriminate].
  intros _. lia.
Qed.

Lemma read_past_end {A} (a : list A) (j : Z) : Z.of_nat (length a) <= j -> read a j = None.
Proof.
  intros Hj. unfold read. destruct (Z.ltb_spec j 0); [reflexivity|].
  apply lookup_ge_None. lia.
Qed.

(** Two arrays of [n] entries that agree below [n] are equal. *)
Lemma read_ext_below {A} (a b : list A) (n : Z) :
  Z.of_nat (length a) = n -> Z.of_nat (length b) = n ->
  (forall j, 0 <= j < n -> read a j = read b j) -> a = b.
Proof.
  intros Ha Hb Hread. apply read_ext. intros j Hj.
  destruct (Z.lt_ge_cases j n) as [Hlt|Hge]; [apply Hread; lia|].
  rewrite !read_past_end by lia. reflexivity.
Qed.


(** ** Packing and unpacking colours *)

(** A number whose bits from 24 on are all set lies in [[-2^24, -1]]. *)
Lemma high_bits_set_range v :
  (forall n, 24 <= n -> Z.testbit v n = true) -> - 2 ^ 24 <= v <= -1.
Proof.
  intros Hbits. split.
  - destruct (Z.le_gt_cases (- 2 ^ 24) v) as [Hle|Hgt]; [exact Hle|exfalso].
    set (w := Z.lnot v). assert (Hw : 2 ^ 24 <= w) by (unfold w, Z.lnot, Z.pred; lia).
    assert (Hlog : 24 <= Z.log2 w) by (apply Z.log2_le_pow2; lia).
    pose proof (Z.bit_log2 w ltac:(lia)) as Hbit.
    unfold w in Hbit at 1. rewrite Z.lnot_spec in Hbit by (apply Z.log2_nonneg).
    rewrite (Hbits _ Hlog) in Hbit. discriminate Hbit.
  - destruct (Z.lt_ge_cases v 0) as [Hneg|Hpos]; [lia|exfalso].
    pose proof (Z.log2_nonneg v) as Hlog.
    specialize (Hbits (Z.max 24 (Z.log2 v + 1)) ltac:(lia)).
    rewrite Z.bits_above_log2 in Hbits by lia. discriminate Hbits.
Qed.

Lemma rgb_high_bits r g b n : 24 <= n -> Z.testbit (Colors.rgb r g b) n = true.
Proof.
  intros Hn. unfold Colors.rgb. rewrite !Z.lor_spec.
  change (shl32 255 24) with (Z.shiftl (-1) 24).
  rewrite Z.shiftl_spec, Z.bits_m1 by lia. reflexivity.
Qed.

Lemma alpha_of_high_bits v :
  (forall n, 24 <= n -> Z.testbit v n = true) -> Z.land (Z.shiftr v 24) 255 = 255.
Proof.
  intros Hbits. apply Z.bits_inj'. intros n Hn.
  rewrite Z.land_spec, Z.shiftr_spec by exact Hn.
  rewrite Hbits by lia. reflexivity.
Qed.

(** X1: [Colors::rgb] never returns a colour that is not opaque, whatever
    [int] values it is given as channels: the result lies in [[-2^24, -1]],
    that is, its alpha byte is [0xFF]. So every colour the smooth mode returns
    is opaque, also when [nu] is NaN or infinite and the conversion of the
    interpolated channels to [int] is left to the hardware. *)
Theorem packed_color_is_always_opaque
    cvt_invalid colorPalette maxIterations colorOffset i nu r g b :
  (- 2 ^ 24 <= Colors.rgb r g b <= -1
   /\ Z.land (Z.shiftr (Colors.rgb r g b) 24) 255 = 255)
  /\ forall color,
       smooth_color cvt_invalid colorPalette maxIterations colorOffset i nu = Some color ->
       - 2 ^ 24 <= color <= -1 /\ Z.land (Z.shiftr color 24) 255 = 255.
Proof.
  assert (Hrgb : forall r g b, - 2 ^ 24 <= Colors.rgb r g b <= -1
                   /\ Z.land (Z.shiftr (Colors.rgb r g b) 24) 255 = 255).
  { intros r' g' b'.
    split; [apply high_bits_set_range | apply alpha_of_high_bits]; apply rgb_high_bits. }
  split; [apply Hrgb|].
  intros color. unfold smooth_color. cbv zeta.
  destruct (read colorPalette _) as [color2|];
    destruct (read colorPalette _) as [color1|];
    cbn [mbind option_bind]; try discriminate.
  intros [= <-]. apply Hrgb.
Qed.

Lemma packed_color_is_always_opaque_witness :
  - 2 ^ 24 <= Colors.rgb INT_MIN 300 (-1) <= -1
  /\ exists color,
       smooth_color cvt_invalid_x86 (grey_palette 50) 50 0 1 (S754_infinity true)
         = Some color
       /\ Z.land (Z.shiftr color 24) 255 = 255.
Proof.
  destruct (packed_color_is_always_opaque cvt_invalid_x86 (grey_palette 50) 50 0 1
              (S754_infinity true) INT_MIN 300 (-1)) as [[Hrange _] Hsmooth].
  split; [exact Hrange|].
  eexists. split; [vm_compute; reflexivity|].
  apply (Hsmooth _ ltac:(vm_compute; reflexivity)).
Defined.

(** Unpacking and packing again sets the alpha byte and nothing else. *)
Lemma rgb_repack color :
  Colors.rgb (Colors.r color) (Colors.g color) (Colors.b color) = Z.lor color (- 2 ^ 24).
Proof.
  apply Z.bits_inj'. intros n Hn.
  rewrite (rgb_testbit _ _ _ n (Colors_r_range color) (Colors_g_range color)
             (Colors_b_range color) Hn).
  rewrite Z.lor_spec. change (- 2 ^ 24) with (Z.shiftl (-1) 24).
  unfold Colors.r, Colors.g, Colors.b.
  destruct (Z.ltb_spec n 8) as [H8|H8];
    [|destruct (Z.ltb_spec n 16) as [H16|H16];
      [|destruct (Z.ltb_spec n 24) as [H24|H24]]].
  - rewrite Z.shiftl_spec_low, orb_false_r by lia.
    rewrite Z.land_spec. change 255 with (Z.ones 8).
    rewrite Z.ones_spec_low by lia. apply andb_true_r.
  - rewrite Z.shiftl_spec_low, orb_false_r by lia.
    rewrite Z.land_spec, Z.shiftr_spec by lia. change 255 with (Z.ones 8).
    rewrite Z.ones_spec_low by lia. rewrite andb_true_r. f_equal. lia.
  - rewrite Z.shiftl_spec_low, orb_false_r by lia.
    rewrite Z.land_spec, Z.shiftr_spec by lia. change 255 with (Z.ones 8).
    rewrite Z.ones_spec_low by lia. rewrite andb_true_r. f_equal. lia.
  - rewrite Z.shiftl_spec, Z.bits_m1 by lia. symmetry. apply orb_true_r.
Qed.

(** X2: unpacking a colour with [Colors::r], [Colors::g], [Colors::b] and
    packing the three channels again with [Colors::rgb] gives the colour with
    its alpha byte set to [0xFF]; an opaque colour (one in [[-2^24, -1]])
    comes back unchanged. *)
Theorem unpacking_then_packing_forces_alpha color :
  Colors.rgb (Colors.r color) (Colors.g color) (Colors.b color)
  = Z.lor color (- 2 ^ 24)
  /\ (- 2 ^ 24 <= color <= -1 ->
      Colors.rgb (Colors.r color) (Colors.g color) (Colors.b color) = color).
Proof.
  pose proof (rgb_repack color) as Hpack.
  split; [exact Hpack|].
  intros Hopaque. rewrite Hpack. apply Z.bits_inj'. intros n Hn.
  rewrite Z.lor_spec. change (- 2 ^ 24) with (Z.shiftl (-1) 24).
  destruct (Z.lt_ge_cases n 24) as [Hlo|Hhi].
  - rewrite Z.shiftl_spec_low by lia. apply orb_false_r.
  - rewrite Z.shiftl_spec, Z.bits_m1, orb_true_r by lia. symmetry.
    apply Z.bits_above_log2_neg; [lia|].
    destruct (Z.eq_dec color (-1)) as [->|Hne];
      [change (Z.log2 (Z.pred (- -1))) with 0; lia|].
    assert (Z.log2 (Z.pred (- color)) < 24); [|lia].
    apply Z.log2_lt_pow2; lia.
Qed.

Lemma unpacking_then_packing_forces_alpha_witness :
  Colors.rgb (Colors.r (-16711936)) (Colors.g (-16711936)) (Colors.b (-16711936))
  = -16711936.
Proof.
  apply (proj2 (unpacking_then_packing_forces_alpha (-16711936))). lia.
Defined.

(** ** initNative starts from nothing *)

(** X3: [initNative] overwrites every entry of both tables: the tables it
    leaves do not depend on what they held before, and running it again on
    its own result changes nothing. *)
Theorem initNative_forgets_old_contents log2 (t1 t2 : Tables) :
  Z.of_nat (length (logMagnitudeLookupTable t1)) = TABLE_SIZE ->
  Z.of_nat (length (logLogLookupTable t1)) = TABLE_SIZE ->
  Z.of_nat (length (logMagnitudeLookupTable t2)) = TABLE_SIZE ->
  Z.of_nat (length (logLogLookupTable t2)) = TABLE_SIZE ->
  exists t',
    initNative log2 t1 = Some t'
    /\ initNative log2 t2 = Some t'
    /\ initNative log2 t' = Some t'.
Proof.
  intros Hm1 Hl1 Hm2 Hl2.
  assert (Hsame : forall a b, Z.of_nat (length (logMagnitudeLookupTable a)) = TABLE_SIZE ->
            Z.of_nat (length (logLogLookupTable a)) = TABLE_SIZE ->
            Z.of_nat (length (logMagnitudeLookupTable b)) = TABLE_SIZE ->
            Z.of_nat (length (logLogLookupTable b)) = TABLE_SIZE ->
            initNative log2 a = initNative log2 b).
  { intros a b Hma Hla Hmb Hlb.
    destruct (initNative_spec log2 a Hma Hla) as (a' & -> & Hma' & Hla' & Ha).
    destruct (initNative_spec log2 b Hmb Hlb) as (b' & -> & Hmb' & Hlb' & Hb).
    f_equal. destruct a' as [ma la], b' as [mb lb].
    cbn [logMagnitudeLookupTable logLogLookupTable] in *.
    f_equal; apply (read_ext_below _ _ TABLE_SIZE); try assumption;
      intros j Hj; unfold TABLE_SIZE in Hj;
      destruct (Ha j ltac:(lia)) as [Ea Ea']; destruct (Hb j ltac:(lia)) as [Eb Eb'];
      congruence. }
  destruct (initNative_spec log2 t1 Hm1 Hl1) as (t' & Hrun & Hm' & Hl' & _).
  exists t'. split; [exact Hrun|].
  split; rewrite <- Hrun; apply Hsame; assumption.
Qed.

Lemma initNative_forgets_old_contents_witness :
  exists t',
    initNative log2_ref tables_zero = Some t'
    /\ initNative log2_ref
         {| logMagnitudeLookupTable := replicate (Z.to_nat TABLE_SIZE) S754_nan;
            logLogLookupTable := replicate (Z.to_nat TABLE_SIZE) (F64.of_Z 7) |}
       = Some t'.
Proof.
  destruct (initNative_forgets_old_contents log2_ref tables_zero
              {| logMagnitudeLookupTable := replicate (Z.to_nat TABLE_SIZE) S754_nan;
                 logLogLookupTable := replicate (Z.to_nat TABLE_SIZE) (F64.of_Z 7) |}
              ltac:(vm_compute; reflexivity) ltac:(vm_compute; reflexivity)
              ltac:(vm_compute; reflexivity) ltac:(vm_compute; reflexivity))
    as (t' & H1 & H2 & _).
  exists t'. split; assumption.
Defined.

(** ** More on the escape-time loop: special values and the iteration budget *)

Lemma F64_add_nan_r a : (a + S754_nan)%f64 = S754_nan.
Proof. destruct a; reflexivity. Qed.

Lemma F64_mul_nan_r a : (a * S754_nan)%f64 = S754_nan.
Proof. destruct a; reflexivity. Qed.

Lemma fgt_nan_l b : fgt S754_nan b = false.
Proof. destruct b; reflexivity. Qed.

(** Nothing is greater than [+inf], and nothing is greater than NaN. *)
Lemma fgt_unbounded a b : b = S754_infinity false \/ b = S754_nan -> fgt a b = false.
Proof. intros [-> | ->]; destruct a as [s|s| |s m e]; try destruct s; reflexivity. Qed.

(** A NaN in one coordinate of [z] fails the escape test. *)
Lemma exceeds_nan escapeRadiusSquared z :
  fst z = S754_nan \/ snd z = S754_nan -> exceeds escapeRadiusSquared z = false.
Proof.
  destruct z as [z_re z_im]. unfold exceeds. cbn [fst snd].
  intros [-> | ->]; [|rewrite F64_mul_nan_r, F64_add_nan_r; apply fgt_nan_l].
  cbn. apply fgt_nan_l.
Qed.

(** A NaN in one coordinate of [c] is in the same coordinate of every iterate
    after the first step. *)
Lemma orbit_nan c k :
  fst c = S754_nan \/ snd c = S754_nan ->
  fst (orbit c (S k)) = S754_nan \/ snd (orbit c (S k)) = S754_nan.
Proof.
  rewrite orbit_succ. unfold mandel_step. cbn [fst snd].
  intros [-> | ->]; [left | right]; apply F64_add_nan_r.
Qed.

Lemma exceeds_origin escapeRadiusSquared :
  exceeds escapeRadiusSquared (S754_zero false, S754_zero false)
  = flt escapeRadiusSquared (F64.of_Z 0).
Proof. reflexivity. Qed.

(** The pixel that passes no escape test below [maxIterations]. *)
Lemma count_when_no_escape x y transform maxIterations escapeRadiusSquared :
  0 <= maxIterations ->
  (forall k, Z.of_nat k < maxIterations ->
     exceeds escapeRadiusSquared (orbit (pixel_c transform x y) k) = false) ->
  snd (evaluate_pixel x y transform maxIterations escapeRadiusSquared) = maxIterations.
Proof.
  intros Hmax Hno.
  rewrite (evaluate_pixel_count x y transform maxIterations escapeRadiusSquared
             (Z.to_nat maxIterations)).
  - cbn [snd]. lia.
  - lia.
  - intros k Hk. apply Hno. lia.
  - lia.
Qed.

(** X4: a pixel whose point [c] has a NaN coordinate never passes the escape
    test, because every comparison with NaN is false: when
    [escapeRadiusSquared] is not negative the loop runs all [maxIterations]
    passes and the pixel gets the interior colour [palette[maxIterations]]. *)
Theorem nan_point_is_interior
    log2 cvt_invalid tables x y transform maxIterations escapeRadiusSquared
    colorPalette colorOffset smoothColors useLog2Lookup
    logMagnitudeScaleFactor logLogScaleFactor log2_2 :
  0 <= maxIterations ->
  flt escapeRadiusSquared (F64.of_Z 0) = false ->
  fst (pixel_c transform x y) = S754_nan \/ snd (pixel_c transform x y) = S754_nan ->
  snd (evaluate_pixel x y transform maxIterations escapeRadiusSquared) = maxIterations
  /\ calculate_pixel_color log2 cvt_invalid tables x y transform maxIterations
       escapeRadiusSquared colorPalette colorOffset smoothColors useLog2Lookup
       logMagnitudeScaleFactor logLogScaleFactor log2_2
     = read colorPalette maxIterations.
Proof.
  intros Hmax Hrad Hnan.
  assert (Hcount : snd (evaluate_pixel x y transform maxIterations escapeRadiusSquared)
                   = maxIterations).
  { apply count_when_no_escape; [exact Hmax|]. intros [|k] _.
    - rewrite <- Hrad. apply exceeds_origin.
    - apply exceeds_nan, orbit_nan, Hnan. }
  split; [exact Hcount | apply interior_color, Hcount].
Qed.

Lemma nan_point_is_interior_witness :
  calculate_pixel_color log2_ref cvt_invalid_x86 tables_zero 0 0
    (constant_transform S754_nan (F64.of_Z 3)) 50 (F64.of_Z 4)
    (grey_palette 50) 7 true false (F64.of_Z 1) (F64.of_Z 1) (F64.of_Z 1)
  = read (grey_palette 50) 50.
Proof.
  apply (nan_point_is_interior log2_ref cvt_invalid_x86 tables_zero 0 0
           (constant_transform S754_nan (F64.of_Z 3)) 50 (F64.of_Z 4)
           (grey_palette 50) 7 true false (F64.of_Z 1) (F64.of_Z 1) (F64.of_Z 1)).
  - lia.
  - reflexivity.
  - left. reflexivity.
Defined.

(** X5: the escape radius decides alone in two cases. When
    [escapeRadiusSquared] is [+inf] or NaN no pixel passes the escape test and
    every pixel gets the interior colour. When it is negative the first test,
    made on [z = 0] before any step, already passes: every pixel leaves the
    loop with count 0 and [z = 0], and its discrete colour is
    [palette[((0 + colorOffset) % maxIterations + maxIterations) % maxIterations]]. *)
Theorem escape_radius_without_circle
    log2 cvt_invalid tables x y transform maxIterations escapeRadiusSquared
    colorPalette colorOffset smoothColors useLog2Lookup
    logMagnitudeScaleFactor logLogScaleFactor log2_2 :
  (0 <= maxIterations ->
   escapeRadiusSquared = S754_infinity false \/ escapeRadiusSquared = S754_nan ->
   snd (evaluate_pixel x y transform maxIterations escapeRadiusSquared) = maxIterations
   /\ calculate_pixel_color log2 cvt_invalid tables x y transform maxIterations
        escapeRadiusSquared colorPalette colorOffset smoothColors useLog2Lookup
        logMagnitudeScaleFactor logLogScaleFactor log2_2
      = read colorPalette maxIterations)
  /\ (1 <= maxIterations ->
      flt escapeRadiusSquared (F64.of_Z 0) = true ->
      evaluate_pixel x y transform maxIterations escapeRadiusSquared
        = (S754_zero false, S754_zero false, 0)
      /\ calculate_pixel_color log2 cvt_invalid tables x y transform maxIterations
           escapeRadiusSquared colorPalette colorOffset false useLog2Lookup
           logMagnitudeScaleFactor logLogScaleFactor log2_2
         = read colorPalette (palette_index 0 colorOffset maxIterations)).
Proof.
  split.
  - intros Hmax Hrad.
    assert (Hcount : snd (evaluate_pixel x y transform maxIterations escapeRadiusSquared)
                     = maxIterations).
    { apply count_when_no_escape; [exact Hmax|]. intros k _.
      unfold exceeds. apply fgt_unbounded, Hrad. }
    split; [exact Hcount | apply interior_color, Hcount].
  - intros Hmax Hrad.
    assert (Hrun : evaluate_pixel x y transform maxIterations escapeRadiusSquared
                   = (S754_zero false, S754_zero false, 0)).
    { rewrite (evaluate_pixel_count x y transform maxIterations escapeRadiusSquared 0).
      - reflexivity.
      - lia.
      - intros k Hk. lia.
      - intros _. rewrite <- Hrad. apply exceeds_origin. }
    split; [exact Hrun|].
    unfold calculate_pixel_color. rewrite Hrun. unfold resolve_color.
    destruct (Z.eqb_spec 0 maxIterations); [lia | reflexivity].
Qed.

Lemma escape_radius_without_circle_witness :
  calculate_pixel_color log2_ref cvt_invalid_x86 tables_zero 0 0
    (constant_transform (F64.of_Z 100) (F64.of_Z 3)) 50 (S754_infinity false)
    (grey_palette 50) 7 true false (F64.of_Z 1) (F64.of_Z 1) (F64.of_Z 1)
  = read (grey_palette 50) 50
  /\ evaluate_pixel 0 0 (constant_transform (F64.of_Z 0) (F64.of_Z 0)) 50 (F64.of_Z (-1))
     = (S754_zero false, S754_zero false, 0).
Proof.
  split.
  - apply (proj1 (escape_radius_without_circle log2_ref cvt_invalid_x86 tables_zero 0 0
             (constant_transform (F64.of_Z 100) (F64.of_Z 3)) 50 (S754_infinity false)
             (grey_palette 50) 7 true false (F64.of_Z 1) (F64.of_Z 1) (F64.of_Z 1)));
      [lia | left; reflexivity].
  - apply (proj2 (escape_radius_without_circle log2_ref cvt_invalid_x86 tables_zero 0 0
             (constant_transform (F64.of_Z 0) (F64.of_Z 0)) 50 (F64.of_Z (-1))
             (grey_palette 50) 7 true false (F64.of_Z 1) (F64.of_Z 1) (F64.of_Z 1)));
      [lia | reflexivity].
Defined.

(** The first step from [z = 0] lands on [c], a zero coordinate of [c]
    becoming [+0]: its squares, and so the escape test on it, are those of
    [c]. *)
Lemma first_iterate_squares c :
  (fst (orbit c 1) * fst (orbit c 1))%f64 = (fst c * fst c)%f64
  /\ (snd (orbit c 1) * snd (orbit c 1))%f64 = (snd c * snd c)%f64.
Proof.
  destruct c as [c_re c_im]. cbn [fst snd].
  change (orbit (c_re, c_im) 1) with
    ((S754_zero false + c_re)%f64, (S754_zero false + c_im)%f64).
  cbn [fst snd].
  split; [destruct c_re as [s|s| |s m e] | destruct c_im as [s|s| |s m e]];
    try destruct s; reflexivity.
Qed.

(** X6: with an escape radius that is not negative, no pixel has count 0 when
    [maxIterations >= 1], and a pixel whose point [c] itself passes the escape
    test has count exactly 1 when [maxIterations >= 2]: the loop leaves with
    [|z|² = |c|²] and the discrete colour is
    [palette[((1 + colorOffset) % maxIterations + maxIterations) % maxIterations]]. *)
Theorem point_outside_circle_has_count_one
    log2 cvt_invalid tables x y transform maxIterations escapeRadiusSquared
    colorPalette colorOffset useLog2Lookup
    logMagnitudeScaleFactor logLogScaleFactor log2_2 :
  flt escapeRadiusSquared (F64.of_Z 0) = false ->
  (1 <= maxIterations ->
   1 <= snd (evaluate_pixel x y transform maxIterations escapeRadiusSquared))
  /\ (2 <= maxIterations ->
      exceeds escapeRadiusSquared (pixel_c transform x y) = true ->
      exists z_re z_im,
        evaluate_pixel x y transform maxIterations escapeRadiusSquared = (z_re, z_im, 1)
        /\ (z_re * z_re + z_im * z_im)%f64
           = (fst (pixel_c transform x y) * fst (pixel_c transform x y)
              + snd (pixel_c transform x y) * snd (pixel_c transform x y))%f64
        /\ calculate_pixel_color log2 cvt_invalid tables x y transform maxIterations
             escapeRadiusSquared colorPalette colorOffset false useLog2Lookup
             logMagnitudeScaleFactor logLogScaleFactor log2_2
           = read colorPalette (palette_index 1 colorOffset maxIterations)).
Proof.
  intros Hrad. split.
  - intros Hmax.
    destruct (evaluate_pixel_spec x y transform maxIterations escapeRadiusSquared
                ltac:(lia)) as (n & -> & _ & _ & Hstop).
    cbn [snd]. destruct n as [|n]; [|lia].
    specialize (Hstop ltac:(lia)). change (orbit (pixel_c transform x y) 0)
      with (S754_zero false, S754_zero false) in Hstop.
    rewrite exceeds_origin in Hstop. congruence.
  - intros Hmax Hout.
    destruct (first_iterate_squares (pixel_c transform x y)) as [Hre Him].
    assert (Hrun : evaluate_pixel x y transform maxIterations escapeRadiusSquared
                   = (orbit (pixel_c transform x y) 1, 1)).
    { apply (evaluate_pixel_count x y transform maxIterations escapeRadiusSquared 1).
      - lia.
      - intros [|k] Hk; [|lia]. rewrite <- Hrad. apply exceeds_origin.
      - intros _. unfold exceeds. rewrite Hre, Him. exact Hout. }
    exists (fst (orbit (pixel_c transform x y) 1)), (snd (orbit (pixel_c transform x y) 1)).
    rewrite <- surjective_pairing. split; [exact Hrun|].
    split; [rewrite Hre, Him; reflexivity|].
    unfold calculate_pixel_color. rewrite Hrun.
    destruct (orbit (pixel_c transform x y) 1) as [z_re z_im]. unfold resolve_color.
    destruct (Z.eqb_spec 1 maxIterations); [lia | reflexivity].
Qed.

Lemma point_outside_circle_has_count_one_witness :
  exists z_re z_im,
    evaluate_pixel 0 0 (constant_transform (F64.of_Z 3) (F64.of_Z 1)) 50 (F64.of_Z 4)
    = (z_re, z_im, 1).
Proof.
  destruct (proj2 (point_outside_circle_has_count_one log2_ref cvt_invalid_x86 tables_zero
              0 0 (constant_transform (F64.of_Z 3) (F64.of_Z 1)) 50 (F64.of_Z 4)
              (grey_palette 50) 0 false (F64.of_Z 1) (F64.of_Z 1) (F64.of_Z 1)
              ltac:(reflexivity)) ltac:(lia) ltac:(vm_compute; reflexivity))
    as (z_re & z_im & Hrun & _).
  exists z_re, z_im. exact Hrun.
Defined.

(** X7: raising the iteration budget does not change a pixel that has
    escaped: if the count is below [maxIterations], the loop returns the same
    count and the same [z] for every larger budget; and a pixel that is
    interior for [maxIterations] has a count of at least [maxIterations] for
    every larger budget. *)
Theorem larger_budget_keeps_escaped_pixels
    x y transform maxIterations maxIterations' escapeRadiusSquared :
  0 <= maxIterations <= maxIterations' ->
  (snd (evaluate_pixel x y transform maxIterations escapeRadiusSquared) < maxIterations ->
   evaluate_pixel x y transform maxIterations' escapeRadiusSquared
   = evaluate_pixel x y transform maxIterations escapeRadiusSquared)
  /\ (snd (evaluate_pixel x y transform maxIterations escapeRadiusSquared) = maxIterations ->
      maxIterations
      <= snd (evaluate_pixel x y transform maxIterations' escapeRadiusSquared)).
Proof.
  intros Hmax.
  destruct (evaluate_pixel_spec x y transform maxIterations escapeRadiusSquared
              ltac:(lia)) as (n & Hrun & Hn & Hno & Hstop).
  rewrite Hrun. cbn [snd]. split.
  - intros Hlt.
    apply (evaluate_pixel_count x y transform maxIterations' escapeRadiusSquared n).
    + lia.
    + exact Hno.
    + intros _. apply Hstop, Hlt.
  - intros Heq.
    destruct (evaluate_pixel_spec x y transform maxIterations' escapeRadiusSquared
                ltac:(lia)) as (n' & -> & Hn' & Hno' & Hstop').
    cbn [snd]. destruct (Z.lt_ge_cases (Z.of_nat n') maxIterations) as [Hlt|Hge]; [|lia].
    rewrite Hno in Hstop' by lia. discriminate Hstop'. lia.
Qed.

Lemma larger_budget_keeps_escaped_pixels_witness :
  evaluate_pixel 0 0 (constant_transform (F64.of_Z 2) (F64.of_Z 0)) 1000 (F64.of_Z 4)
  = evaluate_pixel 0 0 (constant_transform (F64.of_Z 2) (F64.of_Z 0)) 50 (F64.of_Z 4).
Proof.
  apply (proj1 (larger_budget_keeps_escaped_pixels 0 0
           (constant_transform (F64.of_Z 2) (F64.of_Z 0)) 50 1000 (F64.of_Z 4)
           ltac:(lia))).
  vm_compute. reflexivity.
Defined.

(** ** The escape radius *)

(** [a <= b] and [b < c] give [a < c], also across zeros and infinities. *)
Lemma SFleb_SFltb_trans a b c : SFleb a b = true -> SFltb b c = true -> SFltb a c = true.
Proof.
  unfold SFleb, SFltb.
  destruct a as [sa|sa| |sa ma ea], b as [sb|sb| |sb mb eb], c as [sc|sc| |sc mc ec];
    cbn [SFcompare]; try discriminate; try reflexivity;
    try (destruct sa; try discriminate; try reflexivity);
    try (destruct sb; try discriminate; try reflexivity);
    try (destruct sc; try discriminate; try reflexivity).
  all: change (Pos.compare_cont Eq ma mb) with (ma ?= mb)%positive;
    change (Pos.compare_cont Eq mb mc) with (mb ?= mc)%positive;
    change (Pos.compare_cont Eq ma mc) with (ma ?= mc)%positive;
    destruct (Z.compare_spec ea eb), (Z.compare_spec eb ec), (Z.compare_spec ea ec);
    try lia;
    destruct (Pos.compare_spec ma mb), (Pos.compare_spec mb mc), (Pos.compare_spec ma mc);
    try lia; cbn [CompOpp]; congruence.
Qed.

(** X8: a larger escape radius never lowers the count of a pixel: when
    [escapeRadiusSquared <= escapeRadiusSquared'], the count for the second is
    at least the count for the first; in particular a pixel that is interior
    for the smaller radius is interior for the larger one. *)
Theorem larger_radius_never_lowers_the_count
    x y transform maxIterations escapeRadiusSquared escapeRadiusSquared' :
  0 <= maxIterations ->
  SFleb escapeRadiusSquared escapeRadiusSquared' = true ->
  snd (evaluate_pixel x y transform maxIterations escapeRadiusSquared)
  <= snd (evaluate_pixel x y transform maxIterations escapeRadiusSquared')
  /\ (snd (evaluate_pixel x y transform maxIterations escapeRadiusSquared) = maxIterations ->
      snd (evaluate_pixel x y transform maxIterations escapeRadiusSquared')
      = maxIterations).
Proof.
  intros Hmax Hle.
  destruct (evaluate_pixel_spec x y transform maxIterations escapeRadiusSquared Hmax)
    as (n & -> & Hn & Hno & _).
  destruct (evaluate_pixel_spec x y transform maxIterations escapeRadiusSquared' Hmax)
    as (n' & -> & Hn' & _ & Hstop').
  cbn [snd].
  assert (Hord : Z.of_nat n <= Z.of_nat n').
  { destruct (Z.le_gt_cases (Z.of_nat n) (Z.of_nat n')) as [Hok|Hlt]; [exact Hok|exfalso].
    specialize (Hstop' ltac:(lia)). specialize (Hno n' ltac:(lia)).
    unfold exceeds, fgt in Hstop', Hno.
    rewrite (SFleb_SFltb_trans _ _ _ Hle Hstop') in Hno. discriminate Hno. }
  split; [exact Hord | lia].
Qed.

Lemma larger_radius_never_lowers_the_count_witness :
  snd (evaluate_pixel 0 0 (constant_transform (F64.of_Z 1) (F64.of_Z 0)) 50 (F64.of_Z 4))
  <= snd (evaluate_pixel 0 0 (constant_transform (F64.of_Z 1) (F64.of_Z 0)) 50
            (F64.of_Z 100)).
Proof.
  apply (larger_radius_never_lowers_the_count 0 0
           (constant_transform (F64.of_Z 1) (F64.of_Z 0)) 50 (F64.of_Z 4) (F64.of_Z 100)).
  - lia.
  - reflexivity.
Defined.

(** ** Iteration budgets below one *)





(** ** The mirror symmetry of the escape-time loop

    Negating the imaginary part of [c] negates the imaginary part of every
    iterate, up to the sign of a zero, and leaves the real part and the
    squares alone: IEEE rounding to nearest is symmetric. *)

Section Opposite.

Variables prec emax : Z.

Lemma binary_round_aux_opp s m e l :
  binary_round_aux prec emax (negb s) m e l = SFopp (binary_round_aux prec emax s m e l).
Proof.
  unfold binary_round_aux.
  destruct (shr_fexp prec emax m e l) as [mrs' e'].
  destruct (shr_fexp prec emax _ e' loc_Exact) as [mrs'' e''].
  destruct (shr_m mrs''); [reflexivity | | reflexivity].
  destruct (e'' <=? emax - prec); reflexivity.
Qed.

Lemma binary_round_opp s m e :
  binary_round prec emax (negb s) m e = SFopp (binary_round prec emax s m e).
Proof.
  unfold binary_round. destruct (shl_align m e _) as [mz ez].
  apply binary_round_aux_opp.
Qed.

Lemma binary_normalize_opp m e :
  drop_zero_sign (binary_normalize prec emax (- m) e false)
  = drop_zero_sign (SFopp (binary_normalize prec emax m e false)).
Proof.
  pose proof (fun p => binary_round_opp false p e) as Hopp. cbn [negb] in Hopp.
  destruct m as [|p|p]; [reflexivity| |].
  - change (- Z.pos p) with (Z.neg p). cbn [binary_normalize].
    rewrite Hopp. reflexivity.
  - change (- Z.neg p) with (Z.pos p). cbn [binary_normalize].
    rewrite Hopp.
    destruct (binary_round prec emax false p e) as [s|s| |s m ex];
      try destruct s; reflexivity.
Qed.

Lemma SFmul_opp_r a b : SFmul prec emax a (SFopp b) = SFopp (SFmul prec emax a b).
Proof.
  destruct a as [sa|sa| |sa ma ea], b as [sb|sb| |sb mb eb]; cbn [SFmul SFopp];
    try reflexivity; try (destruct sa, sb; reflexivity).
  rewrite <- binary_round_aux_opp. destruct sa, sb; reflexivity.
Qed.

Lemma SFadd_opp a b :
  drop_zero_sign (SFadd prec emax (SFopp a) (SFopp b))
  = drop_zero_sign (SFopp (SFadd prec emax a b)).
Proof.
  destruct a as [sa|sa| |sa ma ea], b as [sb|sb| |sb mb eb]; cbn [SFadd SFopp];
    try reflexivity; try (destruct sa, sb; reflexivity).
  rewrite <- binary_normalize_opp. do 2 f_equal.
  destruct sa, sb; cbn [negb cond_Zopp]; lia.
Qed.

End Opposite.

Lemma drop_zero_sign_cases a b :
  drop_zero_sign a = drop_zero_sign b ->
  a = b \/ exists s s', a = S754_zero s /\ b = S754_zero s'.
Proof.
  destruct a as [sa|sa| |sa ma ea], b as [sb|sb| |sb mb eb]; cbn [drop_zero_sign];
    intros H; try discriminate H; eauto.
Qed.

Lemma F64_mul_zero_sign a b b' :
  drop_zero_sign b = drop_zero_sign b' ->
  drop_zero_sign (a * b)%f64 = drop_zero_sign (a * b')%f64.
Proof.
  intros H. destruct (drop_zero_sign_cases _ _ H) as [-> | (s & s' & -> & ->)];
    [reflexivity|].
  destruct a as [sa|sa| |sa ma ea]; reflexivity.
Qed.

Lemma F64_add_zero_sign a a' b :
  drop_zero_sign a = drop_zero_sign a' ->
  drop_zero_sign (a + b)%f64 = drop_zero_sign (a' + b)%f64.
Proof.
  intros H. destruct (drop_zero_sign_cases _ _ H) as [-> | (s & s' & -> & ->)];
    [reflexivity|].
  destruct b as [sb|sb| |sb mb eb]; try reflexivity.
  destruct s, s', sb; reflexivity.
Qed.

(** The square does not see the sign, nor the sign of a zero. *)
Lemma F64_square_opp a a' :
  drop_zero_sign a' = drop_zero_sign (SFopp a) -> (a' * a')%f64 = (a * a)%f64.
Proof.
  intros H. destruct (drop_zero_sign_cases _ _ H) as [-> | (s & s' & -> & Hz)].
  - destruct a as [s|s| |s m e]; try destruct s; reflexivity.
  - destruct a as [sa|sa| |sa ma ea]; try discriminate Hz.
    destruct s, sa; reflexivity.
Qed.

(** One pass of the loop keeps the two runs mirror images of each other. *)
Lemma mirror_step z_re z_im z_im' c_im :
  drop_zero_sign z_im' = drop_zero_sign (SFopp z_im) ->
  drop_zero_sign (F64.of_Z 2 * z_re * z_im' + SFopp c_im)%f64
  = drop_zero_sign (SFopp (F64.of_Z 2 * z_re * z_im + c_im)%f64).
Proof.
  intros H. unfold F64.add at 2. rewrite <- SFadd_opp.
  apply F64_add_zero_sign. unfold F64.mul at 3. rewrite <- SFmul_opp_r.
  apply F64_mul_zero_sign. rewrite H. reflexivity.
Qed.

Lemma escape_loop_mirror maxIterations escapeRadiusSquared c_re c_im (fuel : nat) :
  forall z_re z_im z_im' i,
  drop_zero_sign z_im' = drop_zero_sign (SFopp z_im) ->
  exists r_re r_im r_im' n,
    escape_loop fuel maxIterations escapeRadiusSquared c_re c_im z_re z_im i
      = (r_re, r_im, n)
    /\ escape_loop fuel maxIterations escapeRadiusSquared c_re (SFopp c_im) z_re z_im' i
       = (r_re, r_im', n)
    /\ drop_zero_sign r_im' = drop_zero_sign (SFopp r_im).
Proof.
  induction fuel as [|fuel IH]; intros z_re z_im z_im' i Hz; cbn [escape_loop];
    rewrite (F64_square_opp z_im z_im' Hz);
    destruct (i <? maxIterations); eauto 7;
    destruct (fgt _ escapeRadiusSquared); eauto 7.
  apply IH, mirror_step, Hz.
Qed.

(** X10: two pixels whose points [c] are mirror images in the real axis (same
    real part, opposite imaginary parts) leave the loop with the same count,
    the same real part and the same [|z|²], and get the same colour, in every
    colour mode: the rendered set is exactly symmetric about the real axis. *)
Theorem mirror_pixels_have_the_same_color
    log2 cvt_invalid tables x y transform x' y' transform' maxIterations
    escapeRadiusSquared colorPalette colorOffset smoothColors useLog2Lookup
    logMagnitudeScaleFactor logLogScaleFactor log2_2 :
  fst (pixel_c transform' x' y') = fst (pixel_c transform x y) ->
  snd (pixel_c transform' x' y') = SFopp (snd (pixel_c transform x y)) ->
  snd (evaluate_pixel x' y' transform' maxIterations escapeRadiusSquared)
  = snd (evaluate_pixel x y transform maxIterations escapeRadiusSquared)
  /\ calculate_pixel_color log2 cvt_invalid tables x' y' transform' maxIterations
       escapeRadiusSquared colorPalette colorOffset smoothColors useLog2Lookup
       logMagnitudeScaleFactor logLogScaleFactor log2_2
     = calculate_pixel_color log2 cvt_invalid tables x y transform maxIterations
         escapeRadiusSquared colorPalette colorOffset smoothColors useLog2Lookup
         logMagnitudeScaleFactor logLogScaleFactor log2_2.
Proof.
  intros Hre Him. unfold calculate_pixel_color, evaluate_pixel.
  destruct (pixel_c transform x y) as [c_re c_im].
  destruct (pixel_c transform' x' y') as [c_re' c_im'].
  cbn [fst snd] in Hre, Him. subst c_re' c_im'.
  destruct (escape_loop_mirror maxIterations escapeRadiusSquared c_re c_im
              (Z.to_nat maxIterations) (S754_zero false) (S754_zero false)
              (S754_zero false) 0 eq_refl)
    as (r_re & r_im & r_im' & n & -> & -> & Hr).
  split; [reflexivity|].
  unfold resolve_color. rewrite (F64_square_opp r_im r_im' Hr). reflexivity.
Qed.

Lemma mirror_pixels_have_the_same_color_witness :
  calculate_pixel_color log2_ref cvt_invalid_x86 tables_zero 0 0
    (constant_transform (F64.of_Z 1) (F64.of_Z (-2))) 50 (F64.of_Z 4)
    (grey_palette 50) 7 true false (F64.of_Z 1) (F64.of_Z 1) (F64.of_Z 1)
  = calculate_pixel_color log2_ref cvt_invalid_x86 tables_zero 0 0
      (constant_transform (F64.of_Z 1) (F64.of_Z 2)) 50 (F64.of_Z 4)
      (grey_palette 50) 7 true false (F64.of_Z 1) (F64.of_Z 1) (F64.of_Z 1).
Proof.
  apply (mirror_pixels_have_the_same_color log2_ref cvt_invalid_x86 tables_zero 0 0
           (constant_transform (F64.of_Z 1) (F64.of_Z 2)) 0 0
           (constant_transform (F64.of_Z 1) (F64.of_Z (-2))) 50 (F64.of_Z 4)
           (grey_palette 50) 7 true false (F64.of_Z 1) (F64.of_Z 1) (F64.of_Z 1));
    vm_compute; reflexivity.
Defined.

(** ** The colour cycle *)

(** X11: the palette index is periodic, with period [maxIterations], in the
    colour offset and in the count, and the offset only shifts the count: for
    [1 <= maxIterations <= 2^30] and sums that fit an [int], adding
    [maxIterations] to [colorOffset] or to the count leaves the index
    unchanged, and the index of the count [k + 1] is the cyclic successor of
    the index of [k], the successor of [maxIterations - 1] being 0. In
    discrete mode the colour of a pixel is therefore the same for
    [colorOffset] and for [colorOffset + maxIterations]. *)
Theorem color_cycle_has_period_maxIterations
    log2 cvt_invalid tables x y transform maxIterations escapeRadiusSquared
    colorPalette colorOffset useLog2Lookup
    logMagnitudeScaleFactor logLogScaleFactor log2_2 k :
  1 <= maxIterations <= 2 ^ 30 ->
  (INT_MIN <= k + colorOffset -> k + colorOffset + maxIterations <= INT_MAX ->
   palette_index k (colorOffset + maxIterations) maxIterations
     = palette_index k colorOffset maxIterations
   /\ palette_index (k + maxIterations) colorOffset maxIterations
      = palette_index k colorOffset maxIterations
   /\ palette_index (k + 1) colorOffset maxIterations
      = (palette_index k colorOffset maxIterations + 1) mod maxIterations)
  /\ (INT_MIN <= colorOffset -> colorOffset + 2 * maxIterations <= INT_MAX ->
      calculate_pixel_color log2 cvt_invalid tables x y transform maxIterations
        escapeRadiusSquared colorPalette (colorOffset + maxIterations) false
        useLog2Lookup logMagnitudeScaleFactor logLogScaleFactor log2_2
      = calculate_pixel_color log2 cvt_invalid tables x y transform maxIterations
          escapeRadiusSquared colorPalette colorOffset false
          useLog2Lookup logMagnitudeScaleFactor logLogScaleFactor log2_2).
Proof.
  intros Hmax.
  assert (Hperiod : forall j, INT_MIN <= j + colorOffset ->
            j + colorOffset + maxIterations <= INT_MAX ->
            palette_index j (colorOffset + maxIterations) maxIterations
            = palette_index j colorOffset maxIterations).
  { intros j Hlo Hhi. rewrite !palette_index_mod by lia.
    replace (j + (colorOffset + maxIterations))
      with (j + colorOffset + 1 * maxIterations) by lia.
    apply Z.mod_add. lia. }
  split.
  - intros Hlo Hhi. split; [apply Hperiod; assumption|].
    rewrite !palette_index_mod by lia. split.
    + replace (k + maxIterations + colorOffset)
        with (k + colorOffset + 1 * maxIterations) by lia.
      apply Z.mod_add. lia.
    + replace (k + 1 + colorOffset) with (k + colorOffset + 1) by lia.
      rewrite <- Zplus_mod_idemp_l. reflexivity.
  - intros Hlo Hhi. unfold calculate_pixel_color.
    destruct (evaluate_pixel_spec x y transform maxIterations escapeRadiusSquared
                ltac:(lia)) as (n & -> & Hn & _).
    destruct (orbit (pixel_c transform x y) n) as [z_re z_im]. unfold resolve_color.
    destruct (Z.of_nat n =? maxIterations); [reflexivity|].
    rewrite Hperiod by lia. reflexivity.
Qed.

Lemma color_cycle_has_period_maxIterations_witness :
  palette_index 49 (3 + 50) 50 = palette_index 49 3 50
  /\ palette_index (49 + 1) 0 50 = (palette_index 49 0 50 + 1) mod 50
  /\ calculate_pixel_color log2_ref cvt_invalid_x86 tables_zero 0 0
       (constant_transform (F64.of_Z 2) (F64.of_Z 0)) 50 (F64.of_Z 4)
       (grey_palette 50) (3 + 50) false false (F64.of_Z 1) (F64.of_Z 1) (F64.of_Z 1)
     = calculate_pixel_color log2_ref cvt_invalid_x86 tables_zero 0 0
         (constant_transform (F64.of_Z 2) (F64.of_Z 0)) 50 (F64.of_Z 4)
         (grey_palette 50) 3 false false (F64.of_Z 1) (F64.of_Z 1) (F64.of_Z 1).
Proof.
  split; [|split].
  - apply (proj1 (color_cycle_has_period_maxIterations log2_ref cvt_invalid_x86
             tables_zero 0 0 (constant_transform (F64.of_Z 2) (F64.of_Z 0)) 50
             (F64.of_Z 4) (grey_palette 50) 3 false (F64.of_Z 1) (F64.of_Z 1)
             (F64.of_Z 1) 49 ltac:(lia)));
      unfold INT_MIN, INT_MAX; lia.
  - apply (proj1 (color_cycle_has_period_maxIterations log2_ref cvt_invalid_x86
             tables_zero 0 0 (constant_transform (F64.of_Z 2) (F64.of_Z 0)) 50
             (F64.of_Z 4) (grey_palette 50) 0 false (F64.of_Z 1) (F64.of_Z 1)
             (F64.of_Z 1) 49 ltac:(lia)));
      unfold INT_MIN, INT_MAX; lia.
  - apply (proj2 (color_cycle_has_period_maxIterations log2_ref cvt_invalid_x86
             tables_zero 0 0 (constant_transform (F64.of_Z 2) (F64.of_Z 0)) 50
             (F64.of_Z 4) (grey_palette 50) 3 false (F64.of_Z 1) (F64.of_Z 1)
             (F64.of_Z 1) 0 ltac:(lia)));
      unfold INT_MIN, INT_MAX; lia.
Defined.

(** ** The interpolated channel stays between its two ends *)

Lemma Qfloor_between (v : Q) (lo hi : Z) :
  (inject_Z lo - 1 < v)%Q -> (v < inject_Z hi + 1)%Q -> lo - 1 <= Qfloor v <= hi.
Proof.
  intros Hlo Hhi.
  pose proof (Qfloor_le v) as Hle. pose proof (Qlt_floor v) as Hlt.
  assert (H1 : (inject_Z (lo - 2) < inject_Z (Qfloor v))%Q).
  { rewrite inject_Z_plus in Hlt. unfold Zminus. rewrite inject_Z_plus.
    change (inject_Z (- (2))) with (- (2))%Q. change (inject_Z 1) with 1%Q in Hlt. lra. }
  assert (H2 : (inject_Z (Qfloor v) < inject_Z (hi + 1))%Q).
  { rewrite inject_Z_plus. change (inject_Z 1) with 1%Q. lra. }
  rewrite <- Zlt_Qlt in H1, H2. lia.
Qed.

Lemma lerp_channel_between cvt_invalid c1 c2 f :
  0 <= c1 <= 255 -> 0 <= c2 <= 255 ->
  F32.valid f -> nonneg_finite f -> (SF2Q f <= 1)%Q ->
  Z.min c1 c2 - 1 <= lerp_channel cvt_invalid c1 c2 f <= Z.max c1 c2.
Proof.
  intros Hc1 Hc2 Hvf Hf Hf1.
  destruct (lerp_float_near c1 c2 f Hc1 Hc2 Hvf Hf Hf1) as (Hn & Hlo & Hhi).
  pose proof (SF2Q_nonneg f Hf) as Hf0.
  pose proof (inject_Z_byte c1 Hc1) as HC1. pose proof (inject_Z_byte c2 Hc2) as HC2.
  change (lerp_channel cvt_invalid c1 c2 f)
    with (static_cast_int cvt_invalid (lerp_float c1 c2 f)).
  rewrite static_cast_int_floor;
    [| exact Hn | change (inject_Z (2 ^ 31)) with 2147483648%Q; nra].
  destruct (Z.le_ge_cases c1 c2) as [Hle|Hge].
  - rewrite Z.min_l, Z.max_r by lia.
    assert (HQ : (inject_Z c1 <= inject_Z c2)%Q) by (rewrite <- Zle_Qle; exact Hle).
    apply Qfloor_between; nra.
  - rewrite Z.min_r, Z.max_l by lia.
    assert (HQ : (inject_Z c2 <= inject_Z c1)%Q) by (rewrite <- Zle_Qle; exact Hge).
    apply Qfloor_between; nra.
Qed.

(** X12: for a finite continuous index, each channel of the smooth colour
    lies between the two palette channels it blends, except that the
    truncation of the rounded [float] sum may land one below the smaller of
    them; it never exceeds the larger one. *)
Theorem smooth_channels_stay_between_entries
    cvt_invalid colorPalette maxIterations colorOffset i nu color1 color2 color :
  F64.valid nu ->
  is_finite (continuous_index i nu) = true ->
  read colorPalette
    (palette_index (static_cast_int cvt_invalid (continuous_index i nu))
       colorOffset maxIterations) = Some color1 ->
  read colorPalette
    (palette_index (add32 (static_cast_int cvt_invalid (continuous_index i nu)) 1)
       colorOffset maxIterations) = Some color2 ->
  smooth_color cvt_invalid colorPalette maxIterations colorOffset i nu = Some color ->
  Z.min (Colors.r color1) (Colors.r color2) - 1 <= Colors.r color
    <= Z.max (Colors.r color1) (Colors.r color2)
  /\ Z.min (Colors.g color1) (Colors.g color2) - 1 <= Colors.g color
       <= Z.max (Colors.g color1) (Colors.g color2)
  /\ Z.min (Colors.b color1) (Colors.b color2) - 1 <= Colors.b color
       <= Z.max (Colors.b color1) (Colors.b color2).
Proof.
  intros Hnu Hfin H1 H2. unfold smooth_color. rewrite H1, H2. cbn [mbind option_bind].
  intros [= <-].
  destruct (continuous_index_shape i nu Hnu) as [Hv Hshape].
  pose proof (finite_nonneg_index _ Hshape Hfin) as Hci.
  destruct (smooth_fraction_range _ Hv Hci) as (Hvf & Hnf & Hle).
  pose proof (lerp_channel_range cvt_invalid (Colors.r color1) (Colors.r color2) _
                (Colors_r_range color1) (Colors_r_range color2) Hvf Hnf Hle) as Hr.
  pose proof (lerp_channel_range cvt_invalid (Colors.g color1) (Colors.g color2) _
                (Colors_g_range color1) (Colors_g_range color2) Hvf Hnf Hle) as Hg.
  pose proof (lerp_channel_range cvt_invalid (Colors.b color1) (Colors.b color2) _
                (Colors_b_range color1) (Colors_b_range color2) Hvf Hnf Hle) as Hb.
  destruct (rgb_channels _ _ _ Hr Hg Hb) as (-> & -> & -> & _).
  repeat split;
    apply (lerp_channel_between cvt_invalid); auto using Colors_r_range, Colors_g_range,
      Colors_b_range.
Qed.

Lemma smooth_channels_stay_between_entries_witness :
  exists color,
    smooth_color cvt_invalid_arm (grey_palette 50) 50 0 3
      (F64.div (F64.of_Z 1) (F64.of_Z 4)) = Some color
    /\ 3 - 1 <= Colors.r color <= 4.
Proof.
  eexists. split; [vm_compute; reflexivity|].
  destruct (smooth_channels_stay_between_entries cvt_invalid_arm (grey_palette 50) 50 0 3
              (F64.div (F64.of_Z 1) (F64.of_Z 4))
              (Colors.rgb 3 3 3) (Colors.rgb 4 4 4) _
              ltac:(vm_compute; reflexivity) ltac:(vm_compute; reflexivity)
              ltac:(vm_compute; reflexivity) ltac:(vm_compute; reflexivity)
              ltac:(vm_compute; reflexivity)) as [Hr _].
  exact Hr.
Defined.

(** ** The smooth blend starts at the iteration count *)

Lemma nonneg_finite_null r : nonneg_finite r -> (SF2Q r == 0)%Q -> r = S754_zero false.
Proof.
  intros [-> | (m & e & ->)] Hz; [reflexivity|].
  pose proof (SF2Q_finite_pos m e) as Hpos. lra.
Qed.

Lemma Qfloor_bracket (v : Q) (lo hi : Z) :
  (inject_Z lo <= v)%Q -> (v <= inject_Z hi)%Q -> lo <= Qfloor v <= hi.
Proof.
  intros Hlo Hhi. split.
  - pose proof (Qfloor_resp_le _ _ Hlo) as H. rewrite Qfloor_Z in H. exact H.
  - pose proof (Qfloor_resp_le _ _ Hhi) as H. rewrite Qfloor_Z in H. exact H.
Qed.

Lemma bpow_m22 : (bpow (-22) == 1 # 4194304)%Q.
Proof. reflexivity. Qed.

(** For [0 <= nu <= 1] the subtraction [i + 1 - nu] is not negative, so
    [std::max] returns it: the continuous index is the correctly rounded
    difference. *)
Lemma continuous_index_unit_nu i nu :
  0 <= i < 2 ^ 31 - 1 -> F64.valid nu -> nonneg_finite nu -> (SF2Q nu <= 1)%Q ->
  nonneg_finite (continuous_index i nu)
  /\ rounded F64.prec F64.emax (inject_Z (i + 1) - SF2Q nu) (continuous_index i nu).
Proof.
  intros Hi Hv Hnu Hle. destruct F64_params as [Hp He].
  unfold continuous_index, add32.
  rewrite wrap32_id by (unfold INT_MIN, INT_MAX; lia).
  pose proof (of_Z_rounded F64.prec F64.emax Hp He (i + 1) ltac:(lia)) as Ha.
  destruct (rounded_exact F64.prec F64.emax _ _ Ha) as [Hna Hqa].
  { apply in_format_Z; [exact Hp | exact He |]. unfold F64.prec.
    change (2 ^ 53) with 9007199254740992. lia. }
  fold (F64.of_Z (i + 1)) in Ha, Hna, Hqa.
  assert (H1 : (1 <= inject_Z (i + 1))%Q)
    by (change 1%Q with (inject_Z 1); rewrite <- Zle_Qle; lia).
  pose proof (SFsub_rounded F64.prec F64.emax Hp He (F64.of_Z (i + 1)) nu
                (binary_normalize_valid F64.prec F64.emax Hp _ _ _) Hv Hna Hnu
                ltac:(rewrite Hqa; lra)) as Hsub.
  apply (rounded_ext F64.prec F64.emax _ (inject_Z (i + 1) - SF2Q nu)) in Hsub;
    [|rewrite Hqa; reflexivity].
  fold (F64.sub (F64.of_Z (i + 1)) nu) in Hsub.
  assert (Hnt : nonneg_finite (F64.sub (F64.of_Z (i + 1)) nu)).
  { destruct Hsub as (_ & _ & Hup & _).
    apply (Hup (inject_Z (i + 1))); [|pose proof (SF2Q_nonneg nu Hnu); lra].
    apply in_format_Z; [exact Hp | exact He |]. unfold F64.prec.
    change (2 ^ 53) with 9007199254740992. lia. }
  assert (Hmax : fmax (F64.of_Z 0) (F64.sub (F64.of_Z (i + 1)) nu)
                 = F64.sub (F64.of_Z (i + 1)) nu).
  { destruct Hnt as [-> | (m & e & ->)]; reflexivity. }
  rewrite Hmax. split; assumption.
Qed.

(** X13: for a count [0 <= i < 2^31 - 1] and [0 <= nu <= 1], the first
    palette entry of the smooth blend is taken at the count [i] or at
    [i + 1], and at [i] as soon as [nu >= 2^-22]; the second is the next one.
    At [nu = 1.0] the fraction is zero and the smooth colour is the discrete
    colour [palette[((i + colorOffset) % maxIterations + maxIterations) %
    maxIterations]] with its alpha byte set to [0xFF]. *)
Theorem smooth_blend_starts_at_the_count
    cvt_invalid colorPalette maxIterations colorOffset i nu :
  0 <= i < 2 ^ 31 - 1 -> F64.valid nu -> nonneg_finite nu -> (SF2Q nu <= 1)%Q ->
  i <= static_cast_int cvt_invalid (continuous_index i nu) <= i + 1
  /\ ((1 # 4194304 <= SF2Q nu)%Q ->
      static_cast_int cvt_invalid (continuous_index i nu) = i)
  /\ (nu = F64.of_Z 1 ->
      forall color1 color2,
        read colorPalette (palette_index i colorOffset maxIterations) = Some color1 ->
        read colorPalette (palette_index (i + 1) colorOffset maxIterations) = Some color2 ->
        smooth_color cvt_invalid colorPalette maxIterations colorOffset i nu
        = Some (Z.lor color1 (- 2 ^ 24))).
Proof.
  intros Hi Hv Hnu Hle. destruct F64_params as [Hp He].
  destruct (continuous_index_unit_nu i nu Hi Hv Hnu Hle) as [Hci Hr].
  pose proof (SF2Q_nonneg nu Hnu) as Hnu0.
  destruct Hr as (Hvci & _ & Hup & Hlo).
  assert (Hfmt : forall n, 0 <= n <= i + 1 -> in_format F64.prec F64.emax (inject_Z n)).
  { intros n Hn. apply in_format_Z; [exact Hp | exact He |]. unfold F64.prec.
    change (2 ^ 53) with 9007199254740992. lia. }
  assert (Hplus : (inject_Z (i + 1) == inject_Z i + 1)%Q)
    by (rewrite inject_Z_plus; reflexivity).
  assert (Hhi : (SF2Q (continuous_index i nu) <= inject_Z (i + 1))%Q)
    by (apply (Hup _ (Hfmt (i + 1) ltac:(lia))); lra).
  assert (Hlow : (inject_Z i <= SF2Q (continuous_index i nu))%Q)
    by (apply (Hlo _ (Hfmt i ltac:(lia))); [lra | exact Hci]).
  assert (Hbound : (inject_Z (i + 1) < inject_Z (2 ^ 31))%Q)
    by (rewrite <- Zlt_Qlt; lia).
  assert (Hcast : static_cast_int cvt_invalid (continuous_index i nu)
                  = Qfloor (SF2Q (continuous_index i nu)))
    by (apply static_cast_int_floor; [exact Hci | lra]).
  split; [|split].
  - rewrite Hcast. apply Qfloor_bracket; assumption.
  - intros Hbig. rewrite Hcast.
    assert (Hy : in_format F64.prec F64.emax (F2Q ((i + 1) * 2 ^ 22 - 1) (-22))).
    { exists ((i + 1) * 2 ^ 22 - 1), (-22).
      unfold F64.prec, F64.emax, emin. change (2 ^ 53) with 9007199254740992.
      change (2 ^ 22) with 4194304. repeat split; try lia. }
    assert (Hval : (F2Q ((i + 1) * 2 ^ 22 - 1) (-22)
                    == inject_Z (i + 1) - (1 # 4194304))%Q).
    { unfold F2Q. rewrite bpow_m22. unfold Z.sub.
      rewrite inject_Z_plus, inject_Z_mult. change (2 ^ 22) with 4194304.
      change (inject_Z (- (1))) with (- (1))%Q. change (inject_Z 4194304) with 4194304%Q.
      field. }
    destruct (Hup _ Hy ltac:(rewrite Hval; lra)) as [_ Hbelow]. rewrite Hval in Hbelow.
    assert (Hlt : (inject_Z (Qfloor (SF2Q (continuous_index i nu))) < inject_Z (i + 1))%Q).
    { pose proof (Qfloor_le (SF2Q (continuous_index i nu))). lra. }
    rewrite <- Zlt_Qlt in Hlt.
    pose proof (Qfloor_bracket _ _ _ Hlow Hhi). lia.
  - intros -> color1 color2 H1 H2.
    assert (Hone : (SF2Q (F64.of_Z 1) == 1)%Q) by reflexivity.
    assert (Hexact : (SF2Q (continuous_index i (F64.of_Z 1)) == inject_Z i)%Q).
    { apply Qle_antisym; [|exact Hlow].
      apply (Hup _ (Hfmt i ltac:(lia))). rewrite Hone. lra. }
    assert (Hidx : static_cast_int cvt_invalid (continuous_index i (F64.of_Z 1)) = i)
      by (rewrite Hcast, Hexact; apply Qfloor_Z).
    destruct (ffloor_spec _ Hvci Hci) as (Hvf & Hnf & Hqf).
    rewrite Hexact, Qfloor_Z in Hqf.
    pose proof (SFsub_rounded F64.prec F64.emax Hp He _ _ Hvci Hvf Hci Hnf
                  ltac:(rewrite Hqf, Hexact; lra)) as Hdiff.
    apply (rounded_ext F64.prec F64.emax _ (inject_Z 0)) in Hdiff;
      [|rewrite Hqf, Hexact; unfold inject_Z; ring].
    destruct (rounded_exact F64.prec F64.emax _ _ Hdiff (Hfmt 0 ltac:(lia)))
      as [Hnd Hqd].
    pose proof (nonneg_finite_null _ Hnd Hqd) as Hzero.
    fold (F64.sub (continuous_index i (F64.of_Z 1))
            (ffloor (continuous_index i (F64.of_Z 1)))) in Hzero.
    unfold smooth_color, smooth_fraction. cbv zeta. rewrite Hidx, Hzero.
    unfold add32. rewrite wrap32_id by (unfold INT_MIN, INT_MAX; lia).
    rewrite H1, H2. cbn [mbind option_bind F32.of_double].
    rewrite !lerp_channel_zero
      by first [apply Colors_r_range | apply Colors_g_range | apply Colors_b_range].
    rewrite rgb_repack. reflexivity.
Qed.

Lemma smooth_blend_starts_at_the_count_witness :
  static_cast_int cvt_invalid_arm
    (continuous_index 3 (F64.div (F64.of_Z 1) (F64.of_Z 4))) = 3
  /\ smooth_color cvt_invalid_arm (grey_palette 50) 50 0 3 (F64.of_Z 1)
     = Some (Z.lor (Colors.rgb 3 3 3) (- 2 ^ 24)).
Proof.
  destruct (smooth_blend_starts_at_the_count cvt_invalid_arm (grey_palette 50) 50 0 3
              (F64.div (F64.of_Z 1) (F64.of_Z 4)))
    as (_ & Hcount & _).
  { lia. }
  { vm_compute. reflexivity. }
  { right. eexists _, _. vm_compute. reflexivity. }
  { vm_compute. discriminate. }
  split.
  - apply Hcount. vm_compute. discriminate.
  - destruct (smooth_blend_starts_at_the_count cvt_invalid_arm (grey_palette 50) 50 0 3
                (F64.of_Z 1))
      as (_ & _ & Hone).
    { lia. }
    { vm_compute. reflexivity. }
    { right. eexists _, _. vm_compute. reflexivity. }
    { vm_compute. discriminate. }
    apply (Hone eq_refl (Colors.rgb 3 3 3) (Colors.rgb 4 4 4)); vm_compute; reflexivity.
Defined.

(** ** More on mandelbrotRenderBlock: bounds, frame and repeated calls *)

Section BlockBounds.

Variable log2 : spec_float -> spec_float.
Variable cvt_invalid : spec_float -> Z.
Variable tables : Tables.
Variables currentBlockHeight currentBlockWidth blockX blockY : Z.
Variable transform : AffineTransform.
Variable maxIterations : Z.
Variable escapeRadiusSquared : spec_float.
Variable colorPalette : list Z.
Variable colorOffset : Z.
Variables smoothColors useLog2Lookup : bool.
Variables logMagnitudeScaleFactor logLogScaleFactor log2_2 : spec_float.
Variable isPixelSet : option (list bool).

Let color_of (x y : Z) : option Z :=
  calculate_pixel_color log2 cvt_invalid tables (add32 blockX x) (add32 blockY y)
    transform maxIterations escapeRadiusSquared colorPalette colorOffset
    smoothColors useLog2Lookup logMagnitudeScaleFactor logLogScaleFactor log2_2.

Let mask_at (index : Z) : option bool :=
  match isPixelSet with
  | None => Some false
  | Some mask => read mask index
  end.

Let pixel_step := render_pixel log2 cvt_invalid tables currentBlockWidth blockX blockY
  transform maxIterations escapeRadiusSquared colorPalette colorOffset
  smoothColors useLog2Lookup logMagnitudeScaleFactor logLogScaleFactor log2_2 isPixelSet.

Let row_run := row_loop log2 cvt_invalid tables currentBlockWidth blockX blockY
  transform maxIterations escapeRadiusSquared colorPalette colorOffset
  smoothColors useLog2Lookup logMagnitudeScaleFactor logLogScaleFactor log2_2 isPixelSet.

Let block_run := block_loop log2 cvt_invalid tables currentBlockHeight currentBlockWidth
  blockX blockY transform maxIterations escapeRadiusSquared colorPalette colorOffset
  smoothColors useLog2Lookup logMagnitudeScaleFactor logLogScaleFactor log2_2 isPixelSet.

Let render := mandelbrotRenderBlock log2 cvt_invalid tables currentBlockHeight
  currentBlockWidth blockX blockY transform maxIterations escapeRadiusSquared
  colorPalette colorOffset smoothColors useLog2Lookup
  logMagnitudeScaleFactor logLogScaleFactor log2_2 isPixelSet.

(** What the pass at [(x, y)] needs of a buffer of [n] entries: the mask
    entry exists and, when it is clear, the colour is defined and the index
    is inside the buffer. *)
Let pixel_ok (n : nat) (x y : Z) : Prop :=
  exists set, mask_at (add32 (mul32 y currentBlockWidth) x) = Some set
    /\ (set = false ->
          is_Some (color_of x y)
          /\ 0 <= add32 (mul32 y currentBlockWidth) x < Z.of_nat n).

Lemma render_pixel_runs x y (colorArray : list Z) :
  is_Some (pixel_step x y colorArray) <-> pixel_ok (length colorArray) x y.
Proof.
  unfold pixel_step, render_pixel, pixel_ok.
  fold (mask_at (add32 (mul32 y currentBlockWidth) x)). fold (color_of x y).
  destruct (mask_at (add32 (mul32 y currentBlockWidth) x)) as [[|]|];
    cbn [mbind option_bind].
  - split; [intros _; exists true; split; [reflexivity|discriminate] | eauto].
  - destruct (color_of x y) as [color|]; cbn [mbind option_bind].
    + split.
      * intros [a' Hw]. exists false. split; [reflexivity|]. intros _.
        split; [eauto|]. apply (write_Some_bound _ _ _ _ Hw).
      * intros (set & [= <-] & Hok). destruct (Hok eq_refl) as [_ Hin].
        apply write_is_Some, Hin.
    + split; [intros [a' [=]]|].
      intros (set & [= <-] & Hok). destruct (Hok eq_refl) as [[c [=]] _].
  - split; [intros [a' [=]] | intros (set & [=] & _)].
Qed.

Lemma render_pixel_length x y (colorArray colorArray' : list Z) :
  pixel_step x y colorArray = Some colorArray' -> length colorArray' = length colorArray.
Proof.
  unfold pixel_step, render_pixel.
  destruct (match isPixelSet with None => _ | Some _ => _ end) as [[|]|];
    cbn [mbind option_bind]; [intros [= <-]; reflexivity | | discriminate].
  destruct (calculate_pixel_color _ _ _ _ _ _ _ _ _ _ _ _ _ _ _) as [color|];
    cbn [mbind option_bind]; [|discriminate].
  apply write_length.
Qed.

Lemma row_loop_length y (fuel : nat) : forall x (colorArray colorArray' : list Z),
  row_run fuel y x colorArray = Some colorArray' -> length colorArray' = length colorArray.
Proof.
  induction fuel as [|fuel IH]; intros x colorArray colorArray';
    unfold row_run; cbn [row_loop];
    (destruct (x <? currentBlockWidth); [|intros [= <-]; reflexivity]).
  - discriminate.
  - fold pixel_step.
    destruct (pixel_step x y colorArray) as [a1|] eqn:Hpix;
      cbn [mbind option_bind]; [|discriminate].
    fold row_run. intros Hrun. rewrite (IH _ _ _ Hrun).
    apply (render_pixel_length _ _ _ _ Hpix).
Qed.

(** The inner loop completes exactly when every pass of it can be made. *)
Lemma row_loop_runs y (fuel : nat) : forall x (colorArray : list Z),
  0 <= x -> currentBlockWidth - x <= Z.of_nat fuel ->
  is_Some (row_run fuel y x colorArray)
  <-> forall x', x <= x' < currentBlockWidth -> pixel_ok (length colorArray) x' y.
Proof.
  induction fuel as [|fuel IH]; intros x colorArray Hx Hfuel;
    unfold row_run; cbn [row_loop];
    (destruct (Z.ltb_spec x currentBlockWidth) as [Hlt|Hge];
      [|split; [intros _ x' Hx'; lia | eauto]]).
  - lia.
  - fold pixel_step.
    destruct (pixel_step x y colorArray) as [a1|] eqn:Hpix; cbn [mbind option_bind].
    + fold row_run. rewrite (IH (x + 1) a1) by lia.
      rewrite (render_pixel_length _ _ _ _ Hpix).
      split.
      * intros Hrest x' Hx'. destruct (Z.eq_dec x' x) as [->|Hne].
        -- apply render_pixel_runs. rewrite Hpix. eauto.
        -- apply Hrest. lia.
      * intros Hall x' Hx'. apply Hall. lia.
    + split; [intros [a' [=]]|].
      intros Hall. assert (Hnow : is_Some (pixel_step x y colorArray))
        by (apply render_pixel_runs, Hall; lia).
      rewrite Hpix in Hnow. destruct Hnow as [a' [=]].
Qed.

(** The outer loop completes exactly when every pass of every row can be
    made. *)
Lemma block_loop_runs (fuel : nat) : forall y (colorArray : list Z),
  currentBlockHeight - y <= Z.of_nat fuel ->
  is_Some (block_run fuel y colorArray)
  <-> forall x' y', 0 <= x' < currentBlockWidth -> y <= y' < currentBlockHeight ->
        pixel_ok (length colorArray) x' y'.
Proof.
  induction fuel as [|fuel IH]; intros y colorArray Hfuel;
    unfold block_run; cbn [block_loop];
    (destruct (Z.ltb_spec y currentBlockHeight) as [Hlt|Hge];
      [|split; [intros _ x' y' _ Hy'; lia | eauto]]).
  - lia.
  - fold row_run.
    pose proof (row_loop_runs y (Z.to_nat currentBlockWidth) 0 colorArray
                  ltac:(lia) ltac:(lia)) as Hrow.
    destruct (row_run (Z.to_nat currentBlockWidth) y 0 colorArray) as [a1|] eqn:Hgo;
      cbn [mbind option_bind].
    + fold block_run. rewrite (IH (y + 1) a1) by lia.
      rewrite (row_loop_length _ _ _ _ _ Hgo).
      split.
      * intros Hrest x' y' Hx' Hy'. destruct (Z.eq_dec y' y) as [->|Hne].
        -- apply Hrow; [eauto | lia].
        -- apply Hrest; [exact Hx' | lia].
      * intros Hall x' y' Hx' Hy'. apply Hall; [exact Hx' | lia].
    + split; [intros [a' [=]]|].
      intros Hall. assert (Hnow : is_Some (@None (list Z))).
      { apply Hrow. intros x' Hx'. apply Hall; lia. }
      destruct Hnow as [a' [=]].
Qed.

Lemma mandelbrotRenderBlock_runs (colorArray : list Z) :
  is_Some (render colorArray)
  <-> forall x y, 0 <= x < currentBlockWidth -> 0 <= y < currentBlockHeight ->
        pixel_ok (length colorArray) x y.
Proof.
  unfold render, mandelbrotRenderBlock. apply block_loop_runs. lia.
Qed.

(** A row whose passes all find their pixel set leaves the buffer as it is. *)
Lemma row_loop_masked y (fuel : nat) : forall x (colorArray : list Z),
  currentBlockWidth - x <= Z.of_nat fuel ->
  (forall x', x <= x' < currentBlockWidth ->
     mask_at (add32 (mul32 y currentBlockWidth) x') = Some true) ->
  row_run fuel y x colorArray = Some colorArray.
Proof.
  induction fuel as [|fuel IH]; intros x colorArray Hfuel Hmask;
    unfold row_run; cbn [row_loop];
    (destruct (Z.ltb_spec x currentBlockWidth) as [Hlt|Hge]; [|reflexivity]).
  - lia.
  - unfold render_pixel. fold (mask_at (add32 (mul32 y currentBlockWidth) x)).
    rewrite (Hmask x) by lia. cbn [mbind option_bind].
    fold row_run. apply IH; [lia|]. intros x' Hx'. apply Hmask. lia.
Qed.

Lemma block_loop_masked (fuel : nat) : forall y (colorArray : list Z),
  currentBlockHeight - y <= Z.of_nat fuel ->
  (forall x' y', 0 <= x' < currentBlockWidth -> y <= y' < currentBlockHeight ->
     mask_at (add32 (mul32 y' currentBlockWidth) x') = Some true) ->
  block_run fuel y colorArray = Some colorArray.
Proof.
  induction fuel as [|fuel IH]; intros y colorArray Hfuel Hmask;
    unfold block_run; cbn [block_loop];
    (destruct (Z.ltb_spec y currentBlockHeight) as [Hlt|Hge]; [|reflexivity]).
  - lia.
  - fold row_run. rewrite (row_loop_masked y _ 0 colorArray) by (intros; try apply Hmask; lia).
    cbn [mbind option_bind]. fold block_run. apply IH; [lia|].
    intros x' y' Hx' Hy'. apply Hmask; lia.
Qed.

End BlockBounds.

Section BlockFrame.

Variable log2 : spec_float -> spec_float.
Variable cvt_invalid : spec_float -> Z.
Variable tables : Tables.
Variables currentBlockHeight currentBlockWidth blockX blockY : Z.
Variable transform : AffineTransform.
Variable maxIterations : Z.
Variable escapeRadiusSquared : spec_float.
Variable colorPalette : list Z.
Variable colorOffset : Z.
Variables smoothColors useLog2Lookup : bool.
Variables logMagnitudeScaleFactor logLogScaleFactor log2_2 : spec_float.
Variable isPixelSet : option (list bool).

Hypothesis width_nonneg : 0 <= currentBlockWidth.
Hypothesis block_fits : currentBlockWidth * currentBlockHeight <= INT_MAX.

(** The outer loop from row [y] on writes inside the rows [y ..] only. *)
Lemma block_loop_frame (fuel : nat) : forall y (colorArray colorArray' : list Z),
  0 <= y ->
  block_loop log2 cvt_invalid tables currentBlockHeight currentBlockWidth
    blockX blockY transform maxIterations escapeRadiusSquared colorPalette colorOffset
    smoothColors useLog2Lookup logMagnitudeScaleFactor logLogScaleFactor log2_2
    isPixelSet fuel y colorArray = Some colorArray' ->
  forall j, ~ (y * currentBlockWidth <= j < currentBlockWidth * currentBlockHeight) ->
    read colorArray' j = read colorArray j.
Proof.
  induction fuel as [|fuel IH]; intros y colorArray colorArray' Hy;
    cbn [block_loop];
    (destruct (Z.ltb_spec y currentBlockHeight) as [Hlt|Hge];
      [|intros [= <-]; reflexivity]).
  - discriminate.
  - destruct (row_loop _ _ _ _ _ _ _ _ _ _ _ _ _ _ _ _ _ (Z.to_nat currentBlockWidth) y 0
                colorArray) as [a1|] eqn:Hrow; cbn [mbind option_bind]; [|discriminate].
    destruct (row_loop_post log2 cvt_invalid tables currentBlockHeight currentBlockWidth
                blockX blockY transform maxIterations escapeRadiusSquared colorPalette
                colorOffset smoothColors useLog2Lookup logMagnitudeScaleFactor
                logLogScaleFactor log2_2 isPixelSet width_nonneg block_fits
                y _ 0 colorArray a1 ltac:(lia) ltac:(lia) Hrow) as (_ & Hother & _).
    intros Hrun j Hj. rewrite (IH (y + 1) a1 colorArray' ltac:(lia) Hrun j) by nia.
    apply Hother. nia.
Qed.

End BlockFrame.

(** X14: a render call that completes keeps the length of the output buffer
    and leaves every entry outside the block's
    [currentBlockWidth·currentBlockHeight] first entries as it was. *)
Theorem render_writes_inside_block_only
    log2 cvt_invalid tables currentBlockHeight currentBlockWidth blockX blockY
    transform maxIterations escapeRadiusSquared colorPalette colorOffset
    smoothColors useLog2Lookup logMagnitudeScaleFactor logLogScaleFactor log2_2
    (isPixelSet : option (list bool)) (colorArray colorArray' : list Z) :
  0 <= currentBlockWidth ->
  currentBlockWidth * currentBlockHeight <= INT_MAX ->
  mandelbrotRenderBlock log2 cvt_invalid tables currentBlockHeight currentBlockWidth
    blockX blockY transform maxIterations escapeRadiusSquared colorPalette colorOffset
    smoothColors useLog2Lookup logMagnitudeScaleFactor logLogScaleFactor log2_2
    isPixelSet colorArray = Some colorArray' ->
  length colorArray' = length colorArray
  /\ forall j, ~ (0 <= j < currentBlockWidth * currentBlockHeight) ->
       read colorArray' j = read colorArray j.
Proof.
  intros Hw Hfit Hrun. split.
  - apply (mandelbrotRenderBlock_post log2 cvt_invalid tables currentBlockHeight
             currentBlockWidth blockX blockY transform maxIterations
             escapeRadiusSquared colorPalette colorOffset smoothColors useLog2Lookup
             logMagnitudeScaleFactor logLogScaleFactor log2_2 isPixelSet
             Hw Hfit colorArray colorArray' Hrun).
  - intros j Hj.
    apply (block_loop_frame log2 cvt_invalid tables currentBlockHeight currentBlockWidth
             blockX blockY transform maxIterations escapeRadiusSquared colorPalette
             colorOffset smoothColors useLog2Lookup logMagnitudeScaleFactor
             logLogScaleFactor log2_2 isPixelSet Hw Hfit _ 0 colorArray colorArray'
             ltac:(lia) Hrun).
    lia.
Qed.

Lemma render_writes_inside_block_only_witness :
  exists colorArray',
    mandelbrotRenderBlock log2_ref cvt_invalid_arm tables_zero 1 2 0 0
      (constant_transform (F64.of_Z 2) (F64.of_Z 0)) 50 (F64.of_Z 4)
      (grey_palette 50) 0 false false (F64.of_Z 1) (F64.of_Z 1) (F64.of_Z 1)
      None [7; 8; 9; 10] = Some colorArray'
    /\ length colorArray' = 4%nat
    /\ read colorArray' 2 = Some 9 /\ read colorArray' 3 = Some 10.
Proof.
  eexists. split; [vm_compute; reflexivity|].
  destruct (render_writes_inside_block_only log2_ref cvt_invalid_arm tables_zero 1 2 0 0
              (constant_transform (F64.of_Z 2) (F64.of_Z 0)) 50 (F64.of_Z 4)
              (grey_palette 50) 0 false false (F64.of_Z 1) (F64.of_Z 1) (F64.of_Z 1)
              None [7; 8; 9; 10] _ ltac:(lia) ltac:(unfold INT_MAX; lia)
              ltac:(vm_compute; reflexivity)) as [Hlen Hframe].
  split; [exact Hlen|].
  split; [apply (Hframe 2) | apply (Hframe 3)]; lia.
Defined.

(** X15: a block with no rows or no columns ([currentBlockHeight <= 0] or
    [currentBlockWidth <= 0]) completes and returns the output buffer as it
    was, whatever the palette, the mask and the other arguments are. *)
Theorem empty_block_is_left_alone
    log2 cvt_invalid tables currentBlockHeight currentBlockWidth blockX blockY
    transform maxIterations escapeRadiusSquared colorPalette colorOffset
    smoothColors useLog2Lookup logMagnitudeScaleFactor logLogScaleFactor log2_2
    (isPixelSet : option (list bool)) (colorArray : list Z) :
  currentBlockHeight <= 0 \/ currentBlockWidth <= 0 ->
  mandelbrotRenderBlock log2 cvt_invalid tables currentBlockHeight currentBlockWidth
    blockX blockY transform maxIterations escapeRadiusSquared colorPalette colorOffset
    smoothColors useLog2Lookup logMagnitudeScaleFactor logLogScaleFactor log2_2
    isPixelSet colorArray = Some colorArray.
Proof.
  intros Hempty. unfold mandelbrotRenderBlock.
  apply block_loop_masked; [lia|]. intros x' y' Hx' Hy'. lia.
Qed.

Lemma empty_block_is_left_alone_witness :
  mandelbrotRenderBlock log2_ref cvt_invalid_arm tables_zero 5 0 0 0
    (constant_transform (F64.of_Z 2) (F64.of_Z 0)) 50 (F64.of_Z 4)
    [] 0 true true (F64.of_Z 1) (F64.of_Z 1) (F64.of_Z 1) None [7; 8]
  = Some [7; 8].
Proof.
  apply (empty_block_is_left_alone log2_ref cvt_invalid_arm tables_zero 5 0 0 0
           (constant_transform (F64.of_Z 2) (F64.of_Z 0)) 50 (F64.of_Z 4)
           [] 0 true true (F64.of_Z 1) (F64.of_Z 1) (F64.of_Z 1) None [7; 8]).
  right. lia.
Defined.

(** X16: when the mask marks every pixel of the block as set, the call
    completes and returns the output buffer as it was; it reads neither the
    palette nor the tables, and the buffer may have any length. *)
Theorem fully_set_mask_is_left_alone
    log2 cvt_invalid tables currentBlockHeight currentBlockWidth blockX blockY
    transform maxIterations escapeRadiusSquared colorPalette colorOffset
    smoothColors useLog2Lookup logMagnitudeScaleFactor logLogScaleFactor log2_2
    (mask : list bool) (colorArray : list Z) :
  0 <= currentBlockWidth ->
  currentBlockWidth * currentBlockHeight <= INT_MAX ->
  (forall j, 0 <= j < currentBlockWidth * currentBlockHeight -> read mask j = Some true) ->
  mandelbrotRenderBlock log2 cvt_invalid tables currentBlockHeight currentBlockWidth
    blockX blockY transform maxIterations escapeRadiusSquared colorPalette colorOffset
    smoothColors useLog2Lookup logMagnitudeScaleFactor logLogScaleFactor log2_2
    (Some mask) colorArray = Some colorArray.
Proof.
  intros Hw Hfit Hmask. unfold mandelbrotRenderBlock.
  apply block_loop_masked; [lia|]. intros x' y' Hx' Hy'.
  destruct (pixel_index_fits currentBlockHeight currentBlockWidth Hw Hfit x' y' Hx'
              ltac:(lia)) as [-> Hin].
  apply Hmask, Hin.
Qed.

Lemma fully_set_mask_is_left_alone_witness :
  mandelbrotRenderBlock log2_ref cvt_invalid_arm tables_zero 2 2 0 0
    (constant_transform (F64.of_Z 2) (F64.of_Z 0)) 50 (F64.of_Z 4)
    [] 0 true true (F64.of_Z 1) (F64.of_Z 1) (F64.of_Z 1)
    (Some [true; true; true; true]) [7]
  = Some [7].
Proof.
  apply (fully_set_mask_is_left_alone log2_ref cvt_invalid_arm tables_zero 2 2 0 0
           (constant_transform (F64.of_Z 2) (F64.of_Z 0)) 50 (F64.of_Z 4)
           [] 0 true true (F64.of_Z 1) (F64.of_Z 1) (F64.of_Z 1)
           [true; true; true; true] [7]).
  - lia.
  - unfold INT_MAX. lia.
  - intros j Hj.
    assert (Hcase : j = 0 \/ j = 1 \/ j = 2 \/ j = 3) by lia.
    destruct Hcase as [->|[->|[->| ->]]]; reflexivity.
Defined.

(** Every index of the block is the index of one of its pixels. *)
Lemma block_index_split currentBlockWidth currentBlockHeight j :
  0 <= currentBlockWidth ->
  0 <= j < currentBlockWidth * currentBlockHeight ->
  exists x y, 0 <= x < currentBlockWidth /\ 0 <= y < currentBlockHeight
              /\ j = y * currentBlockWidth + x.
Proof.
  intros Hw Hj.
  assert (Hpos : 0 < currentBlockWidth).
  { destruct (Z.eq_dec currentBlockWidth 0) as [Hz|Hnz]; [|lia].
    rewrite Hz in Hj. lia. }
  exists (j mod currentBlockWidth), (j / currentBlockWidth).
  pose proof (Z.mod_pos_bound j currentBlockWidth Hpos) as Hmod.
  pose proof (Z.div_mod j currentBlockWidth ltac:(lia)) as Hdiv.
  split; [exact Hmod|]. split; [|lia].
  split; [apply Z.div_pos; lia|].
  apply Z.div_lt_upper_bound; lia.
Qed.

(** X17: the call completes exactly when every pass of its loops stays inside
    the arrays: for every pixel of the block the mask, when there is one, has
    an entry at the pixel's index and, when the pixel is not marked as set,
    its colour is defined and the index is inside the output buffer. A call
    that completes therefore had a mask of at least
    [currentBlockWidth·currentBlockHeight] entries or, without a mask, an
    output buffer of at least that many. *)
Theorem render_completes_iff_in_bounds
    log2 cvt_invalid tables currentBlockHeight currentBlockWidth blockX blockY
    transform maxIterations escapeRadiusSquared colorPalette colorOffset
    smoothColors useLog2Lookup logMagnitudeScaleFactor logLogScaleFactor log2_2
    (isPixelSet : option (list bool)) (colorArray : list Z) :
  0 <= currentBlockWidth ->
  currentBlockWidth * currentBlockHeight <= INT_MAX ->
  (is_Some
     (mandelbrotRenderBlock log2 cvt_invalid tables currentBlockHeight currentBlockWidth
        blockX blockY transform maxIterations escapeRadiusSquared colorPalette
        colorOffset smoothColors useLog2Lookup logMagnitudeScaleFactor
        logLogScaleFactor log2_2 isPixelSet colorArray)
   <-> forall x y, 0 <= x < currentBlockWidth -> 0 <= y < currentBlockHeight ->
         exists set : bool,
           match isPixelSet with
           | None => Some false
           | Some mask => read mask (y * currentBlockWidth + x)
           end = Some set
           /\ (set = false ->
               is_Some
                 (calculate_pixel_color log2 cvt_invalid tables (add32 blockX x)
                    (add32 blockY y) transform maxIterations escapeRadiusSquared
                    colorPalette colorOffset smoothColors useLog2Lookup
                    logMagnitudeScaleFactor logLogScaleFactor log2_2)
               /\ y * currentBlockWidth + x < Z.of_nat (length colorArray)))
  /\ (is_Some
        (mandelbrotRenderBlock log2 cvt_invalid tables currentBlockHeight
           currentBlockWidth blockX blockY transform maxIterations escapeRadiusSquared
           colorPalette colorOffset smoothColors useLog2Lookup logMagnitudeScaleFactor
           logLogScaleFactor log2_2 isPixelSet colorArray) ->
      match isPixelSet with
      | None => currentBlockWidth * currentBlockHeight <= Z.of_nat (length colorArray)
      | Some mask => currentBlockWidth * currentBlockHeight <= Z.of_nat (length mask)
      end).
Proof.
  intros Hw Hfit.
  pose proof (mandelbrotRenderBlock_runs log2 cvt_invalid tables currentBlockHeight
                currentBlockWidth blockX blockY transform maxIterations
                escapeRadiusSquared colorPalette colorOffset smoothColors useLog2Lookup
                logMagnitudeScaleFactor logLogScaleFactor log2_2 isPixelSet colorArray)
    as Hruns.
  assert (Hiff : is_Some
     (mandelbrotRenderBlock log2 cvt_invalid tables currentBlockHeight currentBlockWidth
        blockX blockY transform maxIterations escapeRadiusSquared colorPalette
        colorOffset smoothColors useLog2Lookup logMagnitudeScaleFactor
        logLogScaleFactor log2_2 isPixelSet colorArray)
   <-> forall x y, 0 <= x < currentBlockWidth -> 0 <= y < currentBlockHeight ->
         exists set : bool,
           match isPixelSet with
           | None => Some false
           | Some mask => read mask (y * currentBlockWidth + x)
           end = Some set
           /\ (set = false ->
               is_Some
                 (calculate_pixel_color log2 cvt_invalid tables (add32 blockX x)
                    (add32 blockY y) transform maxIterations escapeRadiusSquared
                    colorPalette colorOffset smoothColors useLog2Lookup
                    logMagnitudeScaleFactor logLogScaleFactor log2_2)
               /\ y * currentBlockWidth + x < Z.of_nat (length colorArray))).
  { rewrite Hruns. split; intros Hall x y Hx Hy;
      destruct (pixel_index_fits currentBlockHeight currentBlockWidth Hw Hfit x y Hx Hy)
        as [Hindex Hin];
      destruct (Hall x y Hx Hy) as (set & Hset & Hclear); exists set.
    - rewrite Hindex in Hset, Hclear. split; [exact Hset|].
      intros Hs. destruct (Hclear Hs) as [Hc Hb]. split; [exact Hc | lia].
    - rewrite Hindex. split; [exact Hset|].
      intros Hs. destruct (Hclear Hs) as [Hc Hb]. split; [exact Hc | lia]. }
  split; [exact Hiff|]. intros Hrun.
  destruct (Z.le_gt_cases (currentBlockWidth * currentBlockHeight) 0) as [Hnone|Hsome].
  { destruct isPixelSet; lia. }
  assert (Hx : 0 <= currentBlockWidth - 1 < currentBlockWidth).
  { destruct (Z.eq_dec currentBlockWidth 0) as [Hz|Hnz]; [|lia].
    rewrite Hz in Hsome. lia. }
  assert (Hy : 0 <= currentBlockHeight - 1 < currentBlockHeight).
  { destruct (Z.le_gt_cases currentBlockHeight 0) as [Hle|Hgt]; [|lia].
    pose proof (Z.mul_nonneg_nonpos _ _ Hw Hle). lia. }
  destruct (proj1 Hiff Hrun _ _ Hx Hy) as (set & Hset & Hclear).
  destruct isPixelSet as [mask|].
  - apply read_Some_bound in Hset. nia.
  - injection Hset as <-. destruct (Hclear eq_refl) as [_ Hb]. nia.
Qed.

Lemma render_completes_iff_in_bounds_witness :
  ~ is_Some
      (mandelbrotRenderBlock log2_ref cvt_invalid_arm tables_zero 2 2 0 0
         (constant_transform (F64.of_Z 2) (F64.of_Z 0)) 50 (F64.of_Z 4)
         (grey_palette 50) 0 false false (F64.of_Z 1) (F64.of_Z 1) (F64.of_Z 1)
         None [7; 7; 7]).
Proof.
  intros Hrun.
  pose proof (proj2 (render_completes_iff_in_bounds log2_ref cvt_invalid_arm tables_zero
                2 2 0 0 (constant_transform (F64.of_Z 2) (F64.of_Z 0)) 50 (F64.of_Z 4)
                (grey_palette 50) 0 false false (F64.of_Z 1) (F64.of_Z 1) (F64.of_Z 1)
                None [7; 7; 7] ltac:(lia) ltac:(unfold INT_MAX; lia)) Hrun) as Hcap.
  cbn in Hcap. lia.
Defined.

(** X18: rendering the same block again over the buffer a completed call
    returned completes too and returns that buffer unchanged. *)
Theorem render_twice_is_render_once
    log2 cvt_invalid tables currentBlockHeight currentBlockWidth blockX blockY
    transform maxIterations escapeRadiusSquared colorPalette colorOffset
    smoothColors useLog2Lookup logMagnitudeScaleFactor logLogScaleFactor log2_2
    (isPixelSet : option (list bool)) (colorArray colorArray' : list Z) :
  0 <= currentBlockWidth ->
  currentBlockWidth * currentBlockHeight <= INT_MAX ->
  mandelbrotRenderBlock log2 cvt_invalid tables currentBlockHeight currentBlockWidth
    blockX blockY transform maxIterations escapeRadiusSquared colorPalette colorOffset
    smoothColors useLog2Lookup logMagnitudeScaleFactor logLogScaleFactor log2_2
    isPixelSet colorArray = Some colorArray' ->
  mandelbrotRenderBlock log2 cvt_invalid tables currentBlockHeight currentBlockWidth
    blockX blockY transform maxIterations escapeRadiusSquared colorPalette colorOffset
    smoothColors useLog2Lookup logMagnitudeScaleFactor logLogScaleFactor log2_2
    isPixelSet colorArray' = Some colorArray'.
Proof.
  intros Hw Hfit Hrun.
  pose proof (mandelbrotRenderBlock_post log2 cvt_invalid tables currentBlockHeight
                currentBlockWidth blockX blockY transform maxIterations
                escapeRadiusSquared colorPalette colorOffset smoothColors useLog2Lookup
                logMagnitudeScaleFactor logLogScaleFactor log2_2 isPixelSet
                Hw Hfit) as Hpost.
  destruct (Hpost colorArray colorArray' Hrun) as [Hlen Hfirst].
  pose proof (mandelbrotRenderBlock_runs log2 cvt_invalid tables currentBlockHeight
                currentBlockWidth blockX blockY transform maxIterations
                escapeRadiusSquared colorPalette colorOffset smoothColors useLog2Lookup
                logMagnitudeScaleFactor logLogScaleFactor log2_2 isPixelSet) as Hruns.
  assert (Hok := proj1 (Hruns colorArray) ltac:(rewrite Hrun; eauto)).
  destruct (proj2 (Hruns colorArray')) as [again Hagain].
  { rewrite Hlen. exact Hok. }
  rewrite Hagain. f_equal. apply read_ext. intros j Hj.
  destruct (Hpost colorArray' again Hagain) as [_ Hsecond].
  destruct (Z.lt_ge_cases j (currentBlockWidth * currentBlockHeight)) as [Hin|Hout].
  - destruct (block_index_split currentBlockWidth currentBlockHeight j Hw ltac:(lia))
      as (x & y & Hx & Hy & ->).
    destruct (pixel_index_fits currentBlockHeight currentBlockWidth Hw Hfit x y Hx Hy)
      as [Hindex _].
    destruct (Hok x y Hx Hy) as (set & Hset & _). rewrite Hindex in Hset.
    destruct (Hfirst x y Hx Hy) as [_ Hc1]. destruct (Hsecond x y Hx Hy) as [Hs2 Hc2].
    destruct set; [apply Hs2, Hset|].
    rewrite (Hc1 Hset), (Hc2 Hset). reflexivity.
  - apply (block_loop_frame log2 cvt_invalid tables currentBlockHeight currentBlockWidth
             blockX blockY transform maxIterations escapeRadiusSquared colorPalette
             colorOffset smoothColors useLog2Lookup logMagnitudeScaleFactor
             logLogScaleFactor log2_2 isPixelSet Hw Hfit _ 0 colorArray' again
             ltac:(lia) Hagain).
    lia.
Qed.

Lemma render_twice_is_render_once_witness :
  exists colorArray',
    mandelbrotRenderBlock log2_ref cvt_invalid_arm tables_zero 1 2 0 0
      (constant_transform (F64.of_Z 2) (F64.of_Z 0)) 50 (F64.of_Z 4)
      (grey_palette 50) 0 false false (F64.of_Z 1) (F64.of_Z 1) (F64.of_Z 1)
      (Some [true; false]) [7; 8; 9] = Some colorArray'
    /\ mandelbrotRenderBlock log2_ref cvt_invalid_arm tables_zero 1 2 0 0
         (constant_transform (F64.of_Z 2) (F64.of_Z 0)) 50 (F64.of_Z 4)
         (grey_palette 50) 0 false false (F64.of_Z 1) (F64.of_Z 1) (F64.of_Z 1)
         (Some [true; false]) colorArray' = Some colorArray'.
Proof.
  eexists. split; [vm_compute; reflexivity|].
  apply (render_twice_is_render_once log2_ref cvt_invalid_arm tables_zero 1 2 0 0
           (constant_transform (F64.of_Z 2) (F64.of_Z 0)) 50 (F64.of_Z 4)
           (grey_palette 50) 0 false false (F64.of_Z 1) (F64.of_Z 1) (F64.of_Z 1)
           (Some [true; false]) [7; 8; 9]).
  - lia.
  - unfold INT_MAX. lia.
  - vm_compute. reflexivity.
Defined.

(** ** The mask across calls *)

Section TwoMasks.

Variable log2 : spec_float -> spec_float.
Variable cvt_invalid : spec_float -> Z.
Variable tables : Tables.
Variables currentBlockHeight currentBlockWidth blockX blockY : Z.
Variable transform : AffineTransform.
Variable maxIterations : Z.
Variable escapeRadiusSquared : spec_float.
Variable colorPalette : list Z.
Variable colorOffset : Z.
Variables smoothColors useLog2Lookup : bool.
Variables logMagnitudeScaleFactor logLogScaleFactor log2_2 : spec_float.
Variables isPixelSet isPixelSet' : option (list bool).

Hypothesis width_nonneg : 0 <= currentBlockWidth.
Hypothesis block_fits : currentBlockWidth * currentBlockHeight <= INT_MAX.

Let entry (m : option (list bool)) (index : Z) : option bool :=
  match m with
  | None => Some false
  | Some mask => read mask index
  end.

Hypothesis same_in_block : forall j,
  0 <= j < currentBlockWidth * currentBlockHeight ->
  entry isPixelSet j = entry isPixelSet' j.

Let row_with (m : option (list bool)) :=
  row_loop log2 cvt_invalid tables currentBlockWidth blockX blockY
    transform maxIterations escapeRadiusSquared colorPalette colorOffset
    smoothColors useLog2Lookup logMagnitudeScaleFactor logLogScaleFactor log2_2 m.

Let block_with (m : option (list bool)) :=
  block_loop log2 cvt_invalid tables currentBlockHeight currentBlockWidth
    blockX blockY transform maxIterations escapeRadiusSquared colorPalette colorOffset
    smoothColors useLog2Lookup logMagnitudeScaleFactor logLogScaleFactor log2_2 m.

Lemma row_loop_same_mask y (fuel : nat) : forall x (colorArray : list Z),
  0 <= y < currentBlockHeight -> 0 <= x ->
  row_with isPixelSet fuel y x colorArray = row_with isPixelSet' fuel y x colorArray.
Proof.
  induction fuel as [|fuel IH]; intros x colorArray Hy Hx;
    unfold row_with; cbn [row_loop];
    (destruct (Z.ltb_spec x currentBlockWidth) as [Hlt|Hge]; [|reflexivity]).
  - reflexivity.
  - unfold render_pixel.
    destruct (pixel_index_fits currentBlockHeight currentBlockWidth width_nonneg
                block_fits x y ltac:(lia) Hy) as [-> Hin].
    fold (entry isPixelSet (y * currentBlockWidth + x)).
    fold (entry isPixelSet' (y * currentBlockWidth + x)).
    rewrite (same_in_block _ Hin).
    destruct (entry isPixelSet' (y * currentBlockWidth + x)) as [[|]|];
      cbn [mbind option_bind]; [| |reflexivity].
    + apply (IH (x + 1) colorArray Hy). lia.
    + destruct (calculate_pixel_color _ _ _ _ _ _ _ _ _ _ _ _ _ _ _) as [color|];
        cbn [mbind option_bind]; [|reflexivity].
      destruct (write colorArray _ color) as [a1|]; cbn [mbind option_bind];
        [|reflexivity].
      apply (IH (x + 1) a1 Hy). lia.
Qed.

Lemma block_loop_same_mask (fuel : nat) : forall y (colorArray : list Z),
  0 <= y ->
  block_with isPixelSet fuel y colorArray = block_with isPixelSet' fuel y colorArray.
Proof.
  induction fuel as [|fuel IH]; intros y colorArray Hy;
    unfold block_with; cbn [block_loop];
    (destruct (Z.ltb_spec y currentBlockHeight) as [Hlt|Hge]; [|reflexivity]).
  - reflexivity.
  - fold (row_with isPixelSet). fold (row_with isPixelSet').
    rewrite (row_loop_same_mask y _ 0 colorArray) by lia.
    destruct (row_with isPixelSet' _ y 0 colorArray) as [a1|];
      cbn [mbind option_bind]; [|reflexivity].
    apply (IH (y + 1) a1). lia.
Qed.

End TwoMasks.

(** X19: the call consults the mask at the block's
    [currentBlockWidth·currentBlockHeight] first indices only: two masks that
    agree there give the same result, and a null mask gives the same result
    as a mask that is clear at every index of the block. *)
Theorem mask_is_read_inside_block_only
    log2 cvt_invalid tables currentBlockHeight currentBlockWidth blockX blockY
    transform maxIterations escapeRadiusSquared colorPalette colorOffset
    smoothColors useLog2Lookup logMagnitudeScaleFactor logLogScaleFactor log2_2
    (mask mask' : list bool) (colorArray : list Z) :
  0 <= currentBlockWidth ->
  currentBlockWidth * currentBlockHeight <= INT_MAX ->
  ((forall j, 0 <= j < currentBlockWidth * currentBlockHeight ->
      read mask j = read mask' j) ->
   mandelbrotRenderBlock log2 cvt_invalid tables currentBlockHeight currentBlockWidth
     blockX blockY transform maxIterations escapeRadiusSquared colorPalette colorOffset
     smoothColors useLog2Lookup logMagnitudeScaleFactor logLogScaleFactor log2_2
     (Some mask) colorArray
   = mandelbrotRenderBlock log2 cvt_invalid tables currentBlockHeight currentBlockWidth
       blockX blockY transform maxIterations escapeRadiusSquared colorPalette
       colorOffset smoothColors useLog2Lookup logMagnitudeScaleFactor
       logLogScaleFactor log2_2 (Some mask') colorArray)
  /\ ((forall j, 0 <= j < currentBlockWidth * currentBlockHeight ->
         read mask j = Some false) ->
      mandelbrotRenderBlock log2 cvt_invalid tables currentBlockHeight currentBlockWidth
        blockX blockY transform maxIterations escapeRadiusSquared colorPalette
        colorOffset smoothColors useLog2Lookup logMagnitudeScaleFactor
        logLogScaleFactor log2_2 (Some mask) colorArray
      = mandelbrotRenderBlock log2 cvt_invalid tables currentBlockHeight
          currentBlockWidth blockX blockY transform maxIterations escapeRadiusSquared
          colorPalette colorOffset smoothColors useLog2Lookup logMagnitudeScaleFactor
          logLogScaleFactor log2_2 None colorArray).
Proof.
  intros Hw Hfit. unfold mandelbrotRenderBlock.
  split; intros Hsame; apply block_loop_same_mask; try assumption; lia.
Qed.

Lemma mask_is_read_inside_block_only_witness :
  mandelbrotRenderBlock log2_ref cvt_invalid_arm tables_zero 1 2 0 0
    (constant_transform (F64.of_Z 2) (F64.of_Z 0)) 50 (F64.of_Z 4)
    (grey_palette 50) 0 false false (F64.of_Z 1) (F64.of_Z 1) (F64.of_Z 1)
    (Some [false; false; true]) [7; 8; 9]
  = mandelbrotRenderBlock log2_ref cvt_invalid_arm tables_zero 1 2 0 0
      (constant_transform (F64.of_Z 2) (F64.of_Z 0)) 50 (F64.of_Z 4)
      (grey_palette 50) 0 false false (F64.of_Z 1) (F64.of_Z 1) (F64.of_Z 1)
      None [7; 8; 9].
Proof.
  apply (proj2 (mask_is_read_inside_block_only log2_ref cvt_invalid_arm tables_zero
           1 2 0 0 (constant_transform (F64.of_Z 2) (F64.of_Z 0)) 50 (F64.of_Z 4)
           (grey_palette 50) 0 false false (F64.of_Z 1) (F64.of_Z 1) (F64.of_Z 1)
           [false; false; true] [false; false; true] [7; 8; 9]
           ltac:(lia) ltac:(unfold INT_MAX; lia))).
  intros j Hj. assert (Hcase : j = 0 \/ j = 1) by lia.
  destruct Hcase as [-> | ->]; reflexivity.
Defined.

(** X20: two passes with complementary masks make one pass without a mask:
    when a call with a mask completes and a second call, on the buffer it
    returned and with the mask that is set exactly where the first is clear,
    completes too, the final buffer is the one a single call with a null mask
    returns for the original buffer. *)
Theorem complementary_masks_render_everything
    log2 cvt_invalid tables currentBlockHeight currentBlockWidth blockX blockY
    transform maxIterations escapeRadiusSquared colorPalette colorOffset
    smoothColors useLog2Lookup logMagnitudeScaleFactor logLogScaleFactor log2_2
    (mask mask' : list bool) (colorArray first second : list Z) :
  0 <= currentBlockWidth ->
  currentBlockWidth * currentBlockHeight <= INT_MAX ->
  (forall j set, 0 <= j < currentBlockWidth * currentBlockHeight ->
     read mask j = Some set -> read mask' j = Some (negb set)) ->
  mandelbrotRenderBlock log2 cvt_invalid tables currentBlockHeight currentBlockWidth
    blockX blockY transform maxIterations escapeRadiusSquared colorPalette colorOffset
    smoothColors useLog2Lookup logMagnitudeScaleFactor logLogScaleFactor log2_2
    (Some mask) colorArray = Some first ->
  mandelbrotRenderBlock log2 cvt_invalid tables currentBlockHeight currentBlockWidth
    blockX blockY transform maxIterations escapeRadiusSquared colorPalette colorOffset
    smoothColors useLog2Lookup logMagnitudeScaleFactor logLogScaleFactor log2_2
    (Some mask') first = Some second ->
  mandelbrotRenderBlock log2 cvt_invalid tables currentBlockHeight currentBlockWidth
    blockX blockY transform maxIterations escapeRadiusSquared colorPalette colorOffset
    smoothColors useLog2Lookup logMagnitudeScaleFactor logLogScaleFactor log2_2
    None colorArray = Some second.
Proof.
  intros Hw Hfit Hcompl Hrun1 Hrun2.
  pose proof (fun m => mandelbrotRenderBlock_post log2 cvt_invalid tables
                currentBlockHeight currentBlockWidth blockX blockY transform
                maxIterations escapeRadiusSquared colorPalette colorOffset smoothColors
                useLog2Lookup logMagnitudeScaleFactor logLogScaleFactor log2_2 m
                Hw Hfit) as Hpost.
  pose proof (fun m => mandelbrotRenderBlock_runs log2 cvt_invalid tables
                currentBlockHeight currentBlockWidth blockX blockY transform
                maxIterations escapeRadiusSquared colorPalette colorOffset smoothColors
                useLog2Lookup logMagnitudeScaleFactor logLogScaleFactor log2_2 m)
    as Hruns.
  pose proof (fun m => block_loop_frame log2 cvt_invalid tables currentBlockHeight
                currentBlockWidth blockX blockY transform maxIterations
                escapeRadiusSquared colorPalette colorOffset smoothColors useLog2Lookup
                logMagnitudeScaleFactor logLogScaleFactor log2_2 m Hw Hfit) as Hframe.
  destruct (Hpost _ _ _ Hrun1) as [Hlen1 Hpix1].
  destruct (Hpost _ _ _ Hrun2) as [Hlen2 Hpix2].
  assert (Hok1 := proj1 (Hruns (Some mask) colorArray) ltac:(rewrite Hrun1; eauto)).
  assert (Hok2 := proj1 (Hruns (Some mask') first) ltac:(rewrite Hrun2; eauto)).
  destruct (proj2 (Hruns None colorArray)) as [whole Hwhole].
  { intros x y Hx Hy. exists false. split; [reflexivity|]. intros _.
    destruct (pixel_index_fits currentBlockHeight currentBlockWidth Hw Hfit x y Hx Hy)
      as [Hindex Hin].
    destruct (Hok1 x y Hx Hy) as (set & Hset & Hclear1).
    destruct (Hok2 x y Hx Hy) as (set' & Hset' & Hclear2).
    rewrite Hindex in Hset, Hset'.
    rewrite (Hcompl _ _ Hin Hset) in Hset'. injection Hset' as <-.
    destruct set; [|apply Hclear1; reflexivity].
    rewrite <- Hlen1. apply Hclear2. reflexivity. }
  rewrite Hwhole. f_equal.
  destruct (Hpost _ _ _ Hwhole) as [Hlen Hpix].
  apply read_ext. intros j Hj.
  destruct (Z.lt_ge_cases j (currentBlockWidth * currentBlockHeight)) as [Hin|Hout].
  - destruct (block_index_split currentBlockWidth currentBlockHeight j Hw ltac:(lia))
      as (x & y & Hx & Hy & ->).
    destruct (pixel_index_fits currentBlockHeight currentBlockWidth Hw Hfit x y Hx Hy)
      as [Hindex Hin2].
    destruct (Hok1 x y Hx Hy) as (set & Hset & _). rewrite Hindex in Hset.
    pose proof (Hcompl _ _ Hin2 Hset) as Hset'.
    destruct (Hpix x y Hx Hy) as [_ Hc]. rewrite (Hc eq_refl).
    destruct (Hpix1 x y Hx Hy) as [Hs1 Hc1]. destruct (Hpix2 x y Hx Hy) as [Hs2 Hc2].
    destruct set; cbn [negb] in Hset'.
    + symmetry. apply Hc2, Hset'.
    + rewrite (Hs2 Hset'). symmetry. apply Hc1, Hset.
  - rewrite (Hframe None _ 0 colorArray whole ltac:(lia) Hwhole j) by lia.
    rewrite (Hframe (Some mask') _ 0 first second ltac:(lia) Hrun2 j) by lia.
    symmetry. apply (Hframe (Some mask) _ 0 colorArray first ltac:(lia) Hrun1 j). lia.
Qed.

Lemma complementary_masks_render_everything_witness :
  exists second,
    mandelbrotRenderBlock log2_ref cvt_invalid_arm tables_zero 1 2 0 0
      (constant_transform (F64.of_Z 2) (F64.of_Z 0)) 50 (F64.of_Z 4)
      (grey_palette 50) 0 false false (F64.of_Z 1) (F64.of_Z 1) (F64.of_Z 1)
      None [7; 8; 9] = Some second.
Proof.
  eexists.
  eapply (complementary_masks_render_everything log2_ref cvt_invalid_arm tables_zero
           1 2 0 0 (constant_transform (F64.of_Z 2) (F64.of_Z 0)) 50 (F64.of_Z 4)
           (grey_palette 50) 0 false false (F64.of_Z 1) (F64.of_Z 1) (F64.of_Z 1)
           [true; false] [false; true] [7; 8; 9]).
  - lia.
  - unfold INT_MAX. lia.
  - intros j set Hj. assert (Hcase : j = 0 \/ j = 1) by lia.
    destruct Hcase as [-> | ->]; intros [= <-]; reflexivity.
  - vm_compute. reflexivity.
  - vm_compute. reflexivity.
Defined.
